(** * YangtzeSense: the LEACH and PEGASIS routing-energy simulators

    Shallow embedding of
      src/simulation/routingAlgorithms/leach.ts
      src/simulation/routingAlgorithms/pegasis.ts
    and the properties of their round logs and metrics.

    Modelling conventions.
    - A JavaScript [number] holding an energy, a distance or a data size is
      an exact rational ([Q]); equalities between such numbers are stated
      with [==].  Rounding, [NaN] and [Infinity] are outside the model.
      [config.rounds] is an integer ([Z]).
    - [Record<string, number>] objects are finite maps [gmap string Q];
      reading an absent property gives [None] (JavaScript [undefined]).
      Node ids are ordinary keys (not names inherited from
      [Object.prototype]).
    - A value of type [string | undefined] is an [option string]; used as a
      property key, [undefined] becomes the key ["undefined"].
    - [x!.p] on an [x] that is [undefined] throws a [TypeError]; functions
      that can reach such an access return an [outcome].
    - [Math.sqrt], [Math.cos], [Math.PI] and the sequence of values returned
      by [Math.random] belong to the host and are parameters.

    The module [Double] embeds the same text a second time on IEEE 754
    binary64 numbers, for the reconciliation of the energy metric, which
    depends on how the rounded additions are grouped. *)

From Stdlib Require Import PrimFloat Uint63 FloatOps SpecFloat.
From Stdlib Require Import QArith Qround Lqa ZArith Lia Permutation.
From stdpp Require Import gmap strings list fin_maps.

Set Warnings "-inexact-float".

(** ** Numbers and possibly-absent numbers *)

Definition Qltb (x y : Q) : bool := negb (Qle_bool y x).

(** [v <= 0] where [v] was read from a record; [undefined <= 0] is false. *)
Definition le0 (v : option Q) : bool :=
  match v with Some x => Qle_bool x 0 | None => false end.

(** [v > 0]; [undefined > 0] is false. *)
Definition gt0 (v : option Q) : bool :=
  match v with Some x => Qltb 0 x | None => false end.

(** [v > w]; false as soon as one side is [undefined]. *)
Definition gt (v w : option Q) : bool :=
  match v, w with Some x, Some y => Qltb y x | _, _ => false end.

(** [v || 0]. *)
Definition orZero (v : option Q) : Q :=
  match v with Some x => x | None => 0%Q end.

(** ToPropertyKey on a [string | undefined]. *)
Definition propKey (v : option string) : string :=
  match v with Some s => s | None => "undefined"%string end.

(** [arr[i]] for a numeric index [i]. *)
Definition arrayGet {A : Type} (arr : list A) (i : Z) : option A :=
  if (i <? 0)%Z then None else arr !! Z.to_nat i.

(** ** Exceptions *)

Inductive JsError := TypeError.

Inductive outcome (A : Type) :=
| Returns (a : A)
| Throws (e : JsError).
Arguments Returns {A} a.
Arguments Throws {A} e.

#[global] Instance outcome_ret : MRet outcome := λ A, Returns.
#[global] Instance outcome_bind : MBind outcome := λ A B f m,
  match m with Returns a => f a | Throws e => Throws e end.

(** Reading a property of [x!] : a [TypeError] when [x] is [undefined]. *)
Definition deref {A : Type} (x : option A) : outcome A :=
  match x with Some a => Returns a | None => Throws TypeError end.

(** [for (const x of l) body]. *)
Fixpoint forOf {A S : Type} (body : A → S → outcome S) (l : list A) (s : S)
  : outcome S :=
  match l with
  | [] => Returns s
  | x :: l' => s' ← body x s; forOf body l' s'
  end.

(** ** Nodes (types/node.ts; the display-only fields are left out) *)

Record Position := { lat : Q; lng : Q }.

Inductive NodeType := sensor | base | relay.

Record WSNNode := { id : string; position : Position; type : NodeType }.

Definition isBase (n : WSNNode) : bool :=
  match type n with base => true | _ => false end.

(** [nodes.find(n => n.id === v)]. *)
Definition findById (nodes : list WSNNode) (v : option string) : option WSNNode :=
  match v with
  | Some s => List.find (λ n, String.eqb (id n) s) nodes
  | None => None
  end.

(** [nodes.find(n => n.type === 'base')]. *)
Definition findBase (nodes : list WSNNode) : option WSNNode :=
  List.find isBase nodes.

(** ** Host functions and the distance metric *)

Class MathHost := {
  Math_sqrt : Q → Q;
  Math_cos : Q → Q;
  Math_PI : Q
}.

(** What the proofs use of [Math.sqrt]. *)
Class MathHostSpec `{MathHost} := {
  Math_sqrt_nonneg : ∀ x, (0 <= Math_sqrt x)%Q
}.

(** [calculateDistance], the same text in leach.ts:219-227 and
    pegasis.ts:257-265. *)
Definition calculateDistance `{MathHost} (pos1 pos2 : Position) : Q :=
  let latDiff := ((lat pos1 - lat pos2) * 111)%Q in
  let lngDiff :=
    ((lng pos1 - lng pos2) * 111 * Math_cos (lat pos1 * (Math_PI / 180)))%Q in
  Math_sqrt (latDiff * latDiff + lngDiff * lngDiff)%Q.

(** ** The round loop and the metrics

    The two simulators share the text around the round body: the ledger
    initialisation, the [for] loop with its [networkDied] guard, the
    alive count, the lifetime update, the push on [rounds], the two
    accumulators and the final metrics (leach.ts:48-65 and 173-215,
    pegasis.ts:48-72 and 174-216).  It is written once, over the round body
    [executeRound]; [T] is the protocol's topology snapshot and [X] the
    state the body threads besides the ledger. *)

Module Sim.

(** The three objects a round body mutates. *)
Record Books := {
  energyUsage : gmap string Q;
  nodeEnergy : gmap string Q;
  roundDataTransmitted : Q
}.

(** [energyUsage[k] = (energyUsage[k] || 0) + cost; nodeEnergy[k] -= cost]. *)
Definition spend (k : string) (cost : Q) (b : Books) : Books :=
  {| energyUsage := <[k := (orZero (energyUsage b !! k) + cost)%Q]> (energyUsage b);
     nodeEnergy := alter (λ e, (e - cost)%Q) k (nodeEnergy b);
     roundDataTransmitted := roundDataTransmitted b |}.

(** [roundDataTransmitted += bits]. *)
Definition deliver (bits : Q) (b : Books) : Books :=
  {| energyUsage := energyUsage b;
     nodeEnergy := nodeEnergy b;
     roundDataTransmitted := (roundDataTransmitted b + bits)%Q |}.

Record Round (T : Type) := {
  roundNumber : Z;
  topology : T;
  roundEnergyUsage : gmap string Q;
  nodesAlive : nat;
  dataTransmitted : Q
}.
Arguments roundNumber {T} _.
Arguments topology {T} _.
Arguments roundEnergyUsage {T} _.
Arguments nodesAlive {T} _.
Arguments dataTransmitted {T} _.

Record Metrics := {
  energyConsumption : Q;
  networkLifetime : Z;
  dataDelivered : Q;
  averageEnergy : Q
}.

Record SimulationResult (T : Type) := {
  rounds : list (Round T);
  metrics : Metrics
}.
Arguments rounds {T} _.
Arguments metrics {T} _.

(** The variables of the simulator function that live across rounds. *)
Record RunState (T X : Type) := {
  st_nodeEnergy : gmap string Q;
  st_rounds : list (Round T);
  st_totalEnergyConsumption : Q;
  st_dataDelivered : Q;
  st_networkDied : bool;
  st_networkLifetime : Z;
  st_aux : X
}.
Arguments st_nodeEnergy {T X} _.
Arguments st_rounds {T X} _.
Arguments st_totalEnergyConsumption {T X} _.
Arguments st_dataDelivered {T X} _.
Arguments st_networkDied {T X} _.
Arguments st_networkLifetime {T X} _.
Arguments st_aux {T X} _.

(** [for (const id in m) acc += m[id]]. *)
Definition sumValues (m : gmap string Q) (acc : Q) : Q :=
  map_fold (λ _ v a, (a + v)%Q) acc m.

(** [nodes.forEach(node => nodeEnergy[node.id] = initialEnergy)]. *)
Definition initEnergy (nodes : list WSNNode) (initialEnergy : Q) : gmap string Q :=
  fold_left (λ E node, <[id node := initialEnergy]> E) nodes ∅.

(** [nodes.filter(node => nodeEnergy[node.id] > 0).length]. *)
Definition countAlive (nodes : list WSNNode) (E : gmap string Q) : nat :=
  length (List.filter (λ node, gt0 (E !! id node)) nodes).

Section Driver.
Context {T X : Type}.
Variable executeRound : Z → gmap string Q → X → outcome (T * Books * X).
Variable nodes : list WSNNode.
Variable configRounds : Z.
Variable initialEnergy : Q.

Definition initialState (x0 : X) : RunState T X :=
  {| st_nodeEnergy := initEnergy nodes initialEnergy;
     st_rounds := [];
     st_totalEnergyConsumption := 0;
     st_dataDelivered := 0;
     st_networkDied := false;
     st_networkLifetime := configRounds;
     st_aux := x0 |}.

(** One pass through the body of the [for] loop. *)
Definition iteration (round : Z) (st : RunState T X) : outcome (RunState T X) :=
  if st_networkDied st then Returns st (* continue *)
  else
    '(topo, b, x) ← executeRound round (st_nodeEnergy st) (st_aux st);
    let alive := countAlive nodes (nodeEnergy b) in
    let firstDeath := (alive <? length nodes)%nat && negb (st_networkDied st) in
    Returns
      {| st_nodeEnergy := nodeEnergy b;
         st_rounds := st_rounds st ++
           [ {| roundNumber := round;
                topology := topo;
                roundEnergyUsage := energyUsage b;
                nodesAlive := alive;
                dataTransmitted := roundDataTransmitted b |} ];
         st_totalEnergyConsumption :=
           sumValues (energyUsage b) (st_totalEnergyConsumption st);
         st_dataDelivered := (st_dataDelivered st + roundDataTransmitted b)%Q;
         st_networkDied := if firstDeath then true else st_networkDied st;
         st_networkLifetime := if firstDeath then round else st_networkLifetime st;
         st_aux := x |}.

(** [for (let round = r; ...; round++)], [n] iterations left. *)
Fixpoint roundLoop (n : nat) (round : Z) (st : RunState T X)
  : outcome (RunState T X) :=
  match n with
  | O => Returns st
  | S n' => st' ← iteration round st; roundLoop n' (round + 1)%Z st'
  end.

(** leach.ts:200-215, pegasis.ts:201-216.  On an empty node list the
    JavaScript quotient is [NaN]; no property below reads [averageEnergy]. *)
Definition finish (st : RunState T X) : SimulationResult T :=
  let totalRemainingEnergy := sumValues (st_nodeEnergy st) 0 in
  {| rounds := st_rounds st;
     metrics :=
       {| energyConsumption := st_totalEnergyConsumption st;
          networkLifetime := st_networkLifetime st;
          dataDelivered := st_dataDelivered st;
          averageEnergy :=
            (totalRemainingEnergy / inject_Z (Z.of_nat (length nodes)))%Q |} |}.

Definition run (x0 : X) : outcome (RunState T X) :=
  roundLoop (Z.to_nat configRounds) 1%Z (initialState x0).

Definition simulate (x0 : X) : outcome (SimulationResult T) :=
  st ← run x0; Returns (finish st).
End Driver.

End Sim.

(** ** PEGASIS (pegasis.ts) *)

Module PEGASIS.

Inductive LeaderSelectionMethod := roundRobin | energyBased.

Record PEGASISConfig := {
  rounds : Z;
  initialEnergy : Q;
  transmitEnergy : Q;
  receiveEnergy : Q;
  dataSize : Q;
  leaderSelectionMethod : LeaderSelectionMethod
}.

Definition DEFAULT_PEGASIS_CONFIG : PEGASISConfig :=
  {| rounds := 20;
     initialEnergy := 2.0;
     transmitEnergy := 0.000050;
     receiveEnergy := 0.000025;
     dataSize := 4000;
     leaderSelectionMethod := roundRobin |}.

(** The protocol part of a [PEGASISRound]. *)
Record Topology := {
  chain : list string;
  leader : option string
}.

(** [chain.indexOf(v)] as a loop over the array, [i] the current index. *)
Fixpoint indexOfFrom (l : list string) (s : string) (i : Z) : Z :=
  match l with
  | [] => (-1)%Z
  | x :: l' => if String.eqb x s then i else indexOfFrom l' s (i + 1)%Z
  end.

Definition indexOf (l : list string) (v : option string) : Z :=
  match v with
  | Some s => indexOfFrom l s 0
  | None => (-1)%Z
  end.

Section WithHost.
Context `{MathHost}.

(** pegasis.ts:237-243, the scan of [nodesCopy[i..]]; [rest] is what is
    left to scan and [i] its first index. *)
Fixpoint scanNearest (currentNode : WSNNode) (rest : list WSNNode) (i : nat)
    (nearestIndex : nat) (minDistance : Q) : nat :=
  match rest with
  | [] => nearestIndex
  | n :: rest' =>
      let distance := calculateDistance (position currentNode) (position n) in
      if Qltb distance minDistance
      then scanNearest currentNode rest' (S i) i distance
      else scanNearest currentNode rest' (S i) nearestIndex minDistance
  end.

(** pegasis.ts:232-251, the [while (nodesCopy.length > 0)] loop; each
    pass removes one element, so [length nodesCopy] passes are enough. *)
Fixpoint greedyLoop (fuel : nat) (currentNode : WSNNode)
    (nodesCopy : list WSNNode) (chain : list string) : outcome (list string) :=
  match fuel with
  | O => Returns chain
  | S fuel' =>
      match nodesCopy with
      | [] => Returns chain
      | n0 :: rest =>
          let nearestIndex :=
            scanNearest currentNode rest 1 0
              (calculateDistance (position currentNode) (position n0)) in
          next ← deref (nodesCopy !! nearestIndex);
          greedyLoop fuel' next (delete nearestIndex nodesCopy) (chain ++ [id next])
      end
  end.

(** pegasis.ts:220-254. *)
Definition constructGreedyChain (nodes : list WSNNode) : outcome (list string) :=
  match nodes with
  | [] => Returns []
  | [n] => Returns [id n]
  | currentNode :: nodesCopy =>
      greedyLoop (length nodesCopy) currentNode nodesCopy [id currentNode]
  end.

Section Round.
Variable nodes : list WSNNode.
Variable config : PEGASISConfig.
Variable baseStation : option WSNNode.
Variable chain : list string.

(** pegasis.ts:79-92. *)
Definition selectLeader (round : Z) (nodeEnergy : gmap string Q)
  : option string :=
  match leaderSelectionMethod config with
  | roundRobin =>
      let len := Z.of_nat (length chain) in
      if (len =? 0)%Z then None (* chain[NaN] *)
      else arrayGet chain (Z.rem (round - 1) len)
  | energyBased =>
      fold_left
        (λ maxId nodeId,
           if gt (nodeEnergy !! nodeId) (nodeEnergy !! propKey maxId)
           then Some nodeId else maxId)
        chain (chain !! 0%nat)
  end.

(** The body shared by the two relay loops (pegasis.ts:102-126 and
    131-155): one transmission from [senderId] to [receiverId]. *)
Definition hop (senderId receiverId : option string) (b : Sim.Books)
  : outcome Sim.Books :=
  if le0 (Sim.nodeEnergy b !! propKey senderId) then Returns b (* continue *)
  else
    sender ← deref (findById nodes senderId);
    receiver ← deref (findById nodes receiverId);
    let distance := calculateDistance (position sender) (position receiver) in
    let transmitCost :=
      (transmitEnergy config * dataSize config * (1 + 0.1 * distance))%Q in
    let b1 := Sim.spend (propKey senderId) transmitCost b in
    if le0 (Sim.nodeEnergy b1 !! propKey receiverId) then Returns b1 (* continue *)
    else
      let receiveCost := (receiveEnergy config * dataSize config)%Q in
      let b2 := Sim.spend (propKey receiverId) receiveCost b1 in
      Returns (Sim.deliver (dataSize config) b2).

(** Indices visited by [for (let i = 0; i < leaderIndex; i++)]. *)
Definition leftIndices (leaderIndex : Z) : list Z := seqZ 0 leaderIndex.

(** Indices visited by
    [for (let i = chain.length - 1; i > leaderIndex; i--)]. *)
Definition rightIndices (leaderIndex : Z) : list Z :=
  reverse (seqZ (leaderIndex + 1) (Z.of_nat (length chain) - 1 - leaderIndex)).

(** pegasis.ts:100-127. *)
Definition relayLeft (leaderIndex : Z) (b : Sim.Books) : outcome Sim.Books :=
  forOf (λ i, hop (arrayGet chain i) (arrayGet chain (i + 1)))
    (leftIndices leaderIndex) b.

(** pegasis.ts:129-156. *)
Definition relayRight (leaderIndex : Z) (b : Sim.Books) : outcome Sim.Books :=
  forOf (λ i, hop (arrayGet chain i) (arrayGet chain (i - 1)))
    (rightIndices leaderIndex) b.

(** pegasis.ts:158-172. *)
Definition leaderToBase (leader : option string) (b : Sim.Books)
  : outcome Sim.Books :=
  match baseStation with
  | Some bs =>
      if gt0 (Sim.nodeEnergy b !! propKey leader) then
        leaderNode ← deref (findById nodes leader);
        let distance := calculateDistance (position leaderNode) (position bs) in
        let aggregatedDataSize := (dataSize config * 0.8)%Q in
        let transmitCost :=
          (transmitEnergy config * aggregatedDataSize * (1 + 0.2 * distance))%Q in
        Returns (Sim.deliver aggregatedDataSize
                   (Sim.spend (propKey leader) transmitCost b))
      else Returns b
  | None => Returns b
  end.

(** pegasis.ts:74-172, the part of the loop body that is specific to
    PEGASIS. *)
Definition executeRound (round : Z) (nodeEnergy : gmap string Q) (_ : unit)
  : outcome (Topology * Sim.Books * unit) :=
  let b0 := {| Sim.energyUsage := ∅;
               Sim.nodeEnergy := nodeEnergy;
               Sim.roundDataTransmitted := 0 |} in
  let leader := selectLeader round nodeEnergy in
  let leaderIndex := indexOf chain leader in
  b1 ← relayLeft leaderIndex b0;
  b2 ← relayRight leaderIndex b1;
  b3 ← leaderToBase leader b2;
  Returns (Build_Topology chain leader, b3, tt).
End Round.

(** pegasis.ts:44-217. *)
Definition simulatePEGASIS (nodes : list WSNNode) (config : PEGASISConfig)
  : outcome (Sim.SimulationResult Topology) :=
  let baseStation := findBase nodes in
  let sensorNodes := List.filter (λ node, negb (isBase node)) nodes in
  chain ← constructGreedyChain sensorNodes;
  Sim.simulate (executeRound nodes config baseStation chain)
    nodes (rounds config) (initialEnergy config) tt.
End WithHost.

End PEGASIS.

(** ** LEACH (leach.ts) *)

Module LEACH.

Record LEACHConfig := {
  rounds : Z;
  probabilityThreshold : Q;
  initialEnergy : Q;
  transmitEnergy : Q;
  receiveEnergy : Q;
  dataSize : Q
}.

Definition DEFAULT_LEACH_CONFIG : LEACHConfig :=
  {| rounds := 20;
     probabilityThreshold := 0.2;
     initialEnergy := 2.0;
     transmitEnergy := 0.000050;
     receiveEnergy := 0.000025;
     dataSize := 4000 |}.

(** The protocol part of a [LEACHRound]. *)
Record Topology := {
  clusterHeads : list string;
  clusterMembers : gmap string (list string)
}.

(** [clusterHeads.includes(s)]. *)
Definition includes (l : list string) (s : string) : bool :=
  existsb (String.eqb s) l.

Section WithHost.
Context `{MathHost}.

(** [random k] is the value returned by the call of [Math.random] that
    follows [k] earlier calls. *)
Variable random : nat → Q.

Section Round.
Variable nodes : list WSNNode.
Variable config : LEACHConfig.

(** leach.ts:74-86, the callback of the election [forEach]; [calls]
    counts the draws made so far. *)
Definition electStep (nodeEnergy : gmap string Q) (acc : Topology * nat)
    (node : WSNNode) : Topology * nat :=
  let '(t, calls) := acc in
  if le0 (nodeEnergy !! id node) then acc
  else if isBase node then acc
  else
    let randomProb := random calls in
    if Qltb randomProb (probabilityThreshold config)
    then ({| clusterHeads := clusterHeads t ++ [id node];
             clusterMembers := <[id node := []]> (clusterMembers t) |},
          S calls)
    else (t, S calls).

Definition electHeads (nodeEnergy : gmap string Q) (calls : nat)
  : Topology * nat :=
  fold_left (electStep nodeEnergy) nodes
    ({| clusterHeads := []; clusterMembers := ∅ |}, calls).

(** leach.ts:88-100.  An index outside [availableNodes] would push
    [undefined] on [clusterHeads]; the assignment loop then reads
    [head.position] of an [undefined] head for the first available
    node (line 114), which is the [TypeError] raised here. *)
Definition fallbackHead (nodeEnergy : gmap string Q) (acc : Topology * nat)
  : outcome (Topology * nat) :=
  let '(t, calls) := acc in
  if (length (clusterHeads t) =? 0)%nat then
    let availableNodes :=
      map id (List.filter
                (λ node, gt0 (nodeEnergy !! id node) && negb (isBase node))
                nodes) in
    if (0 <? length availableNodes)%nat then
      let randomIndex :=
        Qfloor (random calls * inject_Z (Z.of_nat (length availableNodes))) in
      selectedHead ← deref (arrayGet availableNodes randomIndex);
      Returns ({| clusterHeads := clusterHeads t ++ [selectedHead];
                  clusterMembers := <[selectedHead := []]> (clusterMembers t) |},
               S calls)
    else Returns acc
  else Returns acc.

(** leach.ts:112-119, one pass of the nearest-head scan;
    [minDistance = None] is [Infinity]. *)
Definition nearestStep (node : WSNNode) (headId : string)
    (acc : option Q * string) : outcome (option Q * string) :=
  let '(minDistance, nearestHead) := acc in
  head ← deref (findById nodes (Some headId));
  let distance := calculateDistance (position node) (position head) in
  if match minDistance with None => true | Some m => Qltb distance m end
  then Returns (Some distance, headId)
  else Returns acc.

(** leach.ts:103-125, the callback of the assignment [forEach]. *)
Definition assignStep (nodeEnergy : gmap string Q) (clusterHeads : list string)
    (node : WSNNode) (clusterMembers : gmap string (list string))
  : outcome (gmap string (list string)) :=
  if le0 (nodeEnergy !! id node) then Returns clusterMembers
  else if isBase node then Returns clusterMembers
  else if includes clusterHeads (id node) then Returns clusterMembers
  else
    '(_, nearestHead) ← forOf (nearestStep node) clusterHeads (None, EmptyString);
    if String.eqb nearestHead EmptyString then Returns clusterMembers
    else
      members ← deref (clusterMembers !! nearestHead);
      Returns (<[nearestHead := members ++ [id node]]> clusterMembers).

(** leach.ts:134-150, one member reporting to its head. *)
Definition memberSend (headId memberId : string) (b : Sim.Books)
  : outcome Sim.Books :=
  member ← deref (findById nodes (Some memberId));
  head ← deref (findById nodes (Some headId));
  let distance := calculateDistance (position member) (position head) in
  let transmitCost :=
    (transmitEnergy config * dataSize config * (1 + 0.1 * distance))%Q in
  let b1 := Sim.spend memberId transmitCost b in
  let receiveCost := (receiveEnergy config * dataSize config)%Q in
  let b2 := Sim.spend headId receiveCost b1 in
  Returns (Sim.deliver (dataSize config) b2).

(** leach.ts:131-151, one cluster. *)
Definition clusterSend (clusterMembers : gmap string (list string))
    (headId : string) (b : Sim.Books) : outcome Sim.Books :=
  memberIds ← deref (clusterMembers !! headId);
  forOf (memberSend headId) memberIds b.

(** leach.ts:156-171, one head reporting to the base station. *)
Definition headToBase (clusterMembers : gmap string (list string))
    (baseStation : option WSNNode) (headId : string) (b : Sim.Books)
  : outcome Sim.Books :=
  head ← deref (findById nodes (Some headId));
  bs ← deref baseStation;
  let distance := calculateDistance (position head) (position bs) in
  members ← deref (clusterMembers !! headId);
  let memberCount := inject_Z (Z.of_nat (length members)) in
  let aggregatedDataSize := (dataSize config * (0.5 + 0.5 * memberCount))%Q in
  let transmitCost :=
    (transmitEnergy config * aggregatedDataSize * (1 + 0.2 * distance))%Q in
  Returns (Sim.deliver aggregatedDataSize (Sim.spend headId transmitCost b)).

(** leach.ts:67-171, the part of the loop body that is specific to
    LEACH; the threaded state is the number of draws made. *)
Definition executeRound (round : Z) (nodeEnergy : gmap string Q) (calls : nat)
  : outcome (Topology * Sim.Books * nat) :=
  let b0 := {| Sim.energyUsage := ∅;
               Sim.nodeEnergy := nodeEnergy;
               Sim.roundDataTransmitted := 0 |} in
  '(t, calls') ← fallbackHead nodeEnergy (electHeads nodeEnergy calls);
  members ← forOf (assignStep nodeEnergy (clusterHeads t)) nodes (clusterMembers t);
  b1 ← forOf (clusterSend members) (clusterHeads t) b0;
  let baseStation := findBase nodes in
  b2 ← forOf (headToBase members baseStation) (clusterHeads t) b1;
  Returns ({| clusterHeads := clusterHeads t; clusterMembers := members |},
           b2, calls').
End Round.

(** leach.ts:44-216. *)
Definition simulateLEACH (nodes : list WSNNode) (config : LEACHConfig)
  : outcome (Sim.SimulationResult Topology) :=
  Sim.simulate (executeRound nodes config)
    nodes (rounds config) (initialEnergy config) 0%nat.
End WithHost.

End LEACH.

(** ** The simulator page (pages/RoutingSimulator.tsx) *)

Module RoutingSimulator.

(** [alive > nodes.length * 0.5 ? 'Healthy' : 'Degraded'], the test of
    RoutingSimulator.tsx:101, 114 and 608-620; [None] is an [undefined]
    count, for which the comparison is false. *)
Definition networkStatus (nodes : list WSNNode) (alive : option nat) : string :=
  match alive with
  | Some a =>
      if Qltb (inject_Z (Z.of_nat (length nodes)) * 0.5) (inject_Z (Z.of_nat a))
      then "Healthy" else "Degraded"
  | None => "Degraded"
  end.

(** RoutingSimulator.tsx:608-620, the status card while the playback is
    at [currentRound]; it reads [rounds[currentRound - 1]?.nodesAlive]. *)
Definition statusCard {T : Type} (nodes : list WSNNode)
    (rounds : list (Sim.Round T)) (currentRound : Z) : string :=
  networkStatus nodes (Sim.nodesAlive <$> arrayGet rounds (currentRound - 1)).

End RoutingSimulator.

(** ** A concrete host and sample networks, for evaluating the model *)

Module Sample.

(** A rational square root, exact on squares of rationals. *)
Definition sqrtQ (x : Q) : Q :=
  Qred (inject_Z (Z.sqrt (Qnum x * Z.pos (Qden x))) / inject_Z (Z.pos (Qden x)))%Q.

(** The cosine up to the fourth-order term. *)
Definition cosQ (x : Q) : Q := Qred (1 - x * x / 2 + x * x * x * x / 24)%Q.

#[local] Instance host : MathHost :=
  {| Math_sqrt := sqrtQ; Math_cos := cosQ; Math_PI := 3.14159 |}.

(** Two points on the equator, 1.11 km apart; there the longitude factor
    is the cosine of 0 and the distances are square roots of squares. *)
Definition here : Position := {| lat := 0; lng := 114.3 |}.
Definition east : Position := {| lat := 0; lng := 114.31 |}.

Definition B : WSNNode := {| id := "base"; position := here; type := base |}.
Definition S1 : WSNNode := {| id := "s1"; position := here; type := sensor |}.
Definition S2 : WSNNode := {| id := "s2"; position := east; type := sensor |}.

(** A draw sequence: [Math.random] always returns 0.5. *)
Definition half : nat → Q := λ _, 0.5%Q.

(** One base station and two sensors. *)
Definition net3 : list WSNNode := [B; S1; S2].

(** Two sensors and no base station. *)
Definition sensorsOnly : list WSNNode := [S1; S2].

(** The default LEACH configuration with batteries of 0.05 J, less than
    the 0.1 J a head spends to receive one message. *)
Definition leachLow : LEACH.LEACHConfig :=
  {| LEACH.rounds := LEACH.rounds LEACH.DEFAULT_LEACH_CONFIG;
     LEACH.probabilityThreshold :=
       LEACH.probabilityThreshold LEACH.DEFAULT_LEACH_CONFIG;
     LEACH.initialEnergy := 0.05;
     LEACH.transmitEnergy := LEACH.transmitEnergy LEACH.DEFAULT_LEACH_CONFIG;
     LEACH.receiveEnergy := LEACH.receiveEnergy LEACH.DEFAULT_LEACH_CONFIG;
     LEACH.dataSize := LEACH.dataSize LEACH.DEFAULT_LEACH_CONFIG |}.

(** The default PEGASIS configuration, stopped after 8 rounds. *)
Definition pegasis8 : PEGASIS.PEGASISConfig :=
  {| PEGASIS.rounds := 8;
     PEGASIS.initialEnergy := PEGASIS.initialEnergy PEGASIS.DEFAULT_PEGASIS_CONFIG;
     PEGASIS.transmitEnergy := PEGASIS.transmitEnergy PEGASIS.DEFAULT_PEGASIS_CONFIG;
     PEGASIS.receiveEnergy := PEGASIS.receiveEnergy PEGASIS.DEFAULT_PEGASIS_CONFIG;
     PEGASIS.dataSize := PEGASIS.dataSize PEGASIS.DEFAULT_PEGASIS_CONFIG;
     PEGASIS.leaderSelectionMethod := PEGASIS.roundRobin |}.

End Sample.

(** ** The same code on binary64 numbers

    The JavaScript numbers of the simulators are IEEE 754 doubles; their
    additions round, so a sum depends on how it is grouped.  For the
    properties that compare two groupings, [Double] embeds the same source
    text once more with the kernel's binary64 numbers ([float]: the
    operations round to nearest, ties to even, as JavaScript's do), and
    with records that keep the order in which [for ... in] and
    [Object.values] visit their entries: the order of first assignment,
    node ids being ordinary keys (neither canonical array indices nor names
    inherited from [Object.prototype]).  [config.rounds] stays an integer,
    and [Math.sqrt], [Math.cos], [Math.PI] and the draws of [Math.random]
    stay parameters. *)

Module Double.
#[local] Open Scope float_scope.

(** [v <= 0] where [v] was read from a record; false for [undefined] and
    for [NaN]. *)
Definition le0 (v : option float) : bool :=
  match v with Some x => x <=? 0 | None => false end.

(** [v > 0]. *)
Definition gt0 (v : option float) : bool :=
  match v with Some x => 0 <? x | None => false end.

(** [v > w]. *)
Definition gt (v w : option float) : bool :=
  match v, w with Some x, Some y => y <? x | _, _ => false end.

(** [v || 0]: [undefined], [NaN] and both zeros are falsy. *)
Definition orZero (v : option float) : float :=
  match v with
  | Some x => if is_nan x || (x =? 0) then 0 else x
  | None => 0
  end.

(** [v - cost] where [v] was read from a record; [undefined - cost] is
    [NaN]. *)
Definition minus (v : option float) (cost : float) : float :=
  match v with Some x => x - cost | None => nan end.

(** A length as a number. *)
Definition ofNat (n : nat) : float := of_uint63 (Uint63.of_Z (Z.of_nat n)).

(** [Math.floor(x)] as an array index; [None] when [x] is [NaN] or
    infinite, where [arr[x]] is [undefined]. *)
Definition floorIndex (x : float) : option Z :=
  match Prim2SF x with
  | S754_zero _ => Some 0%Z
  | S754_finite s m e => Some (Z.shiftl (if s then Z.neg m else Z.pos m) e)
  | _ => None
  end.

(** A [Record<string, number>], its entries in [for ... in] order. *)
Definition NumberRecord := list (string * float).

(** [record[k]]. *)
Fixpoint get (record : NumberRecord) (k : string) : option float :=
  match record with
  | [] => None
  | (k', v) :: rest => if String.eqb k' k then Some v else get rest k
  end.

(** [record[k] = v]: an entry that exists keeps its place, a new one goes
    last. *)
Fixpoint set (k : string) (v : float) (record : NumberRecord) : NumberRecord :=
  match record with
  | [] => [(k, v)]
  | (k', v') :: rest =>
      if String.eqb k' k then (k, v) :: rest else (k', v') :: set k v rest
  end.

(** [Object.values(record)]. *)
Definition values (record : NumberRecord) : list float := map snd record.

Record Position := { lat : float; lng : float }.

Record WSNNode := { id : string; position : Position; type : NodeType }.

Definition isBase (n : WSNNode) : bool :=
  match type n with base => true | _ => false end.

(** [nodes.find(n => n.id === v)]. *)
Definition findById (nodes : list WSNNode) (v : option string) : option WSNNode :=
  match v with
  | Some s => List.find (λ n, String.eqb (id n) s) nodes
  | None => None
  end.

(** [nodes.find(n => n.type === 'base')]. *)
Definition findBase (nodes : list WSNNode) : option WSNNode :=
  List.find isBase nodes.

Class MathHost := {
  Math_sqrt : float → float;
  Math_cos : float → float;
  Math_PI : float
}.

(** [calculateDistance], leach.ts:219-227 and pegasis.ts:257-265. *)
Definition calculateDistance `{MathHost} (pos1 pos2 : Position) : float :=
  let latDiff := (lat pos1 - lat pos2) * 111 in
  let lngDiff :=
    (lng pos1 - lng pos2) * 111 * Math_cos (lat pos1 * (Math_PI / 180)) in
  Math_sqrt (latDiff * latDiff + lngDiff * lngDiff).

(** The text the two simulators share around the round body
    (leach.ts:48-65 and 173-215, pegasis.ts:48-72 and 174-216). *)
Module Sim.

Record Books := {
  energyUsage : NumberRecord;
  nodeEnergy : NumberRecord;
  roundDataTransmitted : float
}.

(** [energyUsage[k] = (energyUsage[k] || 0) + cost; nodeEnergy[k] -= cost]. *)
Definition spend (k : string) (cost : float) (b : Books) : Books :=
  {| energyUsage := set k (orZero (get (energyUsage b) k) + cost) (energyUsage b);
     nodeEnergy := set k (minus (get (nodeEnergy b) k) cost) (nodeEnergy b);
     roundDataTransmitted := roundDataTransmitted b |}.

(** [roundDataTransmitted += bits]. *)
Definition deliver (bits : float) (b : Books) : Books :=
  {| energyUsage := energyUsage b;
     nodeEnergy := nodeEnergy b;
     roundDataTransmitted := roundDataTransmitted b + bits |}.

Record Round (T : Type) := {
  roundNumber : Z;
  topology : T;
  roundEnergyUsage : NumberRecord;
  nodesAlive : nat;
  dataTransmitted : float
}.
Arguments roundNumber {T} _.
Arguments topology {T} _.
Arguments roundEnergyUsage {T} _.
Arguments nodesAlive {T} _.
Arguments dataTransmitted {T} _.

Record Metrics := {
  energyConsumption : float;
  networkLifetime : Z;
  dataDelivered : float;
  averageEnergy : float
}.

Record SimulationResult (T : Type) := {
  rounds : list (Round T);
  metrics : Metrics
}.
Arguments rounds {T} _.
Arguments metrics {T} _.

Record RunState (T X : Type) := {
  st_nodeEnergy : NumberRecord;
  st_rounds : list (Round T);
  st_totalEnergyConsumption : float;
  st_dataDelivered : float;
  st_networkDied : bool;
  st_networkLifetime : Z;
  st_aux : X
}.
Arguments st_nodeEnergy {T X} _.
Arguments st_rounds {T X} _.
Arguments st_totalEnergyConsumption {T X} _.
Arguments st_dataDelivered {T X} _.
Arguments st_networkDied {T X} _.
Arguments st_networkLifetime {T X} _.
Arguments st_aux {T X} _.

(** [for (const id in record) acc += record[id]]. *)
Definition sumValues (record : NumberRecord) (acc : float) : float :=
  fold_left (λ a entry, a + snd entry) record acc.

(** [nodes.forEach(node => nodeEnergy[node.id] = initialEnergy)]. *)
Definition initEnergy (nodes : list WSNNode) (initialEnergy : float) : NumberRecord :=
  fold_left (λ E node, set (id node) initialEnergy E) nodes [].

(** [nodes.filter(node => nodeEnergy[node.id] > 0).length]. *)
Definition countAlive (nodes : list WSNNode) (E : NumberRecord) : nat :=
  length (List.filter (λ node, gt0 (get E (id node))) nodes).

Section Driver.
Context {T X : Type}.
Variable executeRound : Z → NumberRecord → X → outcome (T * Books * X).
Variable nodes : list WSNNode.
Variable configRounds : Z.
Variable initialEnergy : float.

Definition initialState (x0 : X) : RunState T X :=
  {| st_nodeEnergy := initEnergy nodes initialEnergy;
     st_rounds := [];
     st_totalEnergyConsumption := 0;
     st_dataDelivered := 0;
     st_networkDied := false;
     st_networkLifetime := configRounds;
     st_aux := x0 |}.

(** One pass through the body of the [for] loop. *)
Definition iteration (round : Z) (st : RunState T X) : outcome (RunState T X) :=
  if st_networkDied st then Returns st (* continue *)
  else
    '(topo, b, x) ← executeRound round (st_nodeEnergy st) (st_aux st);
    let alive := countAlive nodes (nodeEnergy b) in
    let firstDeath := (alive <? length nodes)%nat && negb (st_networkDied st) in
    Returns
      {| st_nodeEnergy := nodeEnergy b;
         st_rounds := st_rounds st ++
           [ {| roundNumber := round;
                topology := topo;
                roundEnergyUsage := energyUsage b;
                nodesAlive := alive;
                dataTransmitted := roundDataTransmitted b |} ];
         st_totalEnergyConsumption :=
           sumValues (energyUsage b) (st_totalEnergyConsumption st);
         st_dataDelivered := st_dataDelivered st + roundDataTransmitted b;
         st_networkDied := if firstDeath then true else st_networkDied st;
         st_networkLifetime := if firstDeath then round else st_networkLifetime st;
         st_aux := x |}.

(** [for (let round = r; ...; round++)], [n] iterations left. *)
Fixpoint roundLoop (n : nat) (round : Z) (st : RunState T X)
  : outcome (RunState T X) :=
  match n with
  | O => Returns st
  | S n' => st' ← iteration round st; roundLoop n' (round + 1)%Z st'
  end.

(** leach.ts:200-215, pegasis.ts:201-216. *)
Definition finish (st : RunState T X) : SimulationResult T :=
  let totalRemainingEnergy := sumValues (st_nodeEnergy st) 0 in
  {| rounds := st_rounds st;
     metrics :=
       {| energyConsumption := st_totalEnergyConsumption st;
          networkLifetime := st_networkLifetime st;
          dataDelivered := st_dataDelivered st;
          averageEnergy := totalRemainingEnergy / ofNat (length nodes) |} |}.

Definition run (x0 : X) : outcome (RunState T X) :=
  roundLoop (Z.to_nat configRounds) 1%Z (initialState x0).

Definition simulate (x0 : X) : outcome (SimulationResult T) :=
  st ← run x0; Returns (finish st).
End Driver.

End Sim.

Module PEGASIS.

Record PEGASISConfig := {
  rounds : Z;
  initialEnergy : float;
  transmitEnergy : float;
  receiveEnergy : float;
  dataSize : float;
  leaderSelectionMethod : PEGASIS.LeaderSelectionMethod
}.

Definition DEFAULT_PEGASIS_CONFIG : PEGASISConfig :=
  {| rounds := 20;
     initialEnergy := 2.0;
     transmitEnergy := 0.000050;
     receiveEnergy := 0.000025;
     dataSize := 4000;
     leaderSelectionMethod := PEGASIS.roundRobin |}.

Section WithHost.
Context `{MathHost}.

(** pegasis.ts:237-243. *)
Fixpoint scanNearest (currentNode : WSNNode) (rest : list WSNNode) (i : nat)
    (nearestIndex : nat) (minDistance : float) : nat :=
  match rest with
  | [] => nearestIndex
  | n :: rest' =>
      let distance := calculateDistance (position currentNode) (position n) in
      if distance <? minDistance
      then scanNearest currentNode rest' (S i) i distance
      else scanNearest currentNode rest' (S i) nearestIndex minDistance
  end.

(** pegasis.ts:232-251; each pass removes one element, so
    [length nodesCopy] passes are enough. *)
Fixpoint greedyLoop (fuel : nat) (currentNode : WSNNode)
    (nodesCopy : list WSNNode) (chain : list string) : outcome (list string) :=
  match fuel with
  | O => Returns chain
  | S fuel' =>
      match nodesCopy with
      | [] => Returns chain
      | n0 :: rest =>
          let nearestIndex :=
            scanNearest currentNode rest 1 0
              (calculateDistance (position currentNode) (position n0)) in
          next ← deref (nodesCopy !! nearestIndex);
          greedyLoop fuel' next (delete nearestIndex nodesCopy) (chain ++ [id next])
      end
  end.

(** pegasis.ts:220-254. *)
Definition constructGreedyChain (nodes : list WSNNode) : outcome (list string) :=
  match nodes with
  | [] => Returns []
  | [n] => Returns [id n]
  | currentNode :: nodesCopy =>
      greedyLoop (length nodesCopy) currentNode nodesCopy [id currentNode]
  end.

Section Round.
Variable nodes : list WSNNode.
Variable config : PEGASISConfig.
Variable baseStation : option WSNNode.
Variable chain : list string.

(** pegasis.ts:79-92. *)
Definition selectLeader (round : Z) (nodeEnergy : NumberRecord)
  : option string :=
  match leaderSelectionMethod config with
  | PEGASIS.roundRobin =>
      let len := Z.of_nat (length chain) in
      if (len =? 0)%Z then None (* chain[NaN] *)
      else arrayGet chain (Z.rem (round - 1) len)
  | PEGASIS.energyBased =>
      fold_left
        (λ maxId nodeId,
           if gt (get nodeEnergy nodeId) (get nodeEnergy (propKey maxId))
           then Some nodeId else maxId)
        chain (chain !! 0%nat)
  end.

(** The body shared by the two relay loops (pegasis.ts:102-126 and
    131-155). *)
Definition hop (senderId receiverId : option string) (b : Sim.Books)
  : outcome Sim.Books :=
  if le0 (get (Sim.nodeEnergy b) (propKey senderId)) then Returns b (* continue *)
  else
    sender ← deref (findById nodes senderId);
    receiver ← deref (findById nodes receiverId);
    let distance := calculateDistance (position sender) (position receiver) in
    let transmitCost :=
      transmitEnergy config * dataSize config * (1 + 0.1 * distance) in
    let b1 := Sim.spend (propKey senderId) transmitCost b in
    if le0 (get (Sim.nodeEnergy b1) (propKey receiverId)) then Returns b1 (* continue *)
    else
      let receiveCost := receiveEnergy config * dataSize config in
      let b2 := Sim.spend (propKey receiverId) receiveCost b1 in
      Returns (Sim.deliver (dataSize config) b2).

(** pegasis.ts:100-127. *)
Definition relayLeft (leaderIndex : Z) (b : Sim.Books) : outcome Sim.Books :=
  forOf (λ i, hop (arrayGet chain i) (arrayGet chain (i + 1)))
    (PEGASIS.leftIndices leaderIndex) b.

(** pegasis.ts:129-156. *)
Definition relayRight (leaderIndex : Z) (b : Sim.Books) : outcome Sim.Books :=
  forOf (λ i, hop (arrayGet chain i) (arrayGet chain (i - 1)))
    (PEGASIS.rightIndices chain leaderIndex) b.

(** pegasis.ts:158-172. *)
Definition leaderToBase (leader : option string) (b : Sim.Books)
  : outcome Sim.Books :=
  match baseStation with
  | Some bs =>
      if gt0 (get (Sim.nodeEnergy b) (propKey leader)) then
        leaderNode ← deref (findById nodes leader);
        let distance := calculateDistance (position leaderNode) (position bs) in
        let aggregatedDataSize := dataSize config * 0.8 in
        let transmitCost :=
          transmitEnergy config * aggregatedDataSize * (1 + 0.2 * distance) in
        Returns (Sim.deliver aggregatedDataSize
                   (Sim.spend (propKey leader) transmitCost b))
      else Returns b
  | None => Returns b
  end.

(** pegasis.ts:74-172. *)
Definition executeRound (round : Z) (nodeEnergy : NumberRecord) (_ : unit)
  : outcome (PEGASIS.Topology * Sim.Books * unit) :=
  let b0 := {| Sim.energyUsage := [];
               Sim.nodeEnergy := nodeEnergy;
               Sim.roundDataTransmitted := 0 |} in
  let leader := selectLeader round nodeEnergy in
  let leaderIndex := PEGASIS.indexOf chain leader in
  b1 ← relayLeft leaderIndex b0;
  b2 ← relayRight leaderIndex b1;
  b3 ← leaderToBase leader b2;
  Returns (PEGASIS.Build_Topology chain leader, b3, tt).
End Round.

(** pegasis.ts:44-217. *)
Definition simulatePEGASIS (nodes : list WSNNode) (config : PEGASISConfig)
  : outcome (Sim.SimulationResult PEGASIS.Topology) :=
  let baseStation := findBase nodes in
  let sensorNodes := List.filter (λ node, negb (isBase node)) nodes in
  chain ← constructGreedyChain sensorNodes;
  Sim.simulate (executeRound nodes config baseStation chain)
    nodes (rounds config) (initialEnergy config) tt.
End WithHost.

End PEGASIS.

Module LEACH.

Record LEACHConfig := {
  rounds : Z;
  probabilityThreshold : float;
  initialEnergy : float;
  transmitEnergy : float;
  receiveEnergy : float;
  dataSize : float
}.

Definition DEFAULT_LEACH_CONFIG : LEACHConfig :=
  {| rounds := 20;
     probabilityThreshold := 0.2;
     initialEnergy := 2.0;
     transmitEnergy := 0.000050;
     receiveEnergy := 0.000025;
     dataSize := 4000 |}.

Section WithHost.
Context `{MathHost}.

(** [random k] is the value returned by the call of [Math.random] that
    follows [k] earlier calls. *)
Variable random : nat → float.

Section Round.
Variable nodes : list WSNNode.
Variable config : LEACHConfig.

(** leach.ts:74-86. *)
Definition electStep (nodeEnergy : NumberRecord) (acc : LEACH.Topology * nat)
    (node : WSNNode) : LEACH.Topology * nat :=
  let '(t, calls) := acc in
  if le0 (get nodeEnergy (id node)) then acc
  else if isBase node then acc
  else
    let randomProb := random calls in
    if randomProb <? probabilityThreshold config
    then ({| LEACH.clusterHeads := LEACH.clusterHeads t ++ [id node];
             LEACH.clusterMembers := <[id node := []]> (LEACH.clusterMembers t) |},
          S calls)
    else (t, S calls).

Definition electHeads (nodeEnergy : NumberRecord) (calls : nat)
  : LEACH.Topology * nat :=
  fold_left (electStep nodeEnergy) nodes
    ({| LEACH.clusterHeads := []; LEACH.clusterMembers := ∅ |}, calls).

(** leach.ts:88-100; an index outside [availableNodes] pushes
    [undefined], and the assignment loop then throws on [head.position]
    (line 114). *)
Definition fallbackHead (nodeEnergy : NumberRecord) (acc : LEACH.Topology * nat)
  : outcome (LEACH.Topology * nat) :=
  let '(t, calls) := acc in
  if (length (LEACH.clusterHeads t) =? 0)%nat then
    let availableNodes :=
      map id (List.filter
                (λ node, gt0 (get nodeEnergy (id node)) && negb (isBase node))
                nodes) in
    if (0 <? length availableNodes)%nat then
      let randomIndex := floorIndex (random calls * ofNat (length availableNodes)) in
      selectedHead ← deref (randomIndex ≫= arrayGet availableNodes);
      Returns ({| LEACH.clusterHeads := LEACH.clusterHeads t ++ [selectedHead];
                  LEACH.clusterMembers :=
                    <[selectedHead := []]> (LEACH.clusterMembers t) |},
               S calls)
    else Returns acc
  else Returns acc.

(** leach.ts:112-119, one pass of the nearest-head scan. *)
Definition nearestStep (node : WSNNode) (headId : string)
    (acc : float * string) : outcome (float * string) :=
  let '(minDistance, nearestHead) := acc in
  head ← deref (findById nodes (Some headId));
  let distance := calculateDistance (position node) (position head) in
  if distance <? minDistance
  then Returns (distance, headId)
  else Returns acc.

(** leach.ts:103-125. *)
Definition assignStep (nodeEnergy : NumberRecord) (clusterHeads : list string)
    (node : WSNNode) (clusterMembers : gmap string (list string))
  : outcome (gmap string (list string)) :=
  if le0 (get nodeEnergy (id node)) then Returns clusterMembers
  else if isBase node then Returns clusterMembers
  else if LEACH.includes clusterHeads (id node) then Returns clusterMembers
  else
    '(_, nearestHead) ← forOf (nearestStep node) clusterHeads (infinity, EmptyString);
    if String.eqb nearestHead EmptyString then Returns clusterMembers
    else
      members ← deref (clusterMembers !! nearestHead);
      Returns (<[nearestHead := members ++ [id node]]> clusterMembers).

(** leach.ts:134-150. *)
Definition memberSend (headId memberId : string) (b : Sim.Books)
  : outcome Sim.Books :=
  member ← deref (findById nodes (Some memberId));
  head ← deref (findById nodes (Some headId));
  let distance := calculateDistance (position member) (position head) in
  let transmitCost :=
    transmitEnergy config * dataSize config * (1 + 0.1 * distance) in
  let b1 := Sim.spend memberId transmitCost b in
  let receiveCost := receiveEnergy config * dataSize config in
  let b2 := Sim.spend headId receiveCost b1 in
  Returns (Sim.deliver (dataSize config) b2).

(** leach.ts:131-151. *)
Definition clusterSend (clusterMembers : gmap string (list string))
    (headId : string) (b : Sim.Books) : outcome Sim.Books :=
  memberIds ← deref (clusterMembers !! headId);
  forOf (memberSend headId) memberIds b.

(** leach.ts:156-171. *)
Definition headToBase (clusterMembers : gmap string (list string))
    (baseStation : option WSNNode) (headId : string) (b : Sim.Books)
  : outcome Sim.Books :=
  head ← deref (findById nodes (Some headId));
  bs ← deref baseStation;
  let distance := calculateDistance (position head) (position bs) in
  members ← deref (clusterMembers !! headId);
  let memberCount := ofNat (length members) in
  let aggregatedDataSize := dataSize config * (0.5 + 0.5 * memberCount) in
  let transmitCost :=
    transmitEnergy config * aggregatedDataSize * (1 + 0.2 * distance) in
  Returns (Sim.deliver aggregatedDataSize (Sim.spend headId transmitCost b)).

(** leach.ts:67-171. *)
Definition executeRound (round : Z) (nodeEnergy : NumberRecord) (calls : nat)
  : outcome (LEACH.Topology * Sim.Books * nat) :=
  let b0 := {| Sim.energyUsage := [];
               Sim.nodeEnergy := nodeEnergy;
               Sim.roundDataTransmitted := 0 |} in
  '(t, calls') ← fallbackHead nodeEnergy (electHeads nodeEnergy calls);
  members ← forOf (assignStep nodeEnergy (LEACH.clusterHeads t)) nodes
              (LEACH.clusterMembers t);
  b1 ← forOf (clusterSend members) (LEACH.clusterHeads t) b0;
  let baseStation := findBase nodes in
  b2 ← forOf (headToBase members baseStation) (LEACH.clusterHeads t) b1;
  Returns ({| LEACH.clusterHeads := LEACH.clusterHeads t;
              LEACH.clusterMembers := members |},
           b2, calls').
End Round.

(** leach.ts:44-216. *)
Definition simulateLEACH (nodes : list WSNNode) (config : LEACHConfig)
  : outcome (Sim.SimulationResult LEACH.Topology) :=
  Sim.simulate (executeRound nodes config)
    nodes (rounds config) (initialEnergy config) 0%nat.
End WithHost.

End LEACH.

(** The sample network of [Sample], with the host's square root and its
    [Math.PI]; on the equator the cosine is only asked at 0. *)
Module Sample.

#[local] Instance host : MathHost :=
  {| Math_sqrt := PrimFloat.sqrt;
     Math_cos := λ x, if x =? 0 then 1 else nan;
     Math_PI := 3.141592653589793 |}.

Definition here : Position := {| lat := 0; lng := 114.3 |}.
Definition east : Position := {| lat := 0; lng := 114.31 |}.

Definition B : WSNNode := {| id := "base"; position := here; type := base |}.
Definition S1 : WSNNode := {| id := "s1"; position := here; type := sensor |}.
Definition S2 : WSNNode := {| id := "s2"; position := east; type := sensor |}.

Definition net3 : list WSNNode := [B; S1; S2].

(** [Math.random] always returns 0.5. *)
Definition half : nat → float := λ _, 0.5.

End Sample.

(** The spec's "sum over rounds of sum over energyUsed values", each
    inner sum computed as the simulator page does
    ([Object.values(round.energyUsage).reduce((a, b) => a + b, 0)]). *)
Definition sumOfRoundSums {T : Type} (rounds : list (Sim.Round T)) : float :=
  fold_left (λ acc round, acc + Sim.sumValues (Sim.roundEnergyUsage round) 0)
    rounds 0.

(** All recorded [energyUsage] values, round by round in [for ... in]
    order. *)
Definition recordedValues {T : Type} (rounds : list (Sim.Round T)) : list float :=
  concat (map (λ round, values (Sim.roundEnergyUsage round)) rounds).

End Double.

(** ** Quantities the properties speak about *)

(** The sum of a list of numbers. *)
Definition sumQ (l : list Q) : Q := fold_right Qplus 0%Q l.

(** The energy spent in a recorded round: the sum of its [energyUsage]
    values. *)
Definition roundEnergy {T : Type} (r : Sim.Round T) : Q :=
  Sim.sumValues (Sim.roundEnergyUsage r) 0.

(** No node is dead at the end of the recorded round. *)
Definition fullAlive {T : Type} (nodes : list WSNNode) (r : Sim.Round T) : Prop :=
  Sim.nodesAlive r = length nodes.

(** [E'] has the keys of [E], none with a larger value. *)
Definition ledger_le (E' E : gmap string Q) : Prop :=
  ∀ k, match E !! k, E' !! k with
       | Some e, Some e' => (e' <= e)%Q
       | None, None => True
       | _, _ => False
       end.

(** A ledger a round can start from: the initial one, or one in which
    every node is alive. *)
Definition startLedger (nodes : list WSNNode) (initialEnergy : Q)
    (E : gmap string Q) : Prop :=
  (∀ n, n ∈ nodes → E !! id n = Some initialEnergy) ∨
  Sim.countAlive nodes E = length nodes.

(** The recorded round [r] is what [executeRound] produced from a start
    ledger. *)
Definition recordedFrom {T X : Type}
    (executeRound : Z → gmap string Q → X → outcome (T * Sim.Books * X))
    (nodes : list WSNNode) (initialEnergy : Q) (r : Sim.Round T) : Prop :=
  ∃ E x b x',
    startLedger nodes initialEnergy E ∧
    executeRound (Sim.roundNumber r) E x = Returns (Sim.topology r, b, x') ∧
    Sim.roundEnergyUsage r = Sim.energyUsage b ∧
    Sim.nodesAlive r = Sim.countAlive nodes (Sim.nodeEnergy b) ∧
    Sim.dataTransmitted r = Sim.roundDataTransmitted b.

(** The shape of the log when the loop is about to run round [round]. *)
Definition logShape {T X : Type} (nodes : list WSNNode) (configRounds : Z)
    (round : Z) (st : Sim.RunState T X) : Prop :=
  map Sim.roundNumber (Sim.st_rounds st) =
    seqZ 1 (Z.of_nat (length (Sim.st_rounds st))) ∧
  if Sim.st_networkDied st then
    ∃ front last,
      Sim.st_rounds st = front ++ [last] ∧
      Forall (fullAlive nodes) front ∧
      (Sim.nodesAlive last < length nodes)%nat ∧
      Sim.st_networkLifetime st = Z.of_nat (length (Sim.st_rounds st)) ∧
      (Z.of_nat (length (Sim.st_rounds st)) < round)%Z
  else
    Forall (fullAlive nodes) (Sim.st_rounds st) ∧
    Sim.st_networkLifetime st = configRounds ∧
    Z.of_nat (length (Sim.st_rounds st)) = (round - 1)%Z.

(** The accumulators are the sums over the log. *)
Definition sumsAgree {T X : Type} (st : Sim.RunState T X) : Prop :=
  (Sim.st_totalEnergyConsumption st == sumQ (map roundEnergy (Sim.st_rounds st)))%Q ∧
  (Sim.st_dataDelivered st == sumQ (map Sim.dataTransmitted (Sim.st_rounds st)))%Q.

(** Every recorded round was computed from a start ledger, and so will the
    next one be. *)
Definition provenance {T X : Type}
    (executeRound : Z → gmap string Q → X → outcome (T * Sim.Books * X))
    (nodes : list WSNNode) (initialEnergy : Q) (st : Sim.RunState T X) : Prop :=
  Forall (recordedFrom executeRound nodes initialEnergy) (Sim.st_rounds st) ∧
  (Sim.st_networkDied st = false →
   startLedger nodes initialEnergy (Sim.st_nodeEnergy st)).

(** What the log of a finished run looks like: rounds numbered from 1, at
    most [roundCount] of them, every round but the last with all nodes
    alive, and [roundCount] of them when no round lost a node. *)
Definition logStopsAtFirstDeath {T : Type} (nodes : list WSNNode) (roundCount : Z)
    (res : Sim.SimulationResult T) : Prop :=
  let log := Sim.rounds res in
  map Sim.roundNumber log = seqZ 1 (Z.of_nat (length log)) ∧
  (length log ≤ Z.to_nat roundCount)%nat ∧
  (∀ front r back, log = front ++ r :: back → back ≠ [] → fullAlive nodes r) ∧
  (Forall (fullAlive nodes) log → length log = Z.to_nat roundCount).

(** What [networkLifetime] is, in terms of the log. *)
Definition lifetimeSpec {T : Type} (nodes : list WSNNode) (roundCount : Z)
    (res : Sim.SimulationResult T) : Prop :=
  let log := Sim.rounds res in
  let life := Sim.networkLifetime (Sim.metrics res) in
  (life ≤ roundCount)%Z ∧
  (Forall (fullAlive nodes) log → life = roundCount) ∧
  (∀ r, r ∈ log → (Sim.nodesAlive r < length nodes)%nat → life = Sim.roundNumber r) ∧
  (life = roundCount ↔
   Forall (λ r, (Sim.roundNumber r < roundCount)%Z → fullAlive nodes r) log).

(** The energy ledger after [k] passes of the round loop. *)
Definition ledgerAfter {T X : Type}
    (executeRound : Z → gmap string Q → X → outcome (T * Sim.Books * X))
    (nodes : list WSNNode) (configRounds : Z) (initialEnergy : Q) (x0 : X)
    (k : nat) : outcome (gmap string Q) :=
  st ← Sim.roundLoop executeRound nodes k 1
         (Sim.initialState nodes configRounds initialEnergy x0);
  Returns (Sim.st_nodeEnergy st).

(** [c] is the first entry of [chain] with the largest energy: the entries
    before it have strictly less, the entries after it at most as much. *)
Definition firstLargest (E : gmap string Q) (chain : list string) (c : string)
  : Prop :=
  ∃ pre post e,
    chain = pre ++ c :: post ∧
    E !! c = Some e ∧
    (∀ c', c' ∈ pre → ∃ e', E !! c' = Some e' ∧ (e' < e)%Q) ∧
    (∀ c', c' ∈ post → ∃ e', E !! c' = Some e' ∧ (e' <= e)%Q).

(** The heads and member lists of a LEACH round are well formed: every head
    is the id of a node and has a member list, and the member lists hold
    ids of nodes. *)
Definition wfTopology (nodes : list WSNNode) (heads : list string)
    (members : gmap string (list string)) : Prop :=
  (∀ h, h ∈ heads → h ∈ map id nodes ∧ is_Some (members !! h)) ∧
  (∀ h ms m, members !! h = Some ms → m ∈ ms → m ∈ map id nodes).

(** The property holds of the result, if there is one. *)
Definition whenReturns {A : Type} (P : A → Prop) (o : outcome A) : Prop :=
  match o with Returns a => P a | Throws _ => True end.

(** ** Bookkeeping of a round *)

(** The books [b] come from [b0] by charging keys that satisfy [K] costs
    that satisfy [C], and by counting messages whose sizes satisfy [D]. *)
Inductive built (K : string → Prop) (C D : Q → Prop) (b0 : Sim.Books)
  : Sim.Books → Prop :=
| built_start : built K C D b0 b0
| built_spend k c b :
    built K C D b0 b → K k → C c → built K C D b0 (Sim.spend k c b)
| built_deliver bits b :
    built K C D b0 b → D bits → built K C D b0 (Sim.deliver bits b).

(** The books a round starts with. *)
Definition openBooks (E : gmap string Q) : Sim.Books :=
  {| Sim.energyUsage := ∅; Sim.nodeEnergy := E; Sim.roundDataTransmitted := 0 |}.

(** A cost, or a message size, that is not negative whenever the three
    constants are not and distances are not. *)
Definition nonnegIf `{MathHost} (transmitEnergy receiveEnergy dataSize : Q) (c : Q)
  : Prop :=
  (0 <= transmitEnergy)%Q → (0 <= receiveEnergy)%Q → (0 <= dataSize)%Q →
  (∀ pos1 pos2, 0 <= calculateDistance pos1 pos2)%Q →
  (0 <= c)%Q.

(** ** The topology of a LEACH round *)

(** The ids of the nodes that are not base stations. *)
Definition nonBaseIds (nodes : list WSNNode) : list string :=
  map id (List.filter (λ node, negb (isBase node)) nodes).

(** Heads are non-base nodes, the member map has exactly the heads as keys,
    and members are non-base nodes that are not heads. *)
Definition topologyOK (nodes : list WSNNode) (heads : list string)
    (members : gmap string (list string)) : Prop :=
  (∀ h, h ∈ heads → h ∈ nonBaseIds nodes) ∧
  (∀ h, is_Some (members !! h) ↔ h ∈ heads) ∧
  (∀ h ms m, members !! h = Some ms → m ∈ ms →
             (m ∉ heads) ∧ m ∈ nonBaseIds nodes).

(** The topology during the election: as above, with empty member
    lists. *)
Definition electOK (nodes : list WSNNode) (t : LEACH.Topology) : Prop :=
  (∀ h, h ∈ LEACH.clusterHeads t → h ∈ nonBaseIds nodes) ∧
  (∀ h, is_Some (LEACH.clusterMembers t !! h) ↔ h ∈ LEACH.clusterHeads t) ∧
  (∀ h ms, LEACH.clusterMembers t !! h = Some ms → ms = []).

(** [nh] is the first of the heads at the smallest distance from [node]:
    the heads before it are strictly farther, the heads after it are not
    closer.  A head stands for the first node of the list with its id. *)
Definition firstNearest `{MathHost} (nodes : list WSNNode) (node : WSNNode)
    (heads : list string) (nh : string) : Prop :=
  ∃ pre post head,
    heads = pre ++ nh :: post ∧
    findById nodes (Some nh) = Some head ∧
    (∀ h, h ∈ pre →
          ∃ hd, findById nodes (Some h) = Some hd ∧
                (calculateDistance (position node) (position head)
                 < calculateDistance (position node) (position hd))%Q) ∧
    (∀ h, h ∈ post →
          ∃ hd, findById nodes (Some h) = Some hd ∧
                (calculateDistance (position node) (position head)
                 <= calculateDistance (position node) (position hd))%Q).

(** [chain] visits the nodes [remaining] greedily from [current]: each
    entry is the first of the nodes not yet visited at the smallest
    distance from the node visited before it. *)
Inductive greedyTour `{MathHost} (current : WSNNode)
  : list WSNNode → list string → Prop :=
| greedyTour_done : greedyTour current [] []
| greedyTour_next pre next post chain :
    (∀ n, n ∈ pre →
          (calculateDistance (position current) (position next)
           < calculateDistance (position current) (position n))%Q) →
    (∀ n, n ∈ post →
          (calculateDistance (position current) (position next)
           <= calculateDistance (position current) (position n))%Q) →
    greedyTour next (pre ++ post) chain →
    greedyTour current (pre ++ next :: post) (id next :: chain).


(** The number of members listed under [headId]. *)
Definition memberCount (t : LEACH.Topology) (headId : string) : Q :=
  match LEACH.clusterMembers t !! headId with
  | Some members => inject_Z (Z.of_nat (length members))
  | None => 0%Q
  end.


(** No id is listed twice in the topology: not among the heads, not in a
    member list, and not in the member lists of two heads. *)
Definition clustersDisjoint (t : LEACH.Topology) : Prop :=
  NoDup (LEACH.clusterHeads t) ∧
  (∀ h ms, LEACH.clusterMembers t !! h = Some ms → NoDup ms) ∧
  (∀ h1 h2 ms1 ms2 m,
     LEACH.clusterMembers t !! h1 = Some ms1 →
     LEACH.clusterMembers t !! h2 = Some ms2 →
     m ∈ ms1 → m ∈ ms2 → h1 = h2).

(** ** Comparisons *)

Lemma Qltb_lt (x y : Q) : Qltb x y = true ↔ (x < y)%Q.
Proof.
  unfold Qltb. rewrite negb_true_iff. split.
  - intros Hf. apply Qnot_le_lt. intros Hle.
    apply Qle_bool_iff in Hle. congruence.
  - intros Hlt. destruct (Qle_bool y x) eqn:Hb; [|reflexivity].
    apply Qle_bool_iff in Hb. lra.
Qed.

Lemma Qltb_ge (x y : Q) : Qltb x y = false ↔ (y <= x)%Q.
Proof.
  unfold Qltb. rewrite negb_false_iff. apply Qle_bool_iff.
Qed.

(** ** The monad *)

Lemma bind_Returns {A B : Type} (m : outcome A) (f : A → outcome B) (b : B) :
  m ≫= f = Returns b ↔ ∃ a, m = Returns a ∧ f a = Returns b.
Proof.
  destruct m as [a|e]; simpl; split.
  - eauto.
  - by intros (a' & [= <-] & ?).
  - done.
  - by intros (a' & ? & _).
Qed.

(** An invariant of the loop body is an invariant of the loop. *)
Lemma forOf_invariant {A S : Type} (P : S → Prop) (body : A → S → outcome S)
    (l : list A) :
  (∀ x s s', x ∈ l → P s → body x s = Returns s' → P s') →
  ∀ s s', P s → forOf body l s = Returns s' → P s'.
Proof.
  induction l as [|x l IH]; intros Hbody s s' Hs Hrun; simpl in Hrun.
  - by injection Hrun as <-.
  - apply bind_Returns in Hrun as (s1 & H1 & H2).
    eapply IH; [| |exact H2].
    + intros y t t' Hy. apply Hbody. by right.
    + eapply Hbody; [by left | exact Hs | exact H1].
Qed.

(** A loop whose passes all return, returns. *)
Lemma forOf_returns {A S : Type} (P : S → Prop) (body : A → S → outcome S)
    (l : list A) :
  (∀ x s, x ∈ l → P s → ∃ s', body x s = Returns s' ∧ P s') →
  ∀ s, P s → ∃ s', forOf body l s = Returns s' ∧ P s'.
Proof.
  induction l as [|x l IH]; intros Hbody s Hs; simpl.
  - eauto.
  - destruct (Hbody x s) as (s1 & H1 & HP1); [by left | done |].
    rewrite H1. simpl. apply IH; [|done].
    intros y t Hy. apply Hbody. by right.
Qed.
(** ** The ledgers *)

Lemma ledger_le_refl (E : gmap string Q) : ledger_le E E.
Proof. intros k. destruct (E !! k); [lra | done]. Qed.

Lemma ledger_le_trans (E1 E2 E3 : gmap string Q) :
  ledger_le E1 E2 → ledger_le E2 E3 → ledger_le E1 E3.
Proof.
  intros H12 H23 k. specialize (H12 k). specialize (H23 k).
  destruct (E1 !! k), (E2 !! k), (E3 !! k); try done. lra.
Qed.

Lemma ledger_le_spend (k : string) (cost : Q) (b : Sim.Books) :
  (0 <= cost)%Q → ledger_le (Sim.nodeEnergy (Sim.spend k cost b)) (Sim.nodeEnergy b).
Proof.
  intros Hc j. simpl. rewrite lookup_alter.
  destruct (decide (k = j)) as [->|Hne].
  - destruct (Sim.nodeEnergy b !! j); simpl; [lra | done].
  - destruct (Sim.nodeEnergy b !! j); simpl; [lra | done].
Qed.

Lemma initEnergy_lookup_aux (initialEnergy : Q) (nodes : list WSNNode)
    (E : gmap string Q) (k : string) :
  fold_left (λ E node, <[id node := initialEnergy]> E) nodes E !! k =
  if bool_decide (k ∈ map id nodes) then Some initialEnergy else E !! k.
Proof.
  revert E. induction nodes as [|n nodes IH]; intros E; simpl.
  - done.
  - rewrite IH. destruct (decide (k ∈ map id nodes)) as [Hin|Hnin].
    + rewrite !bool_decide_eq_true_2; [done | by right | done].
    + rewrite (bool_decide_eq_false_2 _ Hnin).
      destruct (decide (k = id n)) as [->|Hne].
      * rewrite bool_decide_eq_true_2; [|by left]. by rewrite lookup_insert_eq.
      * rewrite bool_decide_eq_false_2.
        -- by rewrite lookup_insert_ne.
        -- intros Hc. apply elem_of_cons in Hc as [?|?]; done.
Qed.

Lemma initEnergy_lookup (initialEnergy : Q) (nodes : list WSNNode) (k : string) :
  Sim.initEnergy nodes initialEnergy !! k =
  if bool_decide (k ∈ map id nodes) then Some initialEnergy else None.
Proof. unfold Sim.initEnergy. by rewrite initEnergy_lookup_aux, lookup_empty. Qed.

Lemma initEnergy_node (initialEnergy : Q) (nodes : list WSNNode) (n : WSNNode) :
  n ∈ nodes → Sim.initEnergy nodes initialEnergy !! id n = Some initialEnergy.
Proof.
  intros Hn. rewrite initEnergy_lookup, bool_decide_eq_true_2; [done|].
  apply list_elem_of_fmap. eauto.
Qed.

Lemma countAlive_le (nodes : list WSNNode) (E : gmap string Q) :
  (Sim.countAlive nodes E <= length nodes)%nat.
Proof. apply filter_length_le. Qed.

Lemma countAlive_full (nodes : list WSNNode) (E : gmap string Q) :
  Sim.countAlive nodes E = length nodes ↔ ∀ n, n ∈ nodes → gt0 (E !! id n) = true.
Proof.
  unfold Sim.countAlive. induction nodes as [|n nodes IH]; simpl.
  - split; [intros _ m Hm; by apply elem_of_nil in Hm | done].
  - destruct (gt0 (E !! id n)) eqn:Hn; simpl.
    + split.
      * intros Hlen m Hm. apply elem_of_cons in Hm as [->|Hm]; [done|].
        apply IH; [lia | done].
      * intros Hall. f_equal. apply IH. intros m Hm. apply Hall. by right.
    + split.
      * intros Hlen.
        pose proof (filter_length_le (λ node, gt0 (E !! id node)) nodes). lia.
      * intros Hall. specialize (Hall n (list_elem_of_here _ _)). congruence.
Qed.

Lemma countAlive_pos (nodes : list WSNNode) (E : gmap string Q) :
  (0 < Sim.countAlive nodes E)%nat → ∃ n, n ∈ nodes ∧ gt0 (E !! id n) = true.
Proof.
  unfold Sim.countAlive. induction nodes as [|n nodes IH]; simpl; [lia|].
  destruct (gt0 (E !! id n)) eqn:Hn; simpl.
  - intros _. exists n. split; [by left | done].
  - intros Hpos. destruct (IH Hpos) as (m & Hm & Hg). exists m. split; [by right | done].
Qed.

(** ** Sums *)

Lemma sumQ_snoc (l : list Q) (x : Q) : (sumQ (l ++ [x]) == sumQ l + x)%Q.
Proof.
  induction l as [|y l IH]; simpl; [lra|]. rewrite IH. lra.
Qed.

Lemma sumValues_acc (m : gmap string Q) (acc : Q) :
  (Sim.sumValues m acc == acc + Sim.sumValues m 0)%Q.
Proof.
  unfold Sim.sumValues. rewrite !map_fold_foldr.
  induction (map_to_list m) as [|[k v] l IH]; simpl; [lra|].
  rewrite IH. lra.
Qed.

(** ** The round loop *)

Section DriverFacts.
Context {T X : Type}.
Variable executeRound : Z → gmap string Q → X → outcome (T * Sim.Books * X).
Variable nodes : list WSNNode.
Variable configRounds : Z.
Variable initialEnergy : Q.

Abbreviation iteration := (Sim.iteration executeRound nodes).
Abbreviation roundLoop := (Sim.roundLoop executeRound nodes).
Abbreviation logShape := (logShape nodes configRounds).
Abbreviation provenance := (provenance executeRound nodes initialEnergy).

(** What one pass of the loop does to the run state. *)
Lemma iteration_cases (round : Z) (st st' : Sim.RunState T X) :
  iteration round st = Returns st' →
  (Sim.st_networkDied st = true ∧ st' = st) ∨
  (Sim.st_networkDied st = false ∧
   ∃ topo b x,
     executeRound round (Sim.st_nodeEnergy st) (Sim.st_aux st) = Returns (topo, b, x) ∧
     let alive := Sim.countAlive nodes (Sim.nodeEnergy b) in
     Sim.st_nodeEnergy st' = Sim.nodeEnergy b ∧
     Sim.st_rounds st' = Sim.st_rounds st ++
       [ {| Sim.roundNumber := round;
            Sim.topology := topo;
            Sim.roundEnergyUsage := Sim.energyUsage b;
            Sim.nodesAlive := alive;
            Sim.dataTransmitted := Sim.roundDataTransmitted b |} ] ∧
     Sim.st_totalEnergyConsumption st' =
       Sim.sumValues (Sim.energyUsage b) (Sim.st_totalEnergyConsumption st) ∧
     Sim.st_dataDelivered st' =
       (Sim.st_dataDelivered st + Sim.roundDataTransmitted b)%Q ∧
     Sim.st_networkDied st' = (alive <? length nodes)%nat ∧
     Sim.st_networkLifetime st' =
       (if (alive <? length nodes)%nat then round else Sim.st_networkLifetime st) ∧
     Sim.st_aux st' = x).
Proof.
  unfold Sim.iteration. destruct (Sim.st_networkDied st) eqn:Hd.
  - intros [= <-]. by left.
  - destruct (executeRound round (Sim.st_nodeEnergy st) (Sim.st_aux st))
      as [[[topo b] x]|e] eqn:Hexec; simpl; [|done].
    intros [= <-]. right. split; [done|]. exists topo, b, x. simpl.
    rewrite andb_true_r.
    destruct (Sim.countAlive nodes (Sim.nodeEnergy b) <? length nodes)%nat; done.
Qed.

Lemma roundLoop_invariant (P : Z → Sim.RunState T X → Prop) :
  (∀ round st st', P round st → iteration round st = Returns st' →
                   P (round + 1)%Z st') →
  ∀ n round st st',
    P round st → roundLoop n round st = Returns st' →
    P (round + Z.of_nat n)%Z st'.
Proof.
  intros Hstep. induction n as [|n IH]; intros round st st' HP Hrun.
  - simpl in Hrun. injection Hrun as <-. by rewrite Z.add_0_r.
  - simpl in Hrun. apply bind_Returns in Hrun as (st1 & H1 & H2).
    replace (round + Z.of_nat (S n))%Z with (round + 1 + Z.of_nat n)%Z by lia.
    eapply IH; [|exact H2]. eapply Hstep; eauto.
Qed.

Lemma logShape_step (round : Z) (st st' : Sim.RunState T X) :
  logShape round st → iteration round st = Returns st' →
  logShape (round + 1)%Z st'.
Proof.
  intros [Hnum Hsh] Hit.
  apply iteration_cases in Hit
    as [[Hd ->]|(Hd & topo & b & x & _ & _ & Hr & _ & _ & Hd' & Hl' & _)].
  - split; [done|]. rewrite Hd in *.
    destruct Hsh as (front & last & ? & ? & ? & ? & ?).
    exists front, last. repeat split; try done. lia.
  - rewrite Hd in Hsh. destruct Hsh as (Hfull & Hlife & Hlen).
    split.
    + rewrite Hr, map_app, length_app, Hnum. simpl.
      replace (Z.of_nat (length (Sim.st_rounds st) + 1))
        with (Z.of_nat (S (length (Sim.st_rounds st)))) by lia.
      rewrite seqZ_S. do 2 f_equal. lia.
    + rewrite Hd', Hl', Hr.
      destruct (Sim.countAlive nodes (Sim.nodeEnergy b) <? length nodes)%nat eqn:Hlt.
      * apply Nat.ltb_lt in Hlt. eexists _, _. split; [reflexivity|].
        rewrite length_app. simpl. repeat split; try done; lia.
      * apply Nat.ltb_ge in Hlt.
        pose proof (countAlive_le nodes (Sim.nodeEnergy b)).
        rewrite length_app. simpl. repeat split; try done; try lia.
        apply Forall_app. split; [done|]. constructor; [|done].
        unfold fullAlive. simpl. lia.
Qed.

Lemma logShape_run (x0 : X) (st : Sim.RunState T X) :
  Sim.run executeRound nodes configRounds initialEnergy x0 = Returns st →
  logShape (1 + Z.of_nat (Z.to_nat configRounds))%Z st.
Proof.
  unfold Sim.run. apply (roundLoop_invariant logShape).
  - apply logShape_step.
  - split; simpl; [done|]. split; [constructor | done].
Qed.

Lemma sumsAgree_step (round : Z) (st st' : Sim.RunState T X) :
  sumsAgree st → iteration round st = Returns st' → sumsAgree st'.
Proof.
  intros [He Hdt] Hit.
  apply iteration_cases in Hit
    as [[Hd ->]|(Hd & topo & b & x & _ & _ & Hr & Hte & Hdd & _)]; [done|].
  split.
  - rewrite Hte, Hr, map_app. simpl.
    pose proof (sumQ_snoc (map roundEnergy (Sim.st_rounds st))
                  (Sim.sumValues (Sim.energyUsage b) 0)) as Hs.
    pose proof (sumValues_acc (Sim.energyUsage b)
                  (Sim.st_totalEnergyConsumption st)) as Ha.
    unfold roundEnergy at 2. simpl. lra.
  - rewrite Hdd, Hr, map_app. simpl.
    pose proof (sumQ_snoc (map Sim.dataTransmitted (Sim.st_rounds st))
                  (Sim.roundDataTransmitted b)) as Hs.
    lra.
Qed.

Lemma sumsAgree_run (x0 : X) (st : Sim.RunState T X) :
  Sim.run executeRound nodes configRounds initialEnergy x0 = Returns st →
  sumsAgree st.
Proof.
  unfold Sim.run. intros Hrun.
  apply (roundLoop_invariant (λ _, sumsAgree)) in Hrun; [done| |].
  - intros round s s'. apply sumsAgree_step.
  - split; simpl; reflexivity.
Qed.

Lemma provenance_step (round : Z) (st st' : Sim.RunState T X) :
  provenance st → iteration round st = Returns st' → provenance st'.
Proof.
  intros [Hrec Hstart] Hit.
  apply iteration_cases in Hit
    as [[Hd ->]|(Hd & topo & b & x & Hexec & HE & Hr & _ & _ & Hd' & _)]; [done|].
  split.
  - rewrite Hr. apply Forall_app. split; [done|]. constructor; [|done].
    exists (Sim.st_nodeEnergy st), (Sim.st_aux st), b, x. simpl. auto.
  - rewrite Hd', HE. intros Hlt. apply Nat.ltb_ge in Hlt. right.
    pose proof (countAlive_le nodes (Sim.nodeEnergy b)). lia.
Qed.

Lemma provenance_run (x0 : X) (st : Sim.RunState T X) :
  Sim.run executeRound nodes configRounds initialEnergy x0 = Returns st →
  provenance st.
Proof.
  unfold Sim.run. intros Hrun.
  apply (roundLoop_invariant (λ _, provenance)) in Hrun; [done| |].
  - intros round s s'. apply provenance_step.
  - split; simpl; [constructor|]. intros _. left. intros n Hn.
    by apply initEnergy_node.
Qed.

(** A round body that never raises an energy gives a loop that never
    raises one. *)
Lemma ledger_le_loop :
  (∀ round E x topo b x',
     executeRound round E x = Returns (topo, b, x') →
     ledger_le (Sim.nodeEnergy b) E) →
  ∀ n round st st',
    roundLoop n round st = Returns st' →
    ledger_le (Sim.st_nodeEnergy st') (Sim.st_nodeEnergy st).
Proof.
  intros Hbody n round st st' Hrun.
  apply (roundLoop_invariant
           (λ _ s, ledger_le (Sim.st_nodeEnergy s) (Sim.st_nodeEnergy st)))
    in Hrun; [done| |apply ledger_le_refl].
  intros r s s' Hs Hit.
  apply iteration_cases in Hit
    as [[Hd ->]|(Hd & topo & b & x & Hexec & HE & _)]; [done|].
  rewrite HE. eapply ledger_le_trans; [|exact Hs]. eapply Hbody, Hexec.
Qed.

Lemma roundLoop_split (j k : nat) (round : Z) (st : Sim.RunState T X) :
  roundLoop (j + k) round st =
  roundLoop j round st ≫= roundLoop k (round + Z.of_nat j)%Z.
Proof.
  revert round st. induction j as [|j IH]; intros round st.
  - simpl. by rewrite Z.add_0_r.
  - cbn [Nat.add Sim.roundLoop].
    destruct (iteration round st) as [st1|e]; simpl; [|done].
    rewrite IH. do 2 f_equal. lia.
Qed.
End DriverFacts.

(** ** The result of a run *)

Lemma whenReturns_intro {A : Type} (P : A → Prop) (o : outcome A) :
  (∀ a, o = Returns a → P a) → whenReturns P o.
Proof. destruct o as [a|e]; simpl; [auto | done]. Qed.

Lemma whenReturns_elim {A : Type} (P : A → Prop) (o : outcome A) (a : A) :
  whenReturns P o → o = Returns a → P a.
Proof. by intros HP ->. Qed.

Lemma numbered_snoc {T : Type} (front : list (Sim.Round T)) (last : Sim.Round T) :
  map Sim.roundNumber (front ++ [last]) =
    seqZ 1 (Z.of_nat (length (front ++ [last]))) →
  Sim.roundNumber last = Z.of_nat (length (front ++ [last])) ∧
  Forall (λ r, (Sim.roundNumber r < Z.of_nat (length (front ++ [last])))%Z) front.
Proof.
  rewrite map_app, length_app. simpl.
  replace (length front + 1)%nat with (S (length front)) by lia.
  rewrite seqZ_S. intros Heq. apply app_inj_tail in Heq as [Hfront Hlast].
  split; [lia|].
  apply Forall_forall. intros r Hr.
  assert (Sim.roundNumber r ∈ seqZ 1 (Z.of_nat (length front))) as Hin.
  { rewrite <- Hfront. apply list_elem_of_fmap. eauto. }
  apply elem_of_seqZ in Hin. lia.
Qed.

Section ResultFacts.
Context {T X : Type}.
Variable executeRound : Z → gmap string Q → X → outcome (T * Sim.Books * X).
Variable nodes : list WSNNode.
Variable configRounds : Z.
Variable initialEnergy : Q.

Abbreviation run := (Sim.run executeRound nodes configRounds initialEnergy).
Abbreviation simulate := (Sim.simulate executeRound nodes configRounds initialEnergy).

Lemma simulate_Returns (x0 : X) (res : Sim.SimulationResult T) :
  simulate x0 = Returns res ↔ ∃ st, run x0 = Returns st ∧ res = Sim.finish nodes st.
Proof.
  unfold Sim.simulate. rewrite bind_Returns. split.
  - intros (st & Hrun & [= <-]). eauto.
  - intros (st & Hrun & ->). eauto.
Qed.

Lemma run_logStops (x0 : X) (st : Sim.RunState T X) :
  run x0 = Returns st → logStopsAtFirstDeath nodes configRounds (Sim.finish nodes st).
Proof.
  intros Hrun. apply logShape_run in Hrun as [Hnum Hsh].
  unfold logStopsAtFirstDeath. simpl. split; [done|].
  destruct (Sim.st_networkDied st).
  - destruct Hsh as (front & last & Hlog & Hfull & Hdead & _ & Hlt).
    split; [lia|]. split.
    + intros f r bk Heq Hbk. rewrite Hlog in Heq.
      destruct (exists_last Hbk) as (bk' & l' & ->).
      change (f ++ r :: bk' ++ [l']) with (f ++ (r :: bk') ++ [l']) in Heq.
      rewrite app_assoc in Heq. apply app_inj_tail in Heq as [-> _].
      apply Forall_app in Hfull as [_ Hfull]. by inversion Hfull.
    + rewrite Hlog. intros Hall. apply Forall_app in Hall as [_ Hall].
      inversion Hall as [|? ? Hl _]. unfold fullAlive in Hl. lia.
  - destruct Hsh as (Hfull & _ & Hlen). split; [lia|]. split.
    + intros f r bk Heq _. rewrite Heq in Hfull.
      apply Forall_app in Hfull as [_ Hfull]. by inversion Hfull.
    + intros _. lia.
Qed.

Lemma run_lifetimeSpec (x0 : X) (st : Sim.RunState T X) :
  run x0 = Returns st → lifetimeSpec nodes configRounds (Sim.finish nodes st).
Proof.
  intros Hrun. apply logShape_run in Hrun as [Hnum Hsh].
  unfold lifetimeSpec. simpl.
  destruct (Sim.st_networkDied st).
  - destruct Hsh as (front & last & Hlog & Hfull & Hdead & Hlife & Hlt).
    rewrite Hlog in Hnum. apply numbered_snoc in Hnum as [Hlast Hfront].
    rewrite <- Hlog in Hlast, Hfront.
    assert (1 ≤ length (Sim.st_rounds st))%nat as Hpos
      by (rewrite Hlog, length_app; simpl; lia).
    assert (Sim.st_networkLifetime st ≤ configRounds)%Z as Hle by lia.
    split; [done|]. split; [|split].
    + rewrite Hlog. intros Hall. apply Forall_app in Hall as [_ Hall].
      inversion Hall as [|? ? Hl _]. unfold fullAlive in Hl. lia.
    + intros r Hr Hrdead. rewrite Hlog in Hr.
      apply elem_of_app in Hr as [Hr|Hr].
      * rewrite Forall_forall in Hfull. specialize (Hfull r Hr).
        unfold fullAlive in Hfull. lia.
      * apply list_elem_of_singleton in Hr as ->. lia.
    + split.
      * intros Heq. rewrite Hlog. apply Forall_app. split.
        -- eapply Forall_impl; [exact Hfull|]. auto.
        -- constructor; [|done]. intros Hc. lia.
      * rewrite Hlog. intros Hall. apply Forall_app in Hall as [_ Hall].
        inversion Hall as [|? ? Hl _].
        destruct (decide (Sim.roundNumber last < configRounds)%Z) as [Hc|Hc].
        -- specialize (Hl Hc). unfold fullAlive in Hl. lia.
        -- lia.
  - destruct Hsh as (Hfull & Hlife & Hlen).
    split; [lia|]. split; [done|]. split.
    + intros r Hr Hrdead. rewrite Forall_forall in Hfull.
      specialize (Hfull r Hr). unfold fullAlive in Hfull. lia.
    + split; [|done]. intros _. eapply Forall_impl; [exact Hfull|]. auto.
Qed.

Lemma run_energy_reconciles (x0 : X) (st : Sim.RunState T X) :
  run x0 = Returns st →
  (Sim.energyConsumption (Sim.metrics (Sim.finish nodes st)) ==
   sumQ (map roundEnergy (Sim.rounds (Sim.finish nodes st))))%Q.
Proof. intros Hrun. by apply sumsAgree_run in Hrun as [He _]. Qed.

Lemma run_recorded (x0 : X) (st : Sim.RunState T X) :
  run x0 = Returns st →
  Forall (recordedFrom executeRound nodes initialEnergy)
    (Sim.rounds (Sim.finish nodes st)).
Proof. intros Hrun. by apply provenance_run in Hrun as [Hrec _]. Qed.
End ResultFacts.

(** ** The round log and the metrics of the two simulators *)

Section Simulators.
Context `{MathHost}.
Variable random : nat → Q.

(** Every property of the results of the shared loop is one of the
    results of [simulateLEACH]. *)
Lemma simulateLEACH_run (nodes : list WSNNode) (config : LEACH.LEACHConfig)
    (P : Sim.SimulationResult LEACH.Topology → Prop) :
  (∀ st,
     Sim.run (LEACH.executeRound random nodes config) nodes
       (LEACH.rounds config) (LEACH.initialEnergy config) 0%nat = Returns st →
     P (Sim.finish nodes st)) →
  whenReturns P (LEACH.simulateLEACH random nodes config).
Proof.
  intros HP. apply whenReturns_intro. intros res Hres.
  apply simulate_Returns in Hres as (st & Hrun & ->). auto.
Qed.

(** The same for [simulatePEGASIS], whose loop runs on the chain built
    before it. *)
Lemma simulatePEGASIS_run (nodes : list WSNNode) (config : PEGASIS.PEGASISConfig)
    (P : Sim.SimulationResult PEGASIS.Topology → Prop) :
  (∀ chain st,
     PEGASIS.constructGreedyChain
       (List.filter (λ node, negb (isBase node)) nodes) = Returns chain →
     Sim.run (PEGASIS.executeRound nodes config (findBase nodes) chain) nodes
       (PEGASIS.rounds config) (PEGASIS.initialEnergy config) tt = Returns st →
     P (Sim.finish nodes st)) →
  whenReturns P (PEGASIS.simulatePEGASIS nodes config).
Proof.
  intros HP. apply whenReturns_intro. intros res Hres.
  unfold PEGASIS.simulatePEGASIS in Hres.
  apply bind_Returns in Hres as (chain & Hchain & Hres).
  apply simulate_Returns in Hres as (st & Hrun & ->). eauto.
Qed.
End Simulators.

(** C2 (as amended).  For either simulator [networkLifetime] is at most
    [roundCount]; it is [roundCount] when no recorded round lost a node; it
    is the number of the round that ends with a dead node when there is
    one; and it equals [roundCount] exactly when no round numbered below
    [roundCount] lost a node (a first death in the last round also gives
    [roundCount]). *)
Theorem network_lifetime_spec `{MathHost} (random : nat → Q)
    (nodes : list WSNNode) (lconfig : LEACH.LEACHConfig)
    (pconfig : PEGASIS.PEGASISConfig) :
  whenReturns (lifetimeSpec nodes (LEACH.rounds lconfig))
    (LEACH.simulateLEACH random nodes lconfig) ∧
  whenReturns (lifetimeSpec nodes (PEGASIS.rounds pconfig))
    (PEGASIS.simulatePEGASIS nodes pconfig).
Proof.
  split.
  - apply simulateLEACH_run. intros st. apply run_lifetimeSpec.
  - apply simulatePEGASIS_run. intros chain st _. apply run_lifetimeSpec.
Qed.

(** C2, refuted as stated: the default PEGASIS configuration stopped after
    8 rounds returns [networkLifetime = 8 = roundCount] although round 8
    ends with only 2 of the 3 nodes alive. *)
Lemma lifetime_equals_roundCount_after_a_death :
  ∃ res r,
    PEGASIS.simulatePEGASIS (H := Sample.host) Sample.net3 Sample.pegasis8
      = Returns res ∧
    Sim.networkLifetime (Sim.metrics res) = PEGASIS.rounds Sample.pegasis8 ∧
    r ∈ Sim.rounds res ∧
    Sim.nodesAlive r = 2%nat ∧ length Sample.net3 = 3%nat.
Proof.
  eexists _, _. split; [vm_compute; reflexivity|].
  split; [reflexivity|]. split.
  - do 7 apply list_elem_of_further. apply list_elem_of_here.
  - split; reflexivity.
Qed.

(** With exact additions, as in the rational embedding, the total-energy
    metric of either simulator is the sum, over the rounds of the returned
    log, of the sum of the round's [energyUsage] values.  The rounded
    additions of the code do not keep this equality; see the last
    section. *)
Lemma exact_energy_sums_reconcile `{MathHost} (random : nat → Q)
    (nodes : list WSNNode) (lconfig : LEACH.LEACHConfig)
    (pconfig : PEGASIS.PEGASISConfig) :
  whenReturns
    (λ res, (Sim.energyConsumption (Sim.metrics res) ==
             sumQ (map roundEnergy (Sim.rounds res)))%Q)
    (LEACH.simulateLEACH random nodes lconfig) ∧
  whenReturns
    (λ res, (Sim.energyConsumption (Sim.metrics res) ==
             sumQ (map roundEnergy (Sim.rounds res)))%Q)
    (PEGASIS.simulatePEGASIS nodes pconfig).
Proof.
  split.
  - apply simulateLEACH_run. intros st. apply run_energy_reconciles.
  - apply simulatePEGASIS_run. intros chain st _. apply run_energy_reconciles.
Qed.

(** ** The PEGASIS chain *)

Section Chain.
Context `{MathHost}.

Lemma scanNearest_bound (currentNode : WSNNode) (rest : list WSNNode)
    (i nearestIndex : nat) (minDistance : Q) :
  (nearestIndex < i)%nat →
  (PEGASIS.scanNearest currentNode rest i nearestIndex minDistance
     < i + length rest)%nat.
Proof.
  revert i nearestIndex minDistance.
  induction rest as [|n rest IH]; intros i idx d Hlt; simpl; [lia|].
  destruct (Qltb _ d).
  - specialize (IH (S i) i (calculateDistance (position currentNode) (position n))).
    lia.
  - specialize (IH (S i) idx d). lia.
Qed.

(** The loop returns, and appends a rearrangement of the ids of
    [nodesCopy]. *)
Lemma greedyLoop_spec (fuel : nat) (currentNode : WSNNode)
    (nodesCopy : list WSNNode) (chain : list string) :
  (length nodesCopy ≤ fuel)%nat →
  ∃ added,
    PEGASIS.greedyLoop fuel currentNode nodesCopy chain = Returns (chain ++ added) ∧
    added ≡ₚ map id nodesCopy.
Proof.
  revert currentNode nodesCopy chain.
  induction fuel as [|fuel IH]; intros cur nodesCopy chain Hfuel.
  - destruct nodesCopy; [|simpl in Hfuel; lia].
    exists []. simpl. by rewrite app_nil_r.
  - destruct nodesCopy as [|n0 rest].
    { exists []. simpl. by rewrite app_nil_r. }
    cbn [PEGASIS.greedyLoop].
    set (idx := PEGASIS.scanNearest cur rest 1 0 _).
    assert (idx < length (n0 :: rest))%nat as Hidx.
    { pose proof (scanNearest_bound cur rest 1 0
                    (calculateDistance (position cur) (position n0))) as Hb.
      fold idx in Hb. simpl. lia. }
    destruct (lookup_lt_is_Some_2 _ _ Hidx) as [next Hnext].
    rewrite Hnext. simpl.
    destruct (IH next (delete idx (n0 :: rest)) (chain ++ [id next])) as (added & Hrun & Hperm).
    { rewrite length_delete; [|by eexists]. simpl in *. lia. }
    exists (id next :: added). split.
    + rewrite Hrun. f_equal. by rewrite <- app_assoc.
    + rewrite Hperm. change (id next :: map id (delete idx (n0 :: rest)))
        with (map id (next :: delete idx (n0 :: rest))).
      change (id n0 :: map id rest) with (map id (n0 :: rest)).
      apply Permutation_map. symmetry. by apply delete_Permutation.
Qed.

(** The chain is always built, and is a rearrangement of the ids of the
    nodes it is built from: each node contributes exactly one entry. *)
Lemma constructGreedyChain_spec (nodes : list WSNNode) :
  ∃ chain,
    PEGASIS.constructGreedyChain nodes = Returns chain ∧
    chain ≡ₚ map id nodes.
Proof.
  destruct nodes as [|n [|n' rest]].
  - by exists [].
  - by exists [id n].
  - unfold PEGASIS.constructGreedyChain.
    destruct (greedyLoop_spec (length (n' :: rest)) n (n' :: rest) [id n])
      as (added & Hrun & Hperm); [done|].
    exists ([id n] ++ added). split; [done|].
    simpl. by constructor.
Qed.

(** The chain starts with the first node of the input. *)
Lemma constructGreedyChain_head (n : WSNNode) (nodes : list WSNNode)
    (chain : list string) :
  PEGASIS.constructGreedyChain (n :: nodes) = Returns chain →
  chain !! 0%nat = Some (id n).
Proof.
  destruct nodes as [|n' rest].
  - by intros [= <-].
  - unfold PEGASIS.constructGreedyChain.
    destruct (greedyLoop_spec (length (n' :: rest)) n (n' :: rest) [id n])
      as (added & Hrun & _); [done|].
    rewrite Hrun. by intros [= <-].
Qed.

Lemma executeRound_chain (nodes : list WSNNode) (config : PEGASIS.PEGASISConfig)
    (baseStation : option WSNNode) (chain : list string) (round : Z)
    (E : gmap string Q) (x x' : unit) (t : PEGASIS.Topology) (b : Sim.Books) :
  PEGASIS.executeRound nodes config baseStation chain round E x = Returns (t, b, x') →
  PEGASIS.chain t = chain ∧
  PEGASIS.leader t = PEGASIS.selectLeader config chain round E.
Proof.
  unfold PEGASIS.executeRound. intros Hex.
  apply bind_Returns in Hex as (b1 & _ & Hex).
  apply bind_Returns in Hex as (b2 & _ & Hex).
  apply bind_Returns in Hex as (b3 & _ & Hex).
  by injection Hex as <- _ _.
Qed.
End Chain.

(** C6.  The chain of [simulatePEGASIS] is built once, before the rounds,
    from the non-base nodes; it is a rearrangement of their ids, so every
    such node has exactly one entry in it; and the chain recorded in every
    round of the result is that chain. *)
Theorem pegasis_chain_covers_sensors_once `{MathHost} (nodes : list WSNNode)
    (config : PEGASIS.PEGASISConfig) :
  let sensorNodes := List.filter (λ node, negb (isBase node)) nodes in
  ∃ chain,
    PEGASIS.constructGreedyChain sensorNodes = Returns chain ∧
    chain ≡ₚ map id sensorNodes ∧
    whenReturns
      (λ res, Forall (λ r, PEGASIS.chain (Sim.topology r) = chain) (Sim.rounds res))
      (PEGASIS.simulatePEGASIS nodes config).
Proof.
  intros sensorNodes.
  destruct (constructGreedyChain_spec sensorNodes) as (chain & Hchain & Hperm).
  exists chain. split; [done|]. split; [done|].
  apply simulatePEGASIS_run. intros chain' st Hchain' Hrun.
  fold sensorNodes in Hchain'. rewrite Hchain in Hchain'. injection Hchain' as <-.
  apply run_recorded in Hrun. eapply Forall_impl; [exact Hrun|].
  intros r (E & x & b & x' & _ & Hex & _). simpl in Hex.
  by apply executeRound_chain in Hex as [Hc _].
Qed.

(** ** The PEGASIS relay phase *)

(** C7.  One transmission of the relay phase, from a node [senderId] to a
    different node [receiverId], both in the node list.  With a dead sender
    (energy at or below zero) the books are left as they are: no cost on
    either side, no data.  With a live sender and a dead receiver the
    sender is charged the distance-scaled transmit cost (its energy goes
    down by it, its usage up by it) and nothing else changes: the receiver
    pays nothing and no data is counted.  Both relay loops are made of
    such transmissions, towards the leader. *)
Theorem pegasis_hop_dead_endpoint `{MathHost} (nodes : list WSNNode)
    (config : PEGASIS.PEGASISConfig) (chain : list string)
    (senderId receiverId : string) (sender receiver : WSNNode) (b : Sim.Books)
    (Hsender : findById nodes (Some senderId) = Some sender)
    (Hreceiver : findById nodes (Some receiverId) = Some receiver)
    (Hdistinct : senderId ≠ receiverId) :
  let hop := PEGASIS.hop nodes config in
  let transmitCost :=
    (PEGASIS.transmitEnergy config * PEGASIS.dataSize config *
     (1 + 0.1 * calculateDistance (position sender) (position receiver)))%Q in
  (le0 (Sim.nodeEnergy b !! senderId) = true →
   hop (Some senderId) (Some receiverId) b = Returns b) ∧
  (le0 (Sim.nodeEnergy b !! senderId) = false →
   le0 (Sim.nodeEnergy b !! receiverId) = true →
   ∃ b',
     hop (Some senderId) (Some receiverId) b = Returns b' ∧
     Sim.nodeEnergy b' !! senderId =
       (λ e, (e - transmitCost)%Q) <$> Sim.nodeEnergy b !! senderId ∧
     Sim.energyUsage b' !! senderId =
       Some (orZero (Sim.energyUsage b !! senderId) + transmitCost)%Q ∧
     (∀ k, k ≠ senderId →
           Sim.nodeEnergy b' !! k = Sim.nodeEnergy b !! k ∧
           Sim.energyUsage b' !! k = Sim.energyUsage b !! k) ∧
     Sim.roundDataTransmitted b' = Sim.roundDataTransmitted b) ∧
  (∀ leaderIndex,
     PEGASIS.relayLeft nodes config chain leaderIndex b =
       forOf (λ i, hop (arrayGet chain i) (arrayGet chain (i + 1)))
         (seqZ 0 leaderIndex) b ∧
     PEGASIS.relayRight nodes config chain leaderIndex b =
       forOf (λ i, hop (arrayGet chain i) (arrayGet chain (i - 1)))
         (reverse (seqZ (leaderIndex + 1)
                     (Z.of_nat (length chain) - 1 - leaderIndex))) b).
Proof.
  intros hop transmitCost. split; [|split].
  - intros Hdead. unfold hop, PEGASIS.hop. simpl. by rewrite Hdead.
  - intros Halive Hdead. unfold hop, PEGASIS.hop.
    cbn [propKey]. rewrite Halive, Hsender, Hreceiver. simpl.
    fold transmitCost.
    rewrite lookup_alter_ne by done. rewrite Hdead.
    eexists. split; [reflexivity|]. simpl.
    rewrite lookup_alter_eq, lookup_insert_eq.
    split; [done|]. split; [done|]. split; [|done].
    intros k Hk. by rewrite lookup_alter_ne, lookup_insert_ne by done.
  - done.
Qed.

(** C7 at a concrete transmission: [s1], alive, sends to [s2], dead; and
    [s2], dead, is asked to send to [s1]. *)
Lemma pegasis_hop_dead_endpoint_witness :
  let b := {| Sim.energyUsage := ∅;
              Sim.nodeEnergy := <["s1" := 1%Q]> (<["s2" := 0%Q]> ∅);
              Sim.roundDataTransmitted := 0 |} in
  let hop := PEGASIS.hop (H := Sample.host) Sample.net3
               PEGASIS.DEFAULT_PEGASIS_CONFIG in
  hop (Some "s2") (Some "s1") b = Returns b ∧
  ∃ b', hop (Some "s1") (Some "s2") b = Returns b' ∧
        Sim.nodeEnergy b' !! "s2" = Some 0%Q ∧
        Sim.energyUsage b' !! "s2" = None ∧
        Sim.roundDataTransmitted b' = 0%Q.
Proof.
  intros b hop. split.
  - apply (pegasis_hop_dead_endpoint (H := Sample.host) Sample.net3
             PEGASIS.DEFAULT_PEGASIS_CONFIG [] "s2" "s1" Sample.S2 Sample.S1 b
             eq_refl eq_refl); [done | reflexivity].
  - destruct (pegasis_hop_dead_endpoint (H := Sample.host) Sample.net3
                PEGASIS.DEFAULT_PEGASIS_CONFIG [] "s1" "s2" Sample.S1 Sample.S2 b
                eq_refl eq_refl) as (_ & Hcase & _); [done|].
    destruct (Hcase eq_refl eq_refl) as (b' & Hb' & _ & _ & Hother & Hdata).
    exists b'. split; [exact Hb'|].
    destruct (Hother "s2") as [HE HU]; [done|].
    rewrite HE, HU, Hdata. repeat split.
Defined.

(** ** Energy is only ever spent *)

Section Costs.
Context `{MathHostSpec}.

Lemma calculateDistance_nonneg (pos1 pos2 : Position) :
  (0 <= calculateDistance pos1 pos2)%Q.
Proof. unfold calculateDistance. apply Math_sqrt_nonneg. Qed.

Lemma scaled_cost_nonneg (e size c : Q) (pos1 pos2 : Position) :
  (0 <= e)%Q → (0 <= size)%Q → (0 <= c)%Q →
  (0 <= e * size * (1 + c * calculateDistance pos1 pos2))%Q.
Proof.
  intros He Hs Hc. pose proof (calculateDistance_nonneg pos1 pos2) as Hd.
  repeat apply Qmult_le_0_compat; try done.
  pose proof (Qmult_le_0_compat _ _ Hc Hd). lra.
Qed.

Lemma ledger_le_spend_trans (E : gmap string Q) (k : string) (cost : Q)
    (b : Sim.Books) :
  (0 <= cost)%Q → ledger_le (Sim.nodeEnergy b) E →
  ledger_le (Sim.nodeEnergy (Sim.spend k cost b)) E.
Proof.
  intros Hc Hb. eapply ledger_le_trans; [|exact Hb]. by apply ledger_le_spend.
Qed.

Section Pegasis.
Variable nodes : list WSNNode.
Variable config : PEGASIS.PEGASISConfig.
Hypothesis Htransmit : (0 <= PEGASIS.transmitEnergy config)%Q.
Hypothesis Hreceive : (0 <= PEGASIS.receiveEnergy config)%Q.
Hypothesis Hsize : (0 <= PEGASIS.dataSize config)%Q.

Lemma pegasis_hop_le (E : gmap string Q) (senderId receiverId : option string)
    (b b' : Sim.Books) :
  ledger_le (Sim.nodeEnergy b) E →
  PEGASIS.hop nodes config senderId receiverId b = Returns b' →
  ledger_le (Sim.nodeEnergy b') E.
Proof.
  intros Hb. unfold PEGASIS.hop.
  destruct (le0 (Sim.nodeEnergy b !! propKey senderId)); [by intros [= <-]|].
  destruct (findById nodes senderId) as [sender|]; simpl; [|done].
  destruct (findById nodes receiverId) as [receiver|]; simpl; [|done].
  match goal with |- context [Sim.spend ?k ?c b] =>
    assert (ledger_le (Sim.nodeEnergy (Sim.spend k c b)) E) as Hb1
  end.
  { apply ledger_le_spend_trans; [|done]. apply scaled_cost_nonneg; lra. }
  match goal with |- (if ?c then _ else _) = _ → _ => destruct c end.
  - by intros [= <-].
  - intros [= <-]. cbn [Sim.deliver Sim.nodeEnergy].
    apply ledger_le_spend_trans; [|done]. by apply Qmult_le_0_compat.
Qed.

Lemma pegasis_executeRound_le (baseStation : option WSNNode)
    (chain : list string) (round : Z) (E : gmap string Q) (x x' : unit)
    (t : PEGASIS.Topology) (b : Sim.Books) :
  PEGASIS.executeRound nodes config baseStation chain round E x
    = Returns (t, b, x') →
  ledger_le (Sim.nodeEnergy b) E.
Proof.
  unfold PEGASIS.executeRound. intros Hex.
  apply bind_Returns in Hex as (b1 & H1 & Hex).
  apply bind_Returns in Hex as (b2 & H2 & Hex).
  apply bind_Returns in Hex as (b3 & H3 & Hex).
  injection Hex as _ <- _.
  assert (ledger_le (Sim.nodeEnergy b1) E) as Hb1.
  { eapply (forOf_invariant (λ s, ledger_le (Sim.nodeEnergy s) E)); [| |exact H1].
    - intros i s s' _ Hs. by apply pegasis_hop_le.
    - apply ledger_le_refl. }
  assert (ledger_le (Sim.nodeEnergy b2) E) as Hb2.
  { eapply (forOf_invariant (λ s, ledger_le (Sim.nodeEnergy s) E)); [| |exact H2].
    - intros i s s' _ Hs. by apply pegasis_hop_le.
    - done. }
  unfold PEGASIS.leaderToBase in H3.
  destruct baseStation as [bs|]; [|by injection H3 as <-].
  destruct (gt0 _); [|by injection H3 as <-].
  destruct (findById nodes _) as [leaderNode|]; simpl in H3; [|done].
  injection H3 as H3. subst b3. cbn [Sim.deliver Sim.nodeEnergy].
  apply ledger_le_spend_trans; [|done].
  apply scaled_cost_nonneg; lra.
Qed.
End Pegasis.

Section Leach.
Variable random : nat → Q.
Variable nodes : list WSNNode.
Variable config : LEACH.LEACHConfig.
Hypothesis Htransmit : (0 <= LEACH.transmitEnergy config)%Q.
Hypothesis Hreceive : (0 <= LEACH.receiveEnergy config)%Q.
Hypothesis Hsize : (0 <= LEACH.dataSize config)%Q.

Lemma leach_memberSend_le (E : gmap string Q) (headId memberId : string)
    (b b' : Sim.Books) :
  ledger_le (Sim.nodeEnergy b) E →
  LEACH.memberSend nodes config headId memberId b = Returns b' →
  ledger_le (Sim.nodeEnergy b') E.
Proof.
  intros Hb. unfold LEACH.memberSend.
  destruct (findById nodes (Some memberId)) as [member|]; simpl; [|done].
  destruct (List.find _ nodes) as [head|]; simpl; [|done].
  intros [= <-]. cbn [Sim.deliver Sim.nodeEnergy].
  apply ledger_le_spend_trans; [by apply Qmult_le_0_compat|].
  apply ledger_le_spend_trans; [|done]. apply scaled_cost_nonneg; lra.
Qed.

Lemma leach_clusterSend_le (E : gmap string Q)
    (members : gmap string (list string)) (headId : string) (b b' : Sim.Books) :
  ledger_le (Sim.nodeEnergy b) E →
  LEACH.clusterSend nodes config members headId b = Returns b' →
  ledger_le (Sim.nodeEnergy b') E.
Proof.
  intros Hb. unfold LEACH.clusterSend.
  destruct (members !! headId) as [memberIds|]; simpl; [|done].
  apply (forOf_invariant (λ s, ledger_le (Sim.nodeEnergy s) E)); [|done].
  intros m s s' _ Hs. by apply leach_memberSend_le.
Qed.

Lemma leach_headToBase_le (E : gmap string Q)
    (members : gmap string (list string)) (baseStation : option WSNNode)
    (headId : string) (b b' : Sim.Books) :
  ledger_le (Sim.nodeEnergy b) E →
  LEACH.headToBase nodes config members baseStation headId b = Returns b' →
  ledger_le (Sim.nodeEnergy b') E.
Proof.
  intros Hb. unfold LEACH.headToBase.
  destruct (findById nodes (Some headId)) as [head|]; simpl; [|done].
  destruct baseStation as [bs|]; simpl; [|done].
  destruct (members !! headId) as [memberIds|]; simpl; [|done].
  intros [= <-]. cbn [Sim.deliver Sim.nodeEnergy].
  apply ledger_le_spend_trans; [|done].
  apply scaled_cost_nonneg; try lra.
  apply Qmult_le_0_compat; [done|].
  assert (0 <= inject_Z (Z.of_nat (length memberIds)))%Q as Hn.
  { change 0%Q with (inject_Z 0). rewrite <- Zle_Qle. lia. }
  lra.
Qed.

Lemma leach_executeRound_le (round : Z) (E : gmap string Q) (calls calls' : nat)
    (t : LEACH.Topology) (b : Sim.Books) :
  LEACH.executeRound random nodes config round E calls = Returns (t, b, calls') →
  ledger_le (Sim.nodeEnergy b) E.
Proof.
  unfold LEACH.executeRound. intros Hex.
  apply bind_Returns in Hex as ([t1 c1] & _ & Hex).
  apply bind_Returns in Hex as (members & _ & Hex).
  apply bind_Returns in Hex as (b1 & H1 & Hex).
  apply bind_Returns in Hex as (b2 & H2 & Hex).
  injection Hex as _ <- _.
  assert (ledger_le (Sim.nodeEnergy b1) E) as Hb1.
  { eapply (forOf_invariant (λ s, ledger_le (Sim.nodeEnergy s) E)); [| |exact H1].
    - intros h s s' _ Hs. by apply leach_clusterSend_le.
    - apply ledger_le_refl. }
  eapply (forOf_invariant (λ s, ledger_le (Sim.nodeEnergy s) E)); [| |exact H2].
  - intros h s s' _ Hs. by apply leach_headToBase_le.
  - done.
Qed.
End Leach.
End Costs.

Lemma ledgerAfter_le {T X : Type}
    (executeRound : Z → gmap string Q → X → outcome (T * Sim.Books * X))
    (nodes : list WSNNode) (configRounds : Z) (initialEnergy : Q) (x0 : X) :
  (∀ round E x topo b x',
     executeRound round E x = Returns (topo, b, x') →
     ledger_le (Sim.nodeEnergy b) E) →
  ∀ (j k : nat) (Ej Ek : gmap string Q),
    (j ≤ k)%nat →
    ledgerAfter executeRound nodes configRounds initialEnergy x0 j = Returns Ej →
    ledgerAfter executeRound nodes configRounds initialEnergy x0 k = Returns Ek →
    ledger_le Ek Ej.
Proof.
  intros Hbody j k Ej Ek Hjk Hj Hk. unfold ledgerAfter in *.
  apply bind_Returns in Hj as (stj & Hj & [= <-]).
  apply bind_Returns in Hk as (stk & Hk & [= <-]).
  replace k with (j + (k - j))%nat in Hk by lia.
  rewrite roundLoop_split, Hj in Hk. simpl in Hk.
  eapply ledger_le_loop; [exact Hbody | exact Hk].
Qed.

#[local] Instance Sample_host_spec : @MathHostSpec Sample.host.
Proof.
  constructor. intros x. cbn [Math_sqrt Sample.host]. unfold Sample.sqrtQ.
  rewrite Qred_correct. apply Qle_shift_div_l; [reflexivity|].
  rewrite Qmult_0_l. change 0%Q with (inject_Z 0). rewrite <- Zle_Qle.
  apply Z.sqrt_nonneg.
Qed.

(** C8.  With non-negative [transmitEnergy], [receiveEnergy] and
    [dataSize], and a square root that is never negative, the energy ledger
    of either simulator starts with [initialEnergy] for every node and
    never goes up: the ledger after [k] passes of the round loop has the
    keys of the ledger after [j <= k] passes, each with a value that is at
    most the earlier one.  For PEGASIS this holds over any chain. *)
Theorem remaining_energy_never_increases `{MathHostSpec} (random : nat → Q)
    (nodes : list WSNNode) (lconfig : LEACH.LEACHConfig)
    (pconfig : PEGASIS.PEGASISConfig) (j k : nat)
    (Hleach : (0 <= LEACH.transmitEnergy lconfig)%Q ∧
              (0 <= LEACH.receiveEnergy lconfig)%Q ∧
              (0 <= LEACH.dataSize lconfig)%Q)
    (Hpegasis : (0 <= PEGASIS.transmitEnergy pconfig)%Q ∧
                (0 <= PEGASIS.receiveEnergy pconfig)%Q ∧
                (0 <= PEGASIS.dataSize pconfig)%Q)
    (Hjk : (j ≤ k)%nat) :
  let leach :=
    ledgerAfter (LEACH.executeRound random nodes lconfig) nodes
      (LEACH.rounds lconfig) (LEACH.initialEnergy lconfig) 0%nat in
  let pegasis chain :=
    ledgerAfter (PEGASIS.executeRound nodes pconfig (findBase nodes) chain) nodes
      (PEGASIS.rounds pconfig) (PEGASIS.initialEnergy pconfig) tt in
  (leach 0%nat = Returns (Sim.initEnergy nodes (LEACH.initialEnergy lconfig)) ∧
   ∀ Ej Ek, leach j = Returns Ej → leach k = Returns Ek → ledger_le Ek Ej) ∧
  (∀ chain,
     pegasis chain 0%nat = Returns (Sim.initEnergy nodes (PEGASIS.initialEnergy pconfig)) ∧
     ∀ Ej Ek, pegasis chain j = Returns Ej → pegasis chain k = Returns Ek →
              ledger_le Ek Ej) ∧
  (∀ e n, n ∈ nodes → Sim.initEnergy nodes e !! id n = Some e).
Proof.
  intros leach pegasis.
  destruct Hleach as (Hlt & Hlr & Hls). destruct Hpegasis as (Hpt & Hpr & Hps).
  split; [|split].
  - split; [reflexivity|]. intros Ej Ek. apply ledgerAfter_le; [|done].
    intros round E x topo b x'. by apply leach_executeRound_le.
  - intros chain. split; [reflexivity|]. intros Ej Ek. apply ledgerAfter_le; [|done].
    intros round E x topo b x'. by apply pegasis_executeRound_le.
  - intros e n. apply initEnergy_node.
Qed.

(** C8 on the default configurations: the ledgers after 1 and after 3
    rounds. *)
Lemma remaining_energy_never_increases_witness :
  (∃ E1 E3,
     ledgerAfter (LEACH.executeRound (H := Sample.host) Sample.half Sample.net3
                    LEACH.DEFAULT_LEACH_CONFIG)
       Sample.net3 20 2.0 0%nat 1 = Returns E1 ∧
     ledgerAfter (LEACH.executeRound (H := Sample.host) Sample.half Sample.net3
                    LEACH.DEFAULT_LEACH_CONFIG)
       Sample.net3 20 2.0 0%nat 3 = Returns E3 ∧
     ledger_le E3 E1) ∧
  (∃ E1 E3,
     ledgerAfter (PEGASIS.executeRound (H := Sample.host) Sample.net3
                    PEGASIS.DEFAULT_PEGASIS_CONFIG (findBase Sample.net3)
                    ["s1"; "s2"]%string)
       Sample.net3 20 2.0 tt 1 = Returns E1 ∧
     ledgerAfter (PEGASIS.executeRound (H := Sample.host) Sample.net3
                    PEGASIS.DEFAULT_PEGASIS_CONFIG (findBase Sample.net3)
                    ["s1"; "s2"]%string)
       Sample.net3 20 2.0 tt 3 = Returns E3 ∧
     ledger_le E3 E1).
Proof.
  assert ((0 <= 0.000050)%Q ∧ (0 <= 0.000025)%Q ∧ (0 <= 4000)%Q) as Hc
    by (repeat split; vm_compute; discriminate).
  destruct (remaining_energy_never_increases (H := Sample.host) Sample.half
              Sample.net3 LEACH.DEFAULT_LEACH_CONFIG
              PEGASIS.DEFAULT_PEGASIS_CONFIG 1 3 Hc Hc)
    as ((_ & Hl) & Hp & _); [lia|].
  split.
  - eexists _, _. split; [vm_compute; reflexivity|].
    split; [vm_compute; reflexivity|].
    apply Hl; vm_compute; reflexivity.
  - destruct (Hp ["s1"; "s2"]%string) as [_ Hp'].
    eexists _, _. split; [vm_compute; reflexivity|].
    split; [vm_compute; reflexivity|].
    apply Hp'; vm_compute; reflexivity.
Defined.

(** ** LEACH cluster heads *)

Section Heads.
Context `{MathHost}.
Variable random : nat → Q.
Variable nodes : list WSNNode.
Variable config : LEACH.LEACHConfig.

(** The ids of the nodes the fallback chooses from. *)
Abbreviation availableNodes E :=
  (map id (List.filter (λ node, gt0 (E !! id node) && negb (isBase node)) nodes)).

Lemma availableNodes_elem (E : gmap string Q) (n : WSNNode) :
  n ∈ nodes → gt0 (E !! id n) = true → isBase n = false →
  id n ∈ availableNodes E.
Proof.
  intros Hn Hlive Hnb. apply list_elem_of_fmap. exists n. split; [done|].
  apply list_elem_of_In, filter_In. split; [by apply list_elem_of_In|].
  by rewrite Hlive, Hnb.
Qed.

(** After the election and the fallback there is a head as soon as some
    non-base node is alive; when the election chose nobody, the fallback
    chooses a single head among the live non-base nodes. *)
Lemma fallbackHead_spec (E : gmap string Q) (t0 t : LEACH.Topology)
    (calls0 calls : nat) :
  LEACH.fallbackHead random nodes E (t0, calls0) = Returns (t, calls) →
  (availableNodes E ≠ [] → LEACH.clusterHeads t ≠ []) ∧
  (LEACH.clusterHeads t0 = [] → availableNodes E ≠ [] →
   ∃ h, LEACH.clusterHeads t = [h] ∧ h ∈ availableNodes E) ∧
  (LEACH.clusterHeads t0 ≠ [] → t = t0).
Proof.
  unfold LEACH.fallbackHead.
  destruct (length (LEACH.clusterHeads t0) =? 0)%nat eqn:Hlen.
  - apply Nat.eqb_eq in Hlen. apply nil_length_inv in Hlen.
    destruct (0 <? length (availableNodes E))%nat eqn:Hav.
    + destruct (arrayGet (availableNodes E) _) as [selectedHead|] eqn:Hsel;
        simpl; [|done].
      intros [= <- <-]. simpl. rewrite Hlen. simpl.
      split; [done|]. split; [|done]. intros _ _. exists selectedHead.
      split; [done|]. unfold arrayGet in Hsel.
      destruct (_ <? 0)%Z; [done|]. by eapply list_elem_of_lookup_2.
    + apply Nat.ltb_ge in Hav. intros [= <- <-].
      assert (availableNodes E = []) as Hnil by (apply nil_length_inv; lia).
      by repeat split.
  - apply Nat.eqb_neq in Hlen. intros [= <- <-].
    assert (LEACH.clusterHeads t0 ≠ []) by (by destruct (LEACH.clusterHeads t0)).
    by repeat split.
Qed.

(** A round without heads leaves the books empty. *)
Lemma executeRound_no_heads (round : Z) (E : gmap string Q) (calls calls' : nat)
    (t : LEACH.Topology) (b : Sim.Books) :
  LEACH.executeRound random nodes config round E calls = Returns (t, b, calls') →
  LEACH.clusterHeads t = [] →
  b = {| Sim.energyUsage := ∅; Sim.nodeEnergy := E; Sim.roundDataTransmitted := 0 |}.
Proof.
  unfold LEACH.executeRound. intros Hex.
  apply bind_Returns in Hex as ([t1 c1] & _ & Hex).
  apply bind_Returns in Hex as (members & _ & Hex).
  apply bind_Returns in Hex as (b1 & H1 & Hex).
  apply bind_Returns in Hex as (b2 & H2 & Hex).
  injection Hex as <- <- _. simpl. intros Hnil. rewrite Hnil in H1, H2.
  simpl in H1, H2. congruence.
Qed.

Lemma executeRound_heads (round : Z) (E : gmap string Q) (calls calls' : nat)
    (t : LEACH.Topology) (b : Sim.Books) :
  LEACH.executeRound random nodes config round E calls = Returns (t, b, calls') →
  availableNodes E ≠ [] → LEACH.clusterHeads t ≠ [].
Proof.
  unfold LEACH.executeRound. intros Hex.
  apply bind_Returns in Hex as ([t1 c1] & Hfb & Hex).
  apply bind_Returns in Hex as (members & _ & Hex).
  apply bind_Returns in Hex as (b1 & _ & Hex).
  apply bind_Returns in Hex as (b2 & _ & Hex).
  injection Hex as <- _ _. simpl.
  destruct (LEACH.electHeads random nodes config E calls) as [t0 c0].
  by apply fallbackHead_spec in Hfb as [Hne _].
Qed.

(** In a round that starts from a start ledger and ends with a live
    node, every node was alive at the start. *)
Lemma executeRound_alive_start (initialEnergy : Q) (round : Z)
    (E : gmap string Q) (calls calls' : nat) (t : LEACH.Topology) (b : Sim.Books) :
  LEACH.executeRound random nodes config round E calls = Returns (t, b, calls') →
  startLedger nodes initialEnergy E →
  (0 < Sim.countAlive nodes (Sim.nodeEnergy b))%nat →
  LEACH.clusterHeads t = [] →
  ∀ n, n ∈ nodes → gt0 (E !! id n) = true.
Proof.
  intros Hex Hstart Halive Hnil.
  rewrite (executeRound_no_heads _ _ _ _ _ _ Hex Hnil) in Halive. simpl in Halive.
  destruct Hstart as [Hinit|Hfull].
  - apply countAlive_pos in Halive as (m & Hm & Hlive).
    intros n Hn. rewrite (Hinit n Hn). by rewrite (Hinit m Hm) in Hlive.
  - by apply countAlive_full.
Qed.

Lemma executeRound_heads_when_alive (initialEnergy : Q) (round : Z)
    (E : gmap string Q) (calls calls' : nat) (t : LEACH.Topology) (b : Sim.Books) :
  (∃ n, n ∈ nodes ∧ isBase n = false) →
  LEACH.executeRound random nodes config round E calls = Returns (t, b, calls') →
  startLedger nodes initialEnergy E →
  (0 < Sim.countAlive nodes (Sim.nodeEnergy b))%nat →
  LEACH.clusterHeads t ≠ [].
Proof.
  intros (n & Hn & Hnb) Hex Hstart Halive Hnil.
  pose proof (executeRound_alive_start _ _ _ _ _ _ _ Hex Hstart Halive Hnil n Hn)
    as Hlive.
  eapply (executeRound_heads _ _ _ _ _ _ Hex); [|done].
  intros Hav. pose proof (availableNodes_elem E n Hn Hlive Hnb) as Hin.
  rewrite Hav in Hin. by apply elem_of_nil in Hin.
Qed.
End Heads.

(** C3 (as amended).  In [simulateLEACH] on a node list with at least one
    non-base node, every recorded round that ends with a live node has a
    non-empty cluster-head set.  When the election chooses nobody and some
    non-base node is alive, the fallback makes one of the live non-base
    nodes the only head. *)
Theorem leach_heads_nonempty_while_alive `{MathHost} (random : nat → Q)
    (nodes : list WSNNode) (config : LEACH.LEACHConfig)
    (Hsensor : ∃ n, n ∈ nodes ∧ isBase n = false) :
  whenReturns
    (λ res, Forall (λ r, (0 < Sim.nodesAlive r)%nat →
                         LEACH.clusterHeads (Sim.topology r) ≠ [])
              (Sim.rounds res))
    (LEACH.simulateLEACH random nodes config) ∧
  (∀ E members calls t calls' n,
     LEACH.fallbackHead random nodes E
       ({| LEACH.clusterHeads := []; LEACH.clusterMembers := members |}, calls)
       = Returns (t, calls') →
     n ∈ nodes → gt0 (E !! id n) = true → isBase n = false →
     ∃ h m, LEACH.clusterHeads t = [h] ∧ m ∈ nodes ∧ id m = h ∧
            gt0 (E !! id m) = true ∧ isBase m = false).
Proof.
  split.
  - apply simulateLEACH_run. intros st Hrun.
    apply run_recorded in Hrun. eapply Forall_impl; [exact Hrun|].
    intros r (E & x & b & x' & Hstart & Hex & _ & Halive & _) Hpos.
    rewrite Halive in Hpos.
    by eapply executeRound_heads_when_alive.
  - intros E members calls t calls' n Hfb Hn Hlive Hnb.
    apply fallbackHead_spec in Hfb as (_ & Hone & _).
    destruct Hone as (h & Hh & Hin); [done| |].
    { intros Hav. pose proof (availableNodes_elem nodes E n Hn Hlive Hnb) as Hc.
      rewrite Hav in Hc. by apply elem_of_nil in Hc. }
    apply list_elem_of_fmap in Hin as (m & -> & Hm).
    apply list_elem_of_In, filter_In in Hm as [Hm Hcond].
    apply andb_true_iff in Hcond as [Hml Hmb]. apply negb_true_iff in Hmb.
    exists (id m), m. repeat split; try done. by apply list_elem_of_In.
Qed.

(** C3 on the default configuration and the sample network. *)
Lemma leach_heads_nonempty_while_alive_witness :
  whenReturns
    (λ res, Forall (λ r, (0 < Sim.nodesAlive r)%nat →
                         LEACH.clusterHeads (Sim.topology r) ≠ [])
              (Sim.rounds res))
    (LEACH.simulateLEACH (H := Sample.host) Sample.half Sample.net3
       LEACH.DEFAULT_LEACH_CONFIG).
Proof.
  refine (proj1 (leach_heads_nonempty_while_alive (H := Sample.host) Sample.half
                   Sample.net3 LEACH.DEFAULT_LEACH_CONFIG _)).
  exists Sample.S1. split; [|reflexivity].
  apply list_elem_of_further, list_elem_of_here.
Defined.

(** C3, refuted as stated: on a network made of the base station alone the
    recorded round has a live node and no cluster head. *)
Lemma leach_base_alone_has_no_head :
  ∃ res r,
    LEACH.simulateLEACH (H := Sample.host) Sample.half [Sample.B]
      LEACH.DEFAULT_LEACH_CONFIG = Returns res ∧
    r ∈ Sim.rounds res ∧
    (0 < Sim.nodesAlive r)%nat ∧
    LEACH.clusterHeads (Sim.topology r) = [].
Proof.
  eexists _, _. split; [vm_compute; reflexivity|]. split.
  - apply list_elem_of_here.
  - split; [cbn [Sim.nodesAlive]; lia | reflexivity].
Qed.

(** ** The head-to-base step of LEACH *)

(** The step charges the head whatever its energy: when the head, the base
    station and the member list are there, it always returns the books with
    the transmit cost spent and the aggregated message delivered. *)
Lemma headToBase_unconditional `{MathHost} (nodes : list WSNNode)
    (config : LEACH.LEACHConfig) (members : gmap string (list string))
    (headId : string) (head bs : WSNNode) (memberIds : list string) (b : Sim.Books) :
  findById nodes (Some headId) = Some head →
  members !! headId = Some memberIds →
  let aggregatedDataSize :=
    (LEACH.dataSize config *
     (0.5 + 0.5 * inject_Z (Z.of_nat (length memberIds))))%Q in
  let transmitCost :=
    (LEACH.transmitEnergy config * aggregatedDataSize *
     (1 + 0.2 * calculateDistance (position head) (position bs)))%Q in
  LEACH.headToBase nodes config members (Some bs) headId b =
  Returns (Sim.deliver aggregatedDataSize (Sim.spend headId transmitCost b)).
Proof.
  intros Hhead Hmembers. unfold LEACH.headToBase.
  rewrite Hhead. simpl. by rewrite Hmembers.
Qed.

(** C4, evaluated on the code.  Batteries of 0.05 J, every draw 0.5, one
    base station and two sensors: round 1 elects nobody, the fallback makes
    [s2] the head and [s1] its member.  Receiving the member's message costs
    the head 0.1 J, which leaves it at -0.05 J; it is nevertheless charged
    0.2444 J for the transmission to the base station (usage 0.3444 J in
    all) and its aggregated message of 4000 bits is counted (8000 bits in
    all). *)
Theorem leach_dead_head_still_transmits :
  ∃ res r u,
    LEACH.simulateLEACH (H := Sample.host) Sample.half Sample.net3 Sample.leachLow
      = Returns res ∧
    Sim.rounds res = [r] ∧
    LEACH.clusterHeads (Sim.topology r) = ["s2"]%string ∧
    LEACH.clusterMembers (Sim.topology r) !! "s2"%string = Some ["s1"]%string ∧
    (LEACH.initialEnergy Sample.leachLow
       - LEACH.receiveEnergy Sample.leachLow * LEACH.dataSize Sample.leachLow
     == -0.05)%Q ∧
    Sim.roundEnergyUsage r !! "s2"%string = Some u ∧
    (u == 0.1 + 0.2444)%Q ∧
    (Sim.dataTransmitted r == 4000 + 4000)%Q.
Proof.
  eexists _, _, _. split; [vm_compute; reflexivity|].
  split; [reflexivity|]. split; [reflexivity|]. split; [reflexivity|].
  split; [reflexivity|]. split; [vm_compute; reflexivity|].
  split; reflexivity.
Qed.

(** ** When the simulators return *)

Lemma findById_elem (nodes : list WSNNode) (s : string) :
  s ∈ map id nodes →
  ∃ n, findById nodes (Some s) = Some n ∧ id n = s ∧ n ∈ nodes.
Proof.
  simpl. induction nodes as [|m nodes IH]; simpl; intros Hin.
  - by apply elem_of_nil in Hin.
  - destruct (String.eqb (id m) s) eqn:Heq.
    + apply String.eqb_eq in Heq. exists m. repeat split; [done | by left].
    + apply String.eqb_neq in Heq.
      apply elem_of_cons in Hin as [Hin|Hin]; [congruence|].
      destruct (IH Hin) as (n & Hf & Hid & Hn). exists n.
      repeat split; [done | done | by right].
Qed.

Lemma arrayGet_in_range {A : Type} (arr : list A) (i : Z) :
  (0 ≤ i < Z.of_nat (length arr))%Z → ∃ x, arrayGet arr i = Some x ∧ x ∈ arr.
Proof.
  intros Hi. unfold arrayGet.
  destruct (i <? 0)%Z eqn:Hneg; [apply Z.ltb_lt in Hneg; lia|].
  destruct (lookup_lt_is_Some_2 arr (Z.to_nat i)) as [x Hx]; [lia|].
  exists x. split; [done|]. by eapply list_elem_of_lookup_2.
Qed.

Lemma indexOfFrom_bound (l : list string) (s : string) (i : Z) :
  let r := PEGASIS.indexOfFrom l s i in
  (r = -1 ∨ i ≤ r < i + Z.of_nat (length l))%Z ∧
  (s ∈ l → i ≤ r < i + Z.of_nat (length l))%Z.
Proof.
  revert i. induction l as [|x l IH]; intros i; simpl.
  - split; [by left|]. intros Hin. by apply elem_of_nil in Hin.
  - destruct (String.eqb x s) eqn:Heq.
    + split; [right|intros _]; lia.
    + apply String.eqb_neq in Heq. destruct (IH (i + 1)%Z) as [Hor Hin].
      split.
      * destruct Hor; [by left | right; lia].
      * intros Hs. apply elem_of_cons in Hs as [Hs|Hs]; [congruence|].
        specialize (Hin Hs). lia.
Qed.

Lemma roundLoop_returns {T X : Type}
    (executeRound : Z → gmap string Q → X → outcome (T * Sim.Books * X))
    (nodes : list WSNNode) :
  (∀ round E x, (1 ≤ round)%Z → ∃ r, executeRound round E x = Returns r) →
  ∀ n round st, (1 ≤ round)%Z →
    ∃ st', Sim.roundLoop executeRound nodes n round st = Returns st'.
Proof.
  intros Hbody. induction n as [|n IH]; intros round st Hround; simpl; [eauto|].
  assert (∃ st1, Sim.iteration executeRound nodes round st = Returns st1)
    as [st1 ->].
  { unfold Sim.iteration. destruct (Sim.st_networkDied st); [eauto|].
    destruct (Hbody round (Sim.st_nodeEnergy st) (Sim.st_aux st) Hround)
      as ([[topo b] x] & ->).
    simpl. eauto. }
  simpl. apply IH. lia.
Qed.

Section PegasisReturns.
Context `{MathHost}.
Variable nodes : list WSNNode.
Variable config : PEGASIS.PEGASISConfig.
Variable chain : list string.
Hypothesis Hchain : ∀ c, c ∈ chain → c ∈ map id nodes.

(** The leader is a member of the chain, when there is one. *)
Lemma selectLeader_elem (round : Z) (E : gmap string Q) :
  (1 ≤ round)%Z → chain ≠ [] →
  ∃ c, PEGASIS.selectLeader config chain round E = Some c ∧ c ∈ chain.
Proof.
  intros Hround Hne. unfold PEGASIS.selectLeader.
  destruct (PEGASIS.leaderSelectionMethod config).
  - assert (0 < Z.of_nat (length chain))%Z as Hlen
      by (destruct chain; [done | simpl; lia]).
    destruct (Z.of_nat (length chain) =? 0)%Z eqn:H0;
      [apply Z.eqb_eq in H0; lia|].
    apply arrayGet_in_range. apply Z.rem_bound_pos; lia.
  - assert (∀ l acc,
              (∀ c, c ∈ l → c ∈ chain) →
              (∃ c, acc = Some c ∧ c ∈ chain) →
              ∃ c, fold_left
                     (λ maxId nodeId,
                        if gt (E !! nodeId) (E !! propKey maxId)
                        then Some nodeId else maxId) l acc = Some c ∧
                   c ∈ chain) as Hfold.
    { induction l as [|x l IH]; intros acc Hl Hacc; simpl; [done|].
      apply IH; [intros c Hc; apply Hl; by right|].
      destruct (gt _ _); [|done]. exists x. split; [done|]. apply Hl. by left. }
    apply Hfold; [done|].
    destruct chain as [|c0 rest]; [done|]. exists c0. split; [done | by left].
Qed.

Lemma selectLeader_nil (round : Z) (E : gmap string Q) :
  chain = [] → PEGASIS.selectLeader config chain round E = None.
Proof.
  intros ->. unfold PEGASIS.selectLeader.
  by destruct (PEGASIS.leaderSelectionMethod config).
Qed.

Lemma hop_returns (s r : string) (b : Sim.Books) :
  s ∈ chain → r ∈ chain →
  ∃ b', PEGASIS.hop nodes config (Some s) (Some r) b = Returns b'.
Proof.
  intros Hs Hr. unfold PEGASIS.hop.
  destruct (le0 _); [eauto|].
  destruct (findById_elem nodes s (Hchain s Hs)) as (sender & -> & _).
  destruct (findById_elem nodes r (Hchain r Hr)) as (receiver & -> & _).
  simpl. destruct (le0 _); eauto.
Qed.

Lemma relayLeft_returns (leaderIndex : Z) (b : Sim.Books) :
  (leaderIndex < Z.of_nat (length chain))%Z →
  ∃ b', PEGASIS.relayLeft nodes config chain leaderIndex b = Returns b'.
Proof.
  intros Hli. unfold PEGASIS.relayLeft, PEGASIS.leftIndices.
  destruct (forOf_returns (λ _, True)
              (λ i, PEGASIS.hop nodes config (arrayGet chain i)
                      (arrayGet chain (i + 1)))
              (seqZ 0 leaderIndex)) with (s := b) as (b' & Hb' & _);
    [|done|eauto].
  intros i s Hi _. apply elem_of_seqZ in Hi.
  destruct (arrayGet_in_range chain i) as (x & -> & Hx); [lia|].
  destruct (arrayGet_in_range chain (i + 1)) as (y & -> & Hy); [lia|].
  destruct (hop_returns x y s Hx Hy) as [s' Hs']. eauto.
Qed.

Lemma relayRight_returns (leaderIndex : Z) (b : Sim.Books) :
  (0 ≤ leaderIndex ∨ leaderIndex = -1 ∧ chain = [])%Z →
  ∃ b', PEGASIS.relayRight nodes config chain leaderIndex b = Returns b'.
Proof.
  intros Hli. unfold PEGASIS.relayRight, PEGASIS.rightIndices.
  destruct (forOf_returns (λ _, True)
              (λ i, PEGASIS.hop nodes config (arrayGet chain i)
                      (arrayGet chain (i - 1)))
              (reverse (seqZ (leaderIndex + 1)
                          (Z.of_nat (length chain) - 1 - leaderIndex))))
    with (s := b) as (b' & Hb' & _); [|done|eauto].
  intros i s Hi _. apply elem_of_reverse, elem_of_seqZ in Hi.
  destruct Hli as [Hli|[-> ->]]; [|simpl in Hi; lia].
  destruct (arrayGet_in_range chain i) as (x & -> & Hx); [lia|].
  destruct (arrayGet_in_range chain (i - 1)) as (y & -> & Hy); [lia|].
  destruct (hop_returns x y s Hx Hy) as [s' Hs']. eauto.
Qed.

Lemma executeRound_returns (baseStation : option WSNNode) (round : Z)
    (E : gmap string Q) (x : unit) :
  (1 ≤ round)%Z → baseStation = None ∨ chain ≠ [] →
  ∃ r, PEGASIS.executeRound nodes config baseStation chain round E x = Returns r.
Proof.
  intros Hround Hcase. unfold PEGASIS.executeRound.
  set (leader := PEGASIS.selectLeader config chain round E).
  set (leaderIndex := PEGASIS.indexOf chain leader).
  assert ((leaderIndex < Z.of_nat (length chain))%Z ∧
          (0 ≤ leaderIndex ∨ leaderIndex = -1 ∧ chain = [])%Z ∧
          (baseStation = None ∨ ∃ c, leader = Some c ∧ c ∈ chain))
    as (Hlt & Hge & Hleader).
  { destruct (decide (chain = [])) as [Hnil|Hne].
    - unfold leaderIndex, leader. rewrite (selectLeader_nil _ _ Hnil). simpl.
      split; [lia|]. split; [by right|]. destruct Hcase; [by left | done].
    - destruct (selectLeader_elem round E Hround Hne) as (c & Hc & Hin).
      unfold leaderIndex, leader. rewrite Hc. simpl.
      destruct (indexOfFrom_bound chain c 0) as [_ Hb]. specialize (Hb Hin).
      simpl in Hb. split; [lia|]. split; [left; lia|]. right. eauto. }
  destruct (relayLeft_returns leaderIndex
              {| Sim.energyUsage := ∅; Sim.nodeEnergy := E;
                 Sim.roundDataTransmitted := 0 |} Hlt) as [b1 ->].
  simpl. destruct (relayRight_returns leaderIndex b1 Hge) as [b2 ->]. simpl.
  assert (∃ b3, PEGASIS.leaderToBase nodes config baseStation leader b2
                = Returns b3) as [b3 ->].
  { unfold PEGASIS.leaderToBase. destruct baseStation as [bs|]; [|eauto].
    destruct (gt0 _); [|eauto].
    destruct Hleader as [?|(c & -> & Hc)]; [done|].
    destruct (findById_elem nodes c (Hchain c Hc)) as (n & -> & _).
    simpl. eauto. }
  simpl. eauto.
Qed.
End PegasisReturns.

(** [simulatePEGASIS] returns on every node list that has a non-base node
    or no base station. *)
Lemma simulatePEGASIS_returns `{MathHost} (nodes : list WSNNode)
    (config : PEGASIS.PEGASISConfig) :
  findBase nodes = None ∨ (∃ n, n ∈ nodes ∧ isBase n = false) →
  ∃ res, PEGASIS.simulatePEGASIS nodes config = Returns res.
Proof.
  intros Hcase. unfold PEGASIS.simulatePEGASIS.
  set (sensorNodes := List.filter (λ node, negb (isBase node)) nodes).
  destruct (constructGreedyChain_spec sensorNodes) as (chain & -> & Hperm).
  simpl. unfold Sim.simulate, Sim.run.
  assert (∀ c, c ∈ chain → c ∈ map id nodes) as Hchain.
  { intros c Hc. rewrite Hperm in Hc.
    apply list_elem_of_fmap in Hc as (n & -> & Hn).
    apply list_elem_of_fmap. exists n. split; [done|].
    apply list_elem_of_In. apply list_elem_of_In, filter_In in Hn. tauto. }
  assert (findBase nodes = None ∨ chain ≠ []) as Hcase'.
  { destruct Hcase as [?|(n & Hn & Hnb)]; [by left | right].
    intros ->. apply Permutation_nil in Hperm.
    assert (id n ∈ map id sensorNodes) as Hin.
    { apply list_elem_of_fmap. exists n. split; [done|].
      apply list_elem_of_In, filter_In. split; [by apply list_elem_of_In|].
      by rewrite Hnb. }
    rewrite Hperm in Hin. by apply elem_of_nil in Hin. }
  destruct (roundLoop_returns
              (PEGASIS.executeRound nodes config (findBase nodes) chain) nodes)
    with (n := Z.to_nat (PEGASIS.rounds config)) (round := 1%Z)
         (st := Sim.initialState (T := PEGASIS.Topology) nodes
                  (PEGASIS.rounds config) (PEGASIS.initialEnergy config) tt)
    as [st ->]; [|lia|simpl; eauto].
  intros round E x Hround. by apply executeRound_returns.
Qed.

(** ** A node list without a base station *)

Lemma findBase_None (nodes : list WSNNode) :
  findBase nodes = None → ∀ n, n ∈ nodes → isBase n = false.
Proof.
  intros Hnone n Hn. apply (find_none _ _ Hnone). by apply list_elem_of_In.
Qed.

Section LeachNoBase.
Context `{MathHost}.
Variable random : nat → Q.
Variable nodes : list WSNNode.
Variable config : LEACH.LEACHConfig.
Hypothesis Hnobase : findBase nodes = None.

(** A round can only complete when it has no head: the head-to-base step
    of the first head reads the position of an [undefined] base. *)
Lemma leach_no_base_no_heads (round : Z) (E : gmap string Q)
    (calls calls' : nat) (t : LEACH.Topology) (b : Sim.Books) :
  LEACH.executeRound random nodes config round E calls = Returns (t, b, calls') →
  LEACH.clusterHeads t = [].
Proof.
  unfold LEACH.executeRound. intros Hex.
  apply bind_Returns in Hex as ([t1 c1] & _ & Hex).
  apply bind_Returns in Hex as (members & _ & Hex).
  apply bind_Returns in Hex as (b1 & _ & Hex).
  apply bind_Returns in Hex as (b2 & H2 & Hex).
  injection Hex as <- _ _. simpl. rewrite Hnobase in H2.
  destruct (LEACH.clusterHeads t1) as [|h hs]; [done|].
  simpl in H2. unfold LEACH.headToBase in H2.
  destruct (findById nodes (Some h)); simpl in H2; done.
Qed.

Lemma simulateLEACH_no_base_throws :
  nodes ≠ [] → (0 < LEACH.initialEnergy config)%Q → (1 ≤ LEACH.rounds config)%Z →
  LEACH.simulateLEACH random nodes config = Throws TypeError.
Proof.
  intros Hne Hpos Hrounds.
  unfold LEACH.simulateLEACH, Sim.simulate, Sim.run.
  destruct (Z.to_nat (LEACH.rounds config)) as [|k] eqn:Hk; [lia|].
  cbn [Sim.roundLoop]. unfold Sim.iteration at 1. cbn [Sim.initialState Sim.st_networkDied Sim.st_nodeEnergy Sim.st_aux].
  destruct (LEACH.executeRound random nodes config 1
              (Sim.initEnergy nodes (LEACH.initialEnergy config)) 0)
    as [[[t b] c]|[]] eqn:Hex; [|reflexivity].
  exfalso. pose proof (leach_no_base_no_heads _ _ _ _ _ _ Hex) as Hnil.
  eapply (executeRound_heads _ _ _ _ _ _ _ _ _ Hex); [|exact Hnil].
  assert (∃ n, n ∈ nodes) as [n Hn].
  { assert (∀ l : list WSNNode, l ≠ [] → ∃ n, n ∈ l) as Hl.
    { intros [|n l] Hl; [done|]. exists n. by left. }
    by apply Hl. }
  intros Hav.
  assert (id n ∈ map id (List.filter
            (λ node, gt0 (Sim.initEnergy nodes (LEACH.initialEnergy config)
                            !! id node) && negb (isBase node)) nodes)) as Hin.
  { apply (availableNodes_elem nodes); [done| |by apply (findBase_None nodes)].
    rewrite initEnergy_node by done. by apply Qltb_lt. }
  rewrite Hav in Hin. by apply elem_of_nil in Hin.
Qed.
End LeachNoBase.

(** C5 (as amended).  Neither simulator validates the node list.  On a
    list without a base station [simulatePEGASIS] returns a result, the
    leader-to-base step of every round doing nothing; [simulateLEACH]
    returns only results whose rounds have no cluster head; it throws a
    [TypeError] (from the head-to-base step of round 1) when the list is
    not empty, [initialEnergy] is positive and at least one round is
    asked for. *)
Theorem missing_base_is_not_validated `{MathHost} (random : nat → Q)
    (nodes : list WSNNode) (lconfig : LEACH.LEACHConfig)
    (pconfig : PEGASIS.PEGASISConfig)
    (Hnobase : findBase nodes = None) :
  (∃ res, PEGASIS.simulatePEGASIS nodes pconfig = Returns res) ∧
  (∀ leader b,
     PEGASIS.leaderToBase nodes pconfig (findBase nodes) leader b = Returns b) ∧
  whenReturns
    (λ res, Forall (λ r, LEACH.clusterHeads (Sim.topology r) = []) (Sim.rounds res))
    (LEACH.simulateLEACH random nodes lconfig) ∧
  (nodes ≠ [] → (0 < LEACH.initialEnergy lconfig)%Q → (1 ≤ LEACH.rounds lconfig)%Z →
   LEACH.simulateLEACH random nodes lconfig = Throws TypeError).
Proof.
  split; [|split; [|split]].
  - apply simulatePEGASIS_returns. by left.
  - intros leader b. by rewrite Hnobase.
  - apply simulateLEACH_run. intros st Hrun.
    apply run_recorded in Hrun. eapply Forall_impl; [exact Hrun|].
    intros r (E & x & b & x' & _ & Hex & _).
    by eapply leach_no_base_no_heads.
  - by apply simulateLEACH_no_base_throws.
Qed.

(** C5 on two sensors without a base station, default configurations. *)
Lemma missing_base_is_not_validated_witness :
  (∃ res, PEGASIS.simulatePEGASIS (H := Sample.host) Sample.sensorsOnly
            PEGASIS.DEFAULT_PEGASIS_CONFIG = Returns res) ∧
  LEACH.simulateLEACH (H := Sample.host) Sample.half Sample.sensorsOnly
    LEACH.DEFAULT_LEACH_CONFIG = Throws TypeError.
Proof.
  destruct (missing_base_is_not_validated (H := Sample.host) Sample.half
              Sample.sensorsOnly LEACH.DEFAULT_LEACH_CONFIG
              PEGASIS.DEFAULT_PEGASIS_CONFIG eq_refl)
    as (Hp & _ & _ & Hl).
  split; [exact Hp|]. apply Hl; [done | reflexivity | simpl; lia].
Defined.

(** C5, refuted as stated: on two sensors without a base station
    [simulatePEGASIS] raises no error and returns a log of 13 rounds. *)
Lemma pegasis_runs_without_base :
  findBase Sample.sensorsOnly = None ∧
  ∃ res,
    PEGASIS.simulatePEGASIS (H := Sample.host) Sample.sensorsOnly
      PEGASIS.DEFAULT_PEGASIS_CONFIG = Returns res ∧
    length (Sim.rounds res) = 13%nat.
Proof.
  split; [reflexivity|].
  eexists. split; [vm_compute; reflexivity | reflexivity].
Qed.

(** ** PEGASIS leader selection *)

Lemma energyBased_fold (E : gmap string Q) (l pre mid : list string)
    (m : string) (em : Q) :
  E !! m = Some em →
  (∀ c', c' ∈ pre → ∃ e', E !! c' = Some e' ∧ (e' < em)%Q) →
  (∀ c', c' ∈ mid → ∃ e', E !! c' = Some e' ∧ (e' <= em)%Q) →
  (∀ c, c ∈ l → is_Some (E !! c)) →
  ∃ c,
    fold_left
      (λ maxId nodeId,
         if gt (E !! nodeId) (E !! propKey maxId) then Some nodeId else maxId)
      l (Some m) = Some c ∧
    firstLargest E (pre ++ m :: mid ++ l) c.
Proof.
  revert pre mid m em.
  induction l as [|x l IH]; intros pre mid m em Hm Hpre Hmid Hl.
  - exists m. split; [done|]. exists pre, (mid ++ []), em.
    split; [done|]. split; [done|]. split; [done|].
    intros c' Hc'. rewrite app_nil_r in Hc'. auto.
  - destruct (Hl x) as [ex Hx]; [by left|].
    cbn [fold_left propKey]. rewrite Hx, Hm. cbn [gt].
    destruct (Qltb em ex) eqn:Hcmp.
    + apply Qltb_lt in Hcmp.
      destruct (IH (pre ++ m :: mid) [] x ex) as (c & Hc & Hfirst);
        [done| |intros c' Hc'; by apply elem_of_nil in Hc'| |].
      * intros c' Hc'. apply elem_of_app in Hc' as [Hc'|Hc'].
        -- destruct (Hpre c' Hc') as (e' & He' & Hlt). exists e'. split; [done|lra].
        -- apply elem_of_cons in Hc' as [->|Hc'].
           ++ exists em. by split.
           ++ destruct (Hmid c' Hc') as (e' & He' & Hle). exists e'. split; [done|lra].
      * intros c Hc. apply Hl. by right.
      * exists c. split; [done|]. simpl in Hfirst.
        by rewrite <- app_assoc in Hfirst.
    + apply Qltb_ge in Hcmp.
      destruct (IH pre (mid ++ [x]) m em) as (c & Hc & Hfirst); [done|done| | |].
      * intros c' Hc'. apply elem_of_app in Hc' as [Hc'|Hc']; [auto|].
        apply list_elem_of_singleton in Hc' as ->. exists ex. by split.
      * intros c Hc. apply Hl. by right.
      * exists c. split; [done|]. by rewrite <- app_assoc in Hfirst.
Qed.

(** C10.  [simulatePEGASIS] is a function of the node list and the config
    (and of the host's [Math.sqrt], [Math.cos] and [Math.PI]): it takes no
    draw of [Math.random], so equal inputs give equal results.  The chain
    starts with the first node it is given; the round-robin leader of round
    [round] is the chain entry at position [(round - 1) mod length]; the
    energy-based leader is the first chain entry with the largest
    energy. *)
Theorem pegasis_deterministic `{MathHost} (nodes1 nodes2 : list WSNNode)
    (config1 config2 : PEGASIS.PEGASISConfig)
    (Hnodes : nodes1 = nodes2) (Hconfig : config1 = config2) :
  PEGASIS.simulatePEGASIS nodes1 config1 = PEGASIS.simulatePEGASIS nodes2 config2 ∧
  (∀ n rest, ∃ chain,
     PEGASIS.constructGreedyChain (n :: rest) = Returns chain ∧
     chain !! 0%nat = Some (id n)) ∧
  (∀ chain round E,
     PEGASIS.leaderSelectionMethod config1 = PEGASIS.roundRobin →
     (1 ≤ round)%Z → chain ≠ [] →
     PEGASIS.selectLeader config1 chain round E =
       chain !! (Z.to_nat (round - 1) mod length chain)%nat) ∧
  (∀ chain round E,
     PEGASIS.leaderSelectionMethod config1 = PEGASIS.energyBased →
     chain ≠ [] → (∀ c, c ∈ chain → is_Some (E !! c)) →
     ∃ c, PEGASIS.selectLeader config1 chain round E = Some c ∧
          firstLargest E chain c).
Proof.
  split; [by rewrite Hnodes, Hconfig|]. split; [|split].
  - intros n rest.
    destruct (constructGreedyChain_spec (n :: rest)) as (chain & Hc & _).
    exists chain. split; [done|]. by eapply constructGreedyChain_head.
  - intros chain round E Hm Hround Hne. unfold PEGASIS.selectLeader. rewrite Hm.
    assert (0 < Z.of_nat (length chain))%Z as Hlen
      by (destruct chain; [done | simpl; lia]).
    destruct (Z.of_nat (length chain) =? 0)%Z eqn:H0;
      [apply Z.eqb_eq in H0; lia|].
    unfold arrayGet.
    pose proof (Z.rem_bound_pos (round - 1) (Z.of_nat (length chain))) as Hb.
    destruct (_ <? 0)%Z eqn:Hneg; [apply Z.ltb_lt in Hneg; lia|].
    f_equal. rewrite Z.rem_mod_nonneg by lia.
    rewrite Z2Nat.inj_mod by lia. by rewrite Nat2Z.id.
  - intros chain round E Hm Hne Hall. unfold PEGASIS.selectLeader. rewrite Hm.
    destruct chain as [|c0 rest]; [done|].
    destruct (Hall c0) as [e0 He0]; [by left|].
    cbn [lookup list_lookup fold_left propKey]. rewrite He0. cbn [gt].
    assert (Qltb e0 e0 = false) as -> by (apply Qltb_ge; lra).
    destruct (energyBased_fold E rest [] [] c0 e0) as (c & Hc & Hfirst);
      [done| | |intros c Hc; apply Hall; by right|eauto];
      intros c' Hc'; by apply elem_of_nil in Hc'.
Qed.

(** C10 on the sample network: two runs on the same input, and the
    round-robin leader of round 2 on a chain of two. *)
Lemma pegasis_deterministic_witness :
  PEGASIS.simulatePEGASIS (H := Sample.host) Sample.net3
    PEGASIS.DEFAULT_PEGASIS_CONFIG =
  PEGASIS.simulatePEGASIS (H := Sample.host) Sample.net3
    PEGASIS.DEFAULT_PEGASIS_CONFIG ∧
  PEGASIS.selectLeader PEGASIS.DEFAULT_PEGASIS_CONFIG ["s1"; "s2"]%string 2 ∅
    = Some "s2"%string.
Proof.
  destruct (pegasis_deterministic (H := Sample.host) Sample.net3 Sample.net3
              PEGASIS.DEFAULT_PEGASIS_CONFIG PEGASIS.DEFAULT_PEGASIS_CONFIG
              eq_refl eq_refl) as (Hsame & _ & Hrr & _).
  split; [exact Hsame|].
  rewrite (Hrr ["s1"; "s2"]%string 2%Z ∅); [reflexivity | reflexivity | lia | done].
Defined.

(** ** [simulateLEACH] returns when there is a base station *)

Section LeachReturns.
Context `{MathHost}.
Variable random : nat → Q.
Hypothesis Hrandom : ∀ k, (0 <= random k)%Q ∧ (random k < 1)%Q.
Variable nodes : list WSNNode.
Variable config : LEACH.LEACHConfig.

Lemma wfTopology_insert_head (heads : list string)
    (members : gmap string (list string)) (h : string) :
  h ∈ map id nodes → wfTopology nodes heads members →
  wfTopology nodes (heads ++ [h]) (<[h := []]> members).
Proof.
  intros Hh [Hheads Hmembers]. split.
  - intros h' Hh'. apply elem_of_app in Hh' as [Hh'|Hh'].
    + destruct (Hheads h' Hh') as [Hid Hsome]. split; [done|].
      destruct (decide (h = h')) as [->|Hne].
      * rewrite lookup_insert_eq. eauto.
      * by rewrite lookup_insert_ne.
    + apply list_elem_of_singleton in Hh' as ->. split; [done|].
      rewrite lookup_insert_eq. eauto.
  - intros h' ms m Hlook Hm. destruct (decide (h = h')) as [->|Hne].
    + rewrite lookup_insert_eq in Hlook. injection Hlook as <-.
      by apply elem_of_nil in Hm.
    + rewrite lookup_insert_ne in Hlook by done. eauto.
Qed.

Lemma electHeads_wf (E : gmap string Q) (calls : nat) :
  let '(t, _) := LEACH.electHeads random nodes config E calls in
  wfTopology nodes (LEACH.clusterHeads t) (LEACH.clusterMembers t).
Proof.
  unfold LEACH.electHeads.
  assert (∀ l acc,
            (∀ n, n ∈ l → n ∈ nodes) →
            wfTopology nodes (LEACH.clusterHeads acc.1) (LEACH.clusterMembers acc.1) →
            let '(t, _) := fold_left (LEACH.electStep random config E) l acc in
            wfTopology nodes (LEACH.clusterHeads t) (LEACH.clusterMembers t))
    as Hfold.
  { induction l as [|n l IH]; intros [t c] Hl Hwf; simpl; [done|].
    apply IH; [intros m Hm; apply Hl; by right|].
    destruct (le0 _); [done|]. destruct (isBase n); [done|].
    destruct (Qltb _ _); [|done]. simpl.
    apply wfTopology_insert_head; [|done].
    apply list_elem_of_fmap. exists n. split; [done|]. apply Hl. by left. }
  apply Hfold; [done|]. simpl. split.
  - intros h Hh. by apply elem_of_nil in Hh.
  - intros h ms m Hlook. by rewrite lookup_empty in Hlook.
Qed.

Lemma randomIndex_in_range (k : nat) (len : nat) :
  (0 < len)%nat →
  (0 ≤ Qfloor (random k * inject_Z (Z.of_nat len)) < Z.of_nat len)%Z.
Proof.
  intros Hlen. destruct (Hrandom k) as [H0 H1].
  assert (0 < inject_Z (Z.of_nat len))%Q as Hpos.
  { change 0%Q with (inject_Z 0). rewrite <- Zlt_Qlt. lia. }
  set (x := (random k * inject_Z (Z.of_nat len))%Q).
  assert (0 <= x)%Q as Hx0 by (apply Qmult_le_0_compat; lra).
  assert (x < inject_Z (Z.of_nat len))%Q as Hx1.
  { unfold x. rewrite <- (Qmult_1_l (inject_Z (Z.of_nat len))) at 2.
    apply Qmult_lt_compat_r; lra. }
  split.
  - change 0%Z with (Qfloor 0). by apply Qfloor_resp_le.
  - pose proof (Qfloor_le x) as Hfl. rewrite Zlt_Qlt. lra.
Qed.

Lemma fallbackHead_returns (E : gmap string Q) (t0 : LEACH.Topology) (calls0 : nat) :
  wfTopology nodes (LEACH.clusterHeads t0) (LEACH.clusterMembers t0) →
  ∃ t calls,
    LEACH.fallbackHead random nodes E (t0, calls0) = Returns (t, calls) ∧
    wfTopology nodes (LEACH.clusterHeads t) (LEACH.clusterMembers t).
Proof.
  intros Hwf. unfold LEACH.fallbackHead.
  destruct (length (LEACH.clusterHeads t0) =? 0)%nat; [|eauto].
  match goal with |- context [map id ?l] => set (available := map id l) end.
  destruct (0 <? length available)%nat eqn:Hlen; [|eauto].
  apply Nat.ltb_lt in Hlen.
  destruct (arrayGet_in_range available
              (Qfloor (random calls0 * inject_Z (Z.of_nat (length available)))))
    as (sel & -> & Hsel); [by apply randomIndex_in_range|].
  simpl. eexists _, _. split; [done|]. simpl.
  apply wfTopology_insert_head; [|done].
  apply list_elem_of_fmap in Hsel as (n & -> & Hn).
  apply list_elem_of_fmap. exists n. split; [done|].
  apply list_elem_of_In. apply list_elem_of_In, filter_In in Hn. tauto.
Qed.

Lemma nearest_returns (node : WSNNode) (heads : list string) :
  (∀ h, h ∈ heads → h ∈ map id nodes) →
  ∃ d nearestHead,
    forOf (LEACH.nearestStep nodes node) heads (None, EmptyString)
      = Returns (d, nearestHead) ∧
    (nearestHead = EmptyString ∨ nearestHead ∈ heads).
Proof.
  intros Hheads.
  destruct (forOf_returns
              (λ acc : option Q * string, acc.2 = EmptyString ∨ acc.2 ∈ heads)
              (LEACH.nearestStep nodes node) heads)
    with (s := (None : option Q, EmptyString)) as ([d nh] & Hrun & Hinv).
  - intros h [d nh] Hh Hacc. unfold LEACH.nearestStep.
    destruct (findById_elem nodes h (Hheads h Hh)) as (head & -> & _). simpl.
    destruct (match d with None => true | Some m => Qltb _ m end).
    + eexists. split; [done|]. by right.
    + eauto.
  - by left.
  - eauto.
Qed.

Lemma assignStep_returns (E : gmap string Q) (heads : list string)
    (node : WSNNode) (members : gmap string (list string)) :
  node ∈ nodes → wfTopology nodes heads members →
  ∃ members',
    LEACH.assignStep nodes E heads node members = Returns members' ∧
    wfTopology nodes heads members'.
Proof.
  intros Hnode Hwf. unfold LEACH.assignStep.
  destruct (le0 _); [eauto|]. destruct (isBase node); [eauto|].
  destruct (LEACH.includes heads (id node)); [eauto|].
  destruct (nearest_returns node heads) as (d & nh & -> & Hnh).
  { intros h Hh. by apply Hwf. }
  simpl. destruct (String.eqb nh EmptyString) eqn:Heq; [eauto|].
  apply String.eqb_neq in Heq. destruct Hnh as [?|Hnh]; [done|].
  destruct Hwf as [Hheads Hmembers].
  destruct (Hheads nh Hnh) as [_ [ms Hms]]. rewrite Hms. simpl.
  eexists. split; [done|]. split.
  - intros h Hh. destruct (Hheads h Hh) as [Hid Hsome]. split; [done|].
    destruct (decide (nh = h)) as [->|Hne].
    + rewrite lookup_insert_eq. eauto.
    + by rewrite lookup_insert_ne.
  - intros h ms' m Hlook Hm. destruct (decide (nh = h)) as [->|Hne].
    + rewrite lookup_insert_eq in Hlook. injection Hlook as <-.
      apply elem_of_app in Hm as [Hm|Hm]; [eauto|].
      apply list_elem_of_singleton in Hm as ->.
      apply list_elem_of_fmap. eauto.
    + rewrite lookup_insert_ne in Hlook by done. eauto.
Qed.

Lemma clusterSend_returns (heads : list string)
    (members : gmap string (list string)) (h : string) (b : Sim.Books) :
  wfTopology nodes heads members → h ∈ heads →
  ∃ b', LEACH.clusterSend nodes config members h b = Returns b'.
Proof.
  intros [Hheads Hmembers] Hh. unfold LEACH.clusterSend.
  destruct (Hheads h Hh) as [Hid [ms Hms]]. rewrite Hms. simpl.
  destruct (forOf_returns (λ _, True) (LEACH.memberSend nodes config h) ms)
    with (s := b) as (b' & Hb' & _); [|done|eauto].
  intros m s Hm _. unfold LEACH.memberSend.
  destruct (findById_elem nodes m (Hmembers h ms m Hms Hm)) as (member & -> & _).
  destruct (findById_elem nodes h Hid) as (head & Hhead & _).
  simpl in Hhead. simpl. rewrite Hhead. simpl. eauto.
Qed.

Lemma headToBase_returns (heads : list string)
    (members : gmap string (list string)) (bs : WSNNode) (h : string)
    (b : Sim.Books) :
  wfTopology nodes heads members → h ∈ heads →
  ∃ b', LEACH.headToBase nodes config members (Some bs) h b = Returns b'.
Proof.
  intros [Hheads _] Hh. destruct (Hheads h Hh) as [Hid [ms Hms]].
  destruct (findById_elem nodes h Hid) as (head & Hhead & _).
  rewrite (headToBase_unconditional nodes config members h head bs ms b Hhead Hms).
  eauto.
Qed.

Lemma leach_executeRound_returns (bs : WSNNode) (round : Z) (E : gmap string Q)
    (calls : nat) :
  findBase nodes = Some bs →
  ∃ r, LEACH.executeRound random nodes config round E calls = Returns r.
Proof.
  intros Hbase. unfold LEACH.executeRound.
  pose proof (electHeads_wf E calls) as Hwf0.
  destruct (LEACH.electHeads random nodes config E calls) as [t0 c0].
  destruct (fallbackHead_returns E t0 c0 Hwf0) as (t & c & -> & Hwf). simpl.
  destruct (forOf_returns (wfTopology nodes (LEACH.clusterHeads t))
              (LEACH.assignStep nodes E (LEACH.clusterHeads t)) nodes)
    with (s := LEACH.clusterMembers t) as (members & -> & Hwf');
    [intros n m Hn Hm; by apply assignStep_returns | done |].
  simpl.
  destruct (forOf_returns (λ _, True)
              (LEACH.clusterSend nodes config members) (LEACH.clusterHeads t))
    with (s := {| Sim.energyUsage := ∅; Sim.nodeEnergy := E;
                  Sim.roundDataTransmitted := 0 |}) as (b1 & -> & _);
    [|done|].
  { intros h s Hh _.
    destruct (clusterSend_returns _ members h s Hwf' Hh) as [s' Hs']. eauto. }
  simpl. rewrite Hbase.
  destruct (forOf_returns (λ _, True)
              (LEACH.headToBase nodes config members (Some bs))
              (LEACH.clusterHeads t))
    with (s := b1) as (b2 & -> & _); [|done|].
  { intros h s Hh _.
    destruct (headToBase_returns _ members bs h s Hwf' Hh) as [s' Hs']. eauto. }
  simpl. eauto.
Qed.

(** With a base station in the list, and draws in [0, 1), [simulateLEACH]
    returns a result. *)
Lemma simulateLEACH_returns (bs : WSNNode) :
  findBase nodes = Some bs →
  ∃ res, LEACH.simulateLEACH random nodes config = Returns res.
Proof.
  intros Hbase. unfold LEACH.simulateLEACH, Sim.simulate, Sim.run.
  destruct (roundLoop_returns (LEACH.executeRound random nodes config) nodes)
    with (n := Z.to_nat (LEACH.rounds config)) (round := 1%Z)
         (st := Sim.initialState (T := LEACH.Topology) nodes
                  (LEACH.rounds config) (LEACH.initialEnergy config) 0%nat)
    as [st ->]; [|lia|simpl; eauto].
  intros round E x _. by eapply leach_executeRound_returns.
Qed.
End LeachReturns.

(** ** The round log *)

(** C1 (as amended).  The round log of either simulator has one entry per
    executed round and stops at the first round that ends with a dead node:
    its entries are numbered 1, 2, ... without gaps, there are at most
    [roundCount] of them, every entry but the last has all nodes alive, and
    there are exactly [roundCount] entries when no recorded round lost a
    node.  Rounds after the network has died are not appended.  Such a log
    is returned by [simulateLEACH] whenever the list has a base station
    (and the draws are in [0, 1)), and by [simulatePEGASIS] whenever the
    list has a non-base node or no base station. *)
Theorem rounds_log_stops_at_first_death `{MathHost} (random : nat → Q)
    (nodes : list WSNNode) (lconfig : LEACH.LEACHConfig)
    (pconfig : PEGASIS.PEGASISConfig) :
  whenReturns (logStopsAtFirstDeath nodes (LEACH.rounds lconfig))
    (LEACH.simulateLEACH random nodes lconfig) ∧
  whenReturns (logStopsAtFirstDeath nodes (PEGASIS.rounds pconfig))
    (PEGASIS.simulatePEGASIS nodes pconfig) ∧
  ((∀ k, (0 <= random k)%Q ∧ (random k < 1)%Q) →
   (∃ bs, findBase nodes = Some bs) →
   ∃ res, LEACH.simulateLEACH random nodes lconfig = Returns res) ∧
  (findBase nodes = None ∨ (∃ n, n ∈ nodes ∧ isBase n = false) →
   ∃ res, PEGASIS.simulatePEGASIS nodes pconfig = Returns res).
Proof.
  split; [|split; [|split]].
  - apply simulateLEACH_run. intros st. apply run_logStops.
  - apply simulatePEGASIS_run. intros chain st _. apply run_logStops.
  - intros Hrandom [bs Hbs]. by eapply simulateLEACH_returns.
  - apply simulatePEGASIS_returns.
Qed.

(** C1 on the sample network: both simulators return a log, of the shape
    described. *)
Lemma rounds_log_stops_at_first_death_witness :
  (∃ res, LEACH.simulateLEACH (H := Sample.host) Sample.half Sample.net3
            LEACH.DEFAULT_LEACH_CONFIG = Returns res ∧
          logStopsAtFirstDeath Sample.net3 20 res) ∧
  (∃ res, PEGASIS.simulatePEGASIS (H := Sample.host) Sample.net3
            PEGASIS.DEFAULT_PEGASIS_CONFIG = Returns res ∧
          logStopsAtFirstDeath Sample.net3 20 res).
Proof.
  destruct (rounds_log_stops_at_first_death (H := Sample.host) Sample.half
              Sample.net3 LEACH.DEFAULT_LEACH_CONFIG
              PEGASIS.DEFAULT_PEGASIS_CONFIG) as (Hl & Hp & Hlr & Hpr).
  split.
  - destruct Hlr as [res Hres].
    + intros k. split; vm_compute; [discriminate | reflexivity].
    + exists Sample.B. reflexivity.
    + exists res. split; [exact Hres|]. exact (whenReturns_elim _ _ _ Hl Hres).
  - destruct Hpr as [res Hres].
    + right. exists Sample.S1. split; [|reflexivity].
      apply list_elem_of_further, list_elem_of_here.
    + exists res. split; [exact Hres|]. exact (whenReturns_elim _ _ _ Hp Hres).
Defined.

(** C1, refuted as stated: with the default configurations (20 rounds) on a
    base station and two sensors, PEGASIS returns a log of 8 rounds and
    LEACH (every draw 0.5) a log of 6 rounds. *)
Lemma rounds_log_shorter_than_roundCount :
  (∃ res, PEGASIS.simulatePEGASIS (H := Sample.host) Sample.net3
            PEGASIS.DEFAULT_PEGASIS_CONFIG = Returns res ∧
          length (Sim.rounds res) = 8%nat ∧
          Z.to_nat (PEGASIS.rounds PEGASIS.DEFAULT_PEGASIS_CONFIG) = 20%nat) ∧
  (∃ res, LEACH.simulateLEACH (H := Sample.host) Sample.half Sample.net3
            LEACH.DEFAULT_LEACH_CONFIG = Returns res ∧
          length (Sim.rounds res) = 6%nat ∧
          Z.to_nat (LEACH.rounds LEACH.DEFAULT_LEACH_CONFIG) = 20%nat).
Proof.
  split.
  - eexists. split; [vm_compute; reflexivity|]. split; reflexivity.
  - eexists. split; [vm_compute; reflexivity|]. split; reflexivity.
Qed.

(** ** A result is not always returned *)

(** A list made of one base station whose id is the string "undefined":
    the chain is empty, the leader is [undefined], [nodeEnergy[undefined]]
    reads the entry of the base station, and the leader-to-base step reads
    the position of a node that [find] did not find. *)
Example pegasis_undefined_leader_throws :
  PEGASIS.simulatePEGASIS (H := Sample.host)
    [ {| id := "undefined"; position := Sample.here; type := base |} ]
    PEGASIS.DEFAULT_PEGASIS_CONFIG = Throws TypeError.
Proof. vm_compute. reflexivity. Qed.

(** ** Sums over ledgers *)

Lemma Qplus_swap (y z1 z2 : Q) : (y + z2 + z1 = y + z1 + z2)%Q.
Proof.
  destruct y as [yn yd], z1 as [n1 d1], z2 as [n2 d2]. unfold Qplus. simpl.
  f_equal; lia.
Qed.

Lemma sumValues_insert_fresh (m : gmap string Q) (k : string) (v : Q) :
  m !! k = None →
  Sim.sumValues (<[k := v]> m) 0 = (Sim.sumValues m 0 + v)%Q.
Proof.
  intros Hk. unfold Sim.sumValues.
  apply (map_fold_insert_L (λ _ v a, (a + v)%Q)); [|done].
  intros j1 j2 z1 z2 y _ _ _. apply Qplus_swap.
Qed.

Lemma sumValues_nonneg (m : gmap string Q) :
  (∀ k v, m !! k = Some v → (0 <= v)%Q) → (0 <= Sim.sumValues m 0)%Q.
Proof.
  induction m as [|k v m Hk _ IH] using map_first_key_ind.
  - intros _. unfold Sim.sumValues. rewrite map_fold_empty. lra.
  - intros Hall. rewrite sumValues_insert_fresh by done.
    assert (0 <= v)%Q by (apply (Hall k); by rewrite lookup_insert_eq).
    assert (0 <= Sim.sumValues m 0)%Q.
    { apply IH. intros j w Hj. apply (Hall j).
      rewrite lookup_insert_ne; [done|]. intros ->. congruence. }
    lra.
Qed.

Lemma sumQ_nonneg (l : list Q) : Forall (λ x, (0 <= x)%Q) l → (0 <= sumQ l)%Q.
Proof. induction 1 as [|x l Hx _ IH]; simpl; lra. Qed.

(** ** What the books of a round say *)

Section Built.
Variable K : string → Prop.
Variables C D : Q → Prop.

Lemma built_usage_keys (b0 b : Sim.Books) :
  built K C D b0 b →
  ∀ k, is_Some (Sim.energyUsage b !! k) → is_Some (Sim.energyUsage b0 !! k) ∨ K k.
Proof.
  induction 1 as [|k c b Hb IH Hk Hc|bits b Hb IH Hbits]; intros j Hj.
  - by left.
  - simpl in Hj. destruct (decide (k = j)) as [->|Hne]; [by right|].
    rewrite lookup_insert_ne in Hj by done. auto.
  - auto.
Qed.

Lemma built_usage_nonneg (b0 b : Sim.Books) :
  (∀ c, C c → (0 <= c)%Q) →
  (∀ k u, Sim.energyUsage b0 !! k = Some u → (0 <= u)%Q) →
  built K C D b0 b →
  ∀ k u, Sim.energyUsage b !! k = Some u → (0 <= u)%Q.
Proof.
  intros HC H0. induction 1 as [|k c b Hb IH Hk Hc|bits b Hb IH Hbits]; intros j u Hj.
  - eauto.
  - simpl in Hj. destruct (decide (k = j)) as [->|Hne].
    + rewrite lookup_insert_eq in Hj. injection Hj as <-.
      specialize (HC c Hc).
      destruct (Sim.energyUsage b !! j) as [v|] eqn:Hv; simpl; [|lra].
      specialize (IH j v Hv). lra.
    + rewrite lookup_insert_ne in Hj by done. eauto.
  - eauto.
Qed.

Lemma built_data_nonneg (b0 b : Sim.Books) :
  (∀ d, D d → (0 <= d)%Q) →
  (0 <= Sim.roundDataTransmitted b0)%Q →
  built K C D b0 b → (0 <= Sim.roundDataTransmitted b)%Q.
Proof.
  intros HD H0. induction 1 as [|k c b Hb IH Hk Hc|bits b Hb IH Hbits]; simpl.
  - done.
  - done.
  - specialize (HD bits Hbits). lra.
Qed.
End Built.

Lemma cost_nonneg (e size c d : Q) :
  (0 <= e)%Q → (0 <= size)%Q → (0 <= c)%Q → (0 <= d)%Q →
  (0 <= e * size * (1 + c * d))%Q.
Proof.
  intros He Hs Hc Hd. repeat apply Qmult_le_0_compat; try done.
  pose proof (Qmult_le_0_compat _ _ Hc Hd). lra.
Qed.

Lemma findById_Some (nodes : list WSNNode) (v : option string) (n : WSNNode) :
  findById nodes v = Some n → v = Some (id n) ∧ n ∈ nodes.
Proof.
  destruct v as [s|]; simpl; [|done]. intros Hf.
  apply find_some in Hf as [Hin Heq]. apply String.eqb_eq in Heq.
  split; [by rewrite Heq | by apply list_elem_of_In].
Qed.

Lemma findById_Some_id (nodes : list WSNNode) (s : string) (n : WSNNode) :
  findById nodes (Some s) = Some n → s ∈ map id nodes.
Proof.
  intros Hf. apply findById_Some in Hf as [[= ->] Hn].
  apply list_elem_of_fmap. eauto.
Qed.

Lemma arrayGet_Some_elem {A : Type} (arr : list A) (i : Z) (x : A) :
  arrayGet arr i = Some x → x ∈ arr.
Proof.
  unfold arrayGet. destruct (i <? 0)%Z; [done|]. apply list_elem_of_lookup_2.
Qed.

(** ** The books of a PEGASIS round *)

Section PegasisBuilt.
Context `{MathHost}.
Variable nodes : list WSNNode.
Variable config : PEGASIS.PEGASISConfig.
Variable chain : list string.

Abbreviation pegasisCost :=
  (nonnegIf (PEGASIS.transmitEnergy config) (PEGASIS.receiveEnergy config)
     (PEGASIS.dataSize config)).
Abbreviation pegasisKey := (λ k : string, k ∈ chain ∧ k ∈ map id nodes).

Lemma selectLeader_Some_elem (round : Z) (E : gmap string Q) (c : string) :
  PEGASIS.selectLeader config chain round E = Some c → c ∈ chain.
Proof.
  unfold PEGASIS.selectLeader. destruct (PEGASIS.leaderSelectionMethod config).
  - destruct (_ =? 0)%Z; [done|]. apply arrayGet_Some_elem.
  - assert (∀ l acc,
              (∀ x, x ∈ l → x ∈ chain) → (∀ x, acc = Some x → x ∈ chain) →
              fold_left
                (λ maxId nodeId,
                   if gt (E !! nodeId) (E !! propKey maxId)
                   then Some nodeId else maxId) l acc = Some c →
              c ∈ chain) as Hfold.
    { induction l as [|x l IH]; intros acc Hl Hacc; simpl; [auto|].
      apply IH; [intros y Hy; apply Hl; by right|].
      destruct (gt _ _); [|done]. intros y [= <-]. apply Hl. by left. }
    apply Hfold; [done|]. intros x Hx. by eapply list_elem_of_lookup_2.
Qed.

Lemma pegasis_hop_built (b0 b b' : Sim.Books) (senderId receiverId : option string) :
  (∀ s, senderId = Some s → s ∈ chain) →
  (∀ r, receiverId = Some r → r ∈ chain) →
  built pegasisKey pegasisCost pegasisCost b0 b →
  PEGASIS.hop nodes config senderId receiverId b = Returns b' →
  built pegasisKey pegasisCost pegasisCost b0 b'.
Proof.
  intros Hs Hr Hb. unfold PEGASIS.hop.
  destruct (le0 (Sim.nodeEnergy b !! propKey senderId)); [by intros [= <-]|].
  destruct (findById nodes senderId) as [sender|] eqn:Hsender; simpl; [|done].
  destruct (findById nodes receiverId) as [receiver|] eqn:Hreceiver; simpl; [|done].
  apply findById_Some in Hsender as [-> Hsn].
  apply findById_Some in Hreceiver as [-> Hrn]. cbn [propKey].
  match goal with |- context [Sim.spend (id sender) ?c b] =>
    assert (built pegasisKey pegasisCost pegasisCost b0 (Sim.spend (id sender) c b))
      as Hb1
  end.
  { constructor; [done| |].
    - split; [by apply Hs|]. apply list_elem_of_fmap. eauto.
    - intros Ht Hre Hsz Hd. apply cost_nonneg; [done|done|lra|apply Hd]. }
  match goal with |- (if ?c then _ else _) = _ → _ => destruct c end.
  - by intros [= <-].
  - intros [= <-]. constructor; [|by intros ? ? ? ?].
    constructor; [done| |].
    + split; [by apply Hr|]. apply list_elem_of_fmap. eauto.
    + intros Ht Hre Hsz Hd. by apply Qmult_le_0_compat.
Qed.

Lemma pegasis_executeRound_built (baseStation : option WSNNode) (round : Z)
    (E : gmap string Q) (x x' : unit) (t : PEGASIS.Topology) (b : Sim.Books) :
  PEGASIS.executeRound nodes config baseStation chain round E x = Returns (t, b, x') →
  built pegasisKey pegasisCost pegasisCost (openBooks E) b.
Proof.
  unfold PEGASIS.executeRound. intros Hex.
  apply bind_Returns in Hex as (b1 & H1 & Hex).
  apply bind_Returns in Hex as (b2 & H2 & Hex).
  apply bind_Returns in Hex as (b3 & H3 & Hex).
  injection Hex as _ <- _.
  assert (built pegasisKey pegasisCost pegasisCost (openBooks E) b1) as Hb1.
  { eapply (forOf_invariant
              (built pegasisKey pegasisCost pegasisCost (openBooks E)));
      [| |exact H1]; [|constructor].
    intros i s s' _ Hs Hhop.
    eapply pegasis_hop_built; [| |exact Hs|exact Hhop];
      intros c Hc; by eapply arrayGet_Some_elem. }
  assert (built pegasisKey pegasisCost pegasisCost (openBooks E) b2) as Hb2.
  { eapply (forOf_invariant
              (built pegasisKey pegasisCost pegasisCost (openBooks E)));
      [| |exact H2]; [|done].
    intros i s s' _ Hs Hhop.
    eapply pegasis_hop_built; [| |exact Hs|exact Hhop];
      intros c Hc; by eapply arrayGet_Some_elem. }
  unfold PEGASIS.leaderToBase in H3.
  destruct baseStation as [bs|]; [|by injection H3 as <-].
  destruct (gt0 _); [|by injection H3 as <-].
  destruct (findById nodes _) as [leaderNode|] eqn:Hleader; simpl in H3; [|done].
  injection H3 as H3. subst b3.
  pose proof Hleader as Hfound. apply findById_Some in Hleader as [Hl Hln].
  rewrite Hl. cbn [propKey].
  constructor.
  - constructor; [done| |].
    + split; [by eapply selectLeader_Some_elem|]. apply list_elem_of_fmap. eauto.
    + intros Ht Hre Hsz Hd. apply cost_nonneg; [done| |lra|apply Hd].
      apply Qmult_le_0_compat; lra.
  - intros Ht Hre Hsz Hd. apply Qmult_le_0_compat; lra.
Qed.
End PegasisBuilt.

(** ** The books of a LEACH round *)

Section LeachBuilt.
Context `{MathHost}.
Variable random : nat → Q.
Variable nodes : list WSNNode.
Variable config : LEACH.LEACHConfig.

Abbreviation leachCost :=
  (nonnegIf (LEACH.transmitEnergy config) (LEACH.receiveEnergy config)
     (LEACH.dataSize config)).

(** The heads and the members of a topology. *)
Abbreviation leachKey t :=
  (λ k : string,
     k ∈ map id nodes ∧
     (k ∈ LEACH.clusterHeads t ∨
      ∃ h ms, LEACH.clusterMembers t !! h = Some ms ∧ k ∈ ms)).

Lemma leach_executeRound_built (round : Z) (E : gmap string Q) (calls calls' : nat)
    (t : LEACH.Topology) (b : Sim.Books) :
  LEACH.executeRound random nodes config round E calls = Returns (t, b, calls') →
  built (leachKey t) leachCost leachCost (openBooks E) b.
Proof.
  unfold LEACH.executeRound. intros Hex.
  apply bind_Returns in Hex as ([t1 c1] & _ & Hex).
  apply bind_Returns in Hex as (members & _ & Hex).
  apply bind_Returns in Hex as (b1 & H1 & Hex).
  apply bind_Returns in Hex as (b2 & H2 & Hex).
  injection Hex as <- <- _.
  set (t := {| LEACH.clusterHeads := LEACH.clusterHeads t1;
               LEACH.clusterMembers := members |}).
  assert (built (leachKey t) leachCost leachCost (openBooks E) b1) as Hb1.
  { eapply (forOf_invariant (built (leachKey t) leachCost leachCost (openBooks E)));
      [| |exact H1]; [|constructor].
    intros h s s' Hh Hs. unfold LEACH.clusterSend.
    destruct (members !! h) as [ms|] eqn:Hms; simpl; [|done].
    apply (forOf_invariant (built (leachKey t) leachCost leachCost (openBooks E)));
      [|done].
    intros m u u' Hm Hu. unfold LEACH.memberSend.
    destruct (findById nodes (Some m)) as [member|] eqn:Hmember; simpl; [|done].
    destruct (List.find _ nodes) as [head|] eqn:Hhead; simpl; [|done].
    intros [= <-].
    apply findById_Some_id in Hmember.
    assert (h ∈ map id nodes) as Hhid by (by eapply (findById_Some_id nodes h head)).
    constructor; [|by intros ? ? ? ?].
    constructor.
    - constructor; [done| |].
      + split; [done|]. right. exists h, ms. by split.
      + intros Ht Hre Hsz Hd. apply cost_nonneg; [done|done|lra|apply Hd].
    - split; [done|]. by left.
    - intros Ht Hre Hsz Hd. by apply Qmult_le_0_compat. }
  eapply (forOf_invariant (built (leachKey t) leachCost leachCost (openBooks E)));
    [| |exact H2]; [|done].
  intros h s s' Hh Hs. unfold LEACH.headToBase.
  destruct (findById nodes (Some h)) as [head|] eqn:Hhead; simpl; [|done].
  destruct (findBase nodes) as [bs|]; simpl; [|done].
  destruct (members !! h) as [ms|]; simpl; [|done].
  intros [= <-]. apply findById_Some_id in Hhead.
  assert (0 <= inject_Z (Z.of_nat (length ms)))%Q as Hn.
  { change 0%Q with (inject_Z 0). rewrite <- Zle_Qle. lia. }
  constructor.
  - constructor; [done| |].
    + split; [done|]. by left.
    + intros Ht Hre Hsz Hd. apply cost_nonneg; [done| |lra|apply Hd].
      apply Qmult_le_0_compat; lra.
  - intros Ht Hre Hsz Hd. apply Qmult_le_0_compat; lra.
Qed.
End LeachBuilt.

(** ** The data metric *)

(** X1.  The data-delivered metric of either simulator is the sum of the
    [dataTransmitted] values of the rounds of the returned log. *)
Theorem data_delivered_reconciles `{MathHost} (random : nat → Q)
    (nodes : list WSNNode) (lconfig : LEACH.LEACHConfig)
    (pconfig : PEGASIS.PEGASISConfig) :
  whenReturns
    (λ res, (Sim.dataDelivered (Sim.metrics res) ==
             sumQ (map Sim.dataTransmitted (Sim.rounds res)))%Q)
    (LEACH.simulateLEACH random nodes lconfig) ∧
  whenReturns
    (λ res, (Sim.dataDelivered (Sim.metrics res) ==
             sumQ (map Sim.dataTransmitted (Sim.rounds res)))%Q)
    (PEGASIS.simulatePEGASIS nodes pconfig).
Proof.
  split.
  - apply simulateLEACH_run. intros st Hrun.
    by apply sumsAgree_run in Hrun as [_ Hd].
  - apply simulatePEGASIS_run. intros chain st _ Hrun.
    by apply sumsAgree_run in Hrun as [_ Hd].
Qed.

(** ** Nothing negative is recorded *)

Lemma built_round_nonneg `{MathHostSpec} (K : string → Prop)
    (transmitEnergy receiveEnergy dataSize : Q) (E : gmap string Q) (b : Sim.Books) :
  (0 <= transmitEnergy)%Q → (0 <= receiveEnergy)%Q → (0 <= dataSize)%Q →
  built K (nonnegIf transmitEnergy receiveEnergy dataSize)
    (nonnegIf transmitEnergy receiveEnergy dataSize) (openBooks E) b →
  (∀ k u, Sim.energyUsage b !! k = Some u → (0 <= u)%Q) ∧
  (0 <= Sim.roundDataTransmitted b)%Q.
Proof.
  intros Ht Hr Hs Hb.
  assert (∀ c, nonnegIf transmitEnergy receiveEnergy dataSize c → (0 <= c)%Q) as Hc.
  { intros c Hc. apply Hc; try done. apply calculateDistance_nonneg. }
  split.
  - eapply built_usage_nonneg; [exact Hc| |exact Hb].
    intros k u Hk. simpl in Hk. by rewrite lookup_empty in Hk.
  - eapply built_data_nonneg; [exact Hc| |exact Hb]. simpl. lra.
Qed.

(** What a log without negative records looks like. *)
Lemma log_nonneg {T X : Type}
    (executeRound : Z → gmap string Q → X → outcome (T * Sim.Books * X))
    (nodes : list WSNNode) (configRounds : Z) (initialEnergy : Q) (x0 : X)
    (st : Sim.RunState T X) :
  (∀ round E x topo b x',
     executeRound round E x = Returns (topo, b, x') →
     (∀ k u, Sim.energyUsage b !! k = Some u → (0 <= u)%Q) ∧
     (0 <= Sim.roundDataTransmitted b)%Q) →
  Sim.run executeRound nodes configRounds initialEnergy x0 = Returns st →
  let res := Sim.finish nodes st in
  Forall (λ r, (∀ k u, Sim.roundEnergyUsage r !! k = Some u → (0 <= u)%Q) ∧
               (0 <= roundEnergy r)%Q ∧ (0 <= Sim.dataTransmitted r)%Q)
    (Sim.rounds res) ∧
  (0 <= Sim.energyConsumption (Sim.metrics res))%Q ∧
  (0 <= Sim.dataDelivered (Sim.metrics res))%Q.
Proof.
  intros Hbody Hrun res.
  assert (Forall (λ r, (∀ k u, Sim.roundEnergyUsage r !! k = Some u → (0 <= u)%Q) ∧
                       (0 <= roundEnergy r)%Q ∧ (0 <= Sim.dataTransmitted r)%Q)
            (Sim.rounds res)) as Hlog.
  { pose proof (run_recorded _ _ _ _ _ _ Hrun) as Hrec.
    eapply Forall_impl; [exact Hrec|].
    intros r (E & x & b & x' & _ & Hex & Hu & _ & Hd).
    destruct (Hbody _ _ _ _ _ _ Hex) as [Hun Hdn].
    rewrite Hu, Hd. split; [done|]. split; [|done].
    unfold roundEnergy. rewrite Hu. by apply sumValues_nonneg. }
  split; [done|].
  apply sumsAgree_run in Hrun as [He Hd]. simpl. rewrite He, Hd.
  split; apply sumQ_nonneg, Forall_fmap; (eapply Forall_impl; [exact Hlog|]);
    simpl; intros r (_ & ? & ?); done.
Qed.

(** X4.  With non-negative [transmitEnergy], [receiveEnergy] and
    [dataSize], and a square root that is never negative, neither simulator
    records a negative number: every [energyUsage] value, every round's
    energy and [dataTransmitted], and the two totals of the metrics are at
    least zero. *)
Theorem recorded_energy_and_data_are_nonnegative `{MathHostSpec}
    (random : nat → Q) (nodes : list WSNNode) (lconfig : LEACH.LEACHConfig)
    (pconfig : PEGASIS.PEGASISConfig)
    (Hleach : (0 <= LEACH.transmitEnergy lconfig)%Q ∧
              (0 <= LEACH.receiveEnergy lconfig)%Q ∧
              (0 <= LEACH.dataSize lconfig)%Q)
    (Hpegasis : (0 <= PEGASIS.transmitEnergy pconfig)%Q ∧
                (0 <= PEGASIS.receiveEnergy pconfig)%Q ∧
                (0 <= PEGASIS.dataSize pconfig)%Q) :
  whenReturns
    (λ res,
       Forall (λ r, (∀ k u, Sim.roundEnergyUsage r !! k = Some u → (0 <= u)%Q) ∧
                    (0 <= roundEnergy r)%Q ∧ (0 <= Sim.dataTransmitted r)%Q)
         (Sim.rounds res) ∧
       (0 <= Sim.energyConsumption (Sim.metrics res))%Q ∧
       (0 <= Sim.dataDelivered (Sim.metrics res))%Q)
    (LEACH.simulateLEACH random nodes lconfig) ∧
  whenReturns
    (λ res,
       Forall (λ r, (∀ k u, Sim.roundEnergyUsage r !! k = Some u → (0 <= u)%Q) ∧
                    (0 <= roundEnergy r)%Q ∧ (0 <= Sim.dataTransmitted r)%Q)
         (Sim.rounds res) ∧
       (0 <= Sim.energyConsumption (Sim.metrics res))%Q ∧
       (0 <= Sim.dataDelivered (Sim.metrics res))%Q)
    (PEGASIS.simulatePEGASIS nodes pconfig).
Proof.
  destruct Hleach as (Hlt & Hlr & Hls). destruct Hpegasis as (Hpt & Hpr & Hps).
  split.
  - apply simulateLEACH_run. intros st Hrun.
    eapply log_nonneg; [|exact Hrun].
    intros round E x topo b x' Hex. apply leach_executeRound_built in Hex.
    exact (built_round_nonneg _ _ _ _ _ _ Hlt Hlr Hls Hex).
  - apply simulatePEGASIS_run. intros chain st _ Hrun.
    eapply log_nonneg; [|exact Hrun].
    intros round E x topo b x' Hex. apply pegasis_executeRound_built in Hex.
    exact (built_round_nonneg _ _ _ _ _ _ Hpt Hpr Hps Hex).
Qed.

(** X4 on the sample network and the default configurations. *)
Lemma recorded_energy_and_data_are_nonnegative_witness :
  whenReturns
    (λ res, (0 <= Sim.energyConsumption (Sim.metrics res))%Q ∧
            (0 <= Sim.dataDelivered (Sim.metrics res))%Q)
    (LEACH.simulateLEACH (H := Sample.host) Sample.half Sample.net3
       LEACH.DEFAULT_LEACH_CONFIG) ∧
  whenReturns
    (λ res, (0 <= Sim.energyConsumption (Sim.metrics res))%Q ∧
            (0 <= Sim.dataDelivered (Sim.metrics res))%Q)
    (PEGASIS.simulatePEGASIS (H := Sample.host) Sample.net3
       PEGASIS.DEFAULT_PEGASIS_CONFIG).
Proof.
  assert ((0 <= 0.000050)%Q ∧ (0 <= 0.000025)%Q ∧ (0 <= 4000)%Q) as Hc
    by (repeat split; vm_compute; discriminate).
  destruct (recorded_energy_and_data_are_nonnegative (H := Sample.host)
              (H0 := Sample_host_spec) Sample.half Sample.net3 LEACH.DEFAULT_LEACH_CONFIG
              PEGASIS.DEFAULT_PEGASIS_CONFIG Hc Hc) as [Hl Hp].
  split.
  - apply whenReturns_intro. intros res Hres.
    exact (proj2 (whenReturns_elim _ _ _ Hl Hres)).
  - apply whenReturns_intro. intros res Hres.
    exact (proj2 (whenReturns_elim _ _ _ Hp Hres)).
Defined.

(** ** The clusters of a LEACH round *)

Lemma nonBaseIds_elem (nodes : list WSNNode) (n : WSNNode) :
  n ∈ nodes → isBase n = false → id n ∈ nonBaseIds nodes.
Proof.
  intros Hn Hnb. apply list_elem_of_fmap. exists n. split; [done|].
  apply list_elem_of_In, filter_In. split; [by apply list_elem_of_In|].
  by rewrite Hnb.
Qed.


Lemma includes_false (l : list string) (s : string) :
  LEACH.includes l s = false ↔ s ∉ l.
Proof.
  unfold LEACH.includes. induction l as [|x l IH]; simpl.
  - split; [intros _ Hin; by apply elem_of_nil in Hin | done].
  - rewrite orb_false_iff, IH, not_elem_of_cons. split.
    + intros [Hx Hl]. apply String.eqb_neq in Hx. done.
    + intros [Hx Hl]. split; [by apply String.eqb_neq | done].
Qed.

Lemma forOf_app_Returns {A S : Type} (body : A → S → outcome S) (l1 l2 : list A)
    (s s' : S) :
  forOf body (l1 ++ l2) s = Returns s' ↔
  ∃ s1, forOf body l1 s = Returns s1 ∧ forOf body l2 s1 = Returns s'.
Proof.
  revert s. induction l1 as [|x l1 IH]; intros s; simpl.
  - split; [eauto | by intros (s1 & [= <-] & ?)].
  - rewrite bind_Returns. split.
    + intros (s0 & Hx & Hrest). apply IH in Hrest as (s1 & H1 & H2).
      exists s1. split; [|done]. rewrite Hx. exact H1.
    + intros (s1 & H1 & H2). apply bind_Returns in H1 as (s0 & Hx & H1).
      exists s0. split; [done|]. apply IH. eauto.
Qed.

Section Clusters.
Context `{MathHost}.
Variable random : nat → Q.
Variable nodes : list WSNNode.
Variable config : LEACH.LEACHConfig.

Abbreviation electOK := (electOK nodes).

Lemma electOK_add (t : LEACH.Topology) (h : string) :
  h ∈ nonBaseIds nodes → electOK t →
  electOK {| LEACH.clusterHeads := LEACH.clusterHeads t ++ [h];
             LEACH.clusterMembers := <[h := []]> (LEACH.clusterMembers t) |}.
Proof.
  intros Hh (Hheads & Hdom & Hempty). split; [|split]; simpl.
  - intros h' Hh'. apply elem_of_app in Hh' as [Hh'|Hh']; [auto|].
    by apply list_elem_of_singleton in Hh' as ->.
  - intros h'. rewrite elem_of_app, list_elem_of_singleton.
    destruct (decide (h = h')) as [->|Hne].
    + rewrite lookup_insert_eq. split; [by right | eauto].
    + rewrite lookup_insert_ne by done. rewrite Hdom. split; [by left|].
      intros [?|?]; [done | congruence].
  - intros h' ms. destruct (decide (h = h')) as [->|Hne].
    + rewrite lookup_insert_eq. by intros [= <-].
    + rewrite lookup_insert_ne by done. apply Hempty.
Qed.

Lemma electHeads_electOK (E : gmap string Q) (calls : nat) :
  electOK (LEACH.electHeads random nodes config E calls).1.
Proof.
  unfold LEACH.electHeads.
  assert (∀ l acc,
            (∀ n, n ∈ l → n ∈ nodes) → electOK acc.1 →
            electOK (fold_left (LEACH.electStep random config E) l acc).1) as Hfold.
  { induction l as [|n l IH]; intros [t c] Hl Hok; simpl; [done|].
    apply IH; [intros m Hm; apply Hl; by right|].
    destruct (le0 _); [done|]. destruct (isBase n) eqn:Hnb; [done|].
    destruct (Qltb _ _); [|done]. simpl.
    apply electOK_add; [|done]. apply nonBaseIds_elem; [|done]. apply Hl. by left. }
  apply Hfold; [done|]. simpl. split; [|split]; simpl.
  - intros h Hh. by apply elem_of_nil in Hh.
  - intros h. rewrite lookup_empty. split; [by intros [? ?]|].
    intros Hh. by apply elem_of_nil in Hh.
  - intros h ms. by rewrite lookup_empty.
Qed.

Lemma fallbackHead_electOK (E : gmap string Q) (t0 t : LEACH.Topology)
    (calls0 calls : nat) :
  LEACH.fallbackHead random nodes E (t0, calls0) = Returns (t, calls) →
  electOK t0 → electOK t.
Proof.
  unfold LEACH.fallbackHead.
  destruct (length (LEACH.clusterHeads t0) =? 0)%nat; [|by intros [= <- <-]].
  destruct (0 <? length _)%nat; [|by intros [= <- <-]].
  destruct (arrayGet _ _) as [sel|] eqn:Hsel; simpl; [|done].
  intros [= <- <-] Hok. apply electOK_add; [|done].
  apply arrayGet_Some_elem in Hsel.
  apply list_elem_of_fmap in Hsel as (n & -> & Hn).
  apply list_elem_of_In, filter_In in Hn as [Hn Hcond].
  apply andb_true_iff in Hcond as [_ Hnb]. apply negb_true_iff in Hnb.
  apply nonBaseIds_elem; [by apply list_elem_of_In | done].
Qed.

Lemma nearest_in_heads (node : WSNNode) (heads : list string) (d : option Q)
    (nh : string) :
  forOf (LEACH.nearestStep nodes node) heads (None, EmptyString) = Returns (d, nh) →
  nh = EmptyString ∨ nh ∈ heads.
Proof.
  intros Hrun.
  apply (forOf_invariant
           (λ acc : option Q * string, acc.2 = EmptyString ∨ acc.2 ∈ heads)
           (LEACH.nearestStep nodes node) heads) in Hrun; [done| |by left].
  intros h [d0 nh0] [d1 nh1] Hh Hacc. unfold LEACH.nearestStep.
  destruct (findById nodes (Some h)); simpl; [|done].
  destruct (match d0 with None => true | Some m => Qltb _ m end).
  - intros [= <- <-]. by right.
  - by intros [= <- <-].
Qed.

Lemma assignStep_topologyOK (E : gmap string Q) (heads : list string)
    (node : WSNNode) (members members' : gmap string (list string)) :
  node ∈ nodes →
  LEACH.assignStep nodes E heads node members = Returns members' →
  topologyOK nodes heads members → topologyOK nodes heads members'.
Proof.
  intros Hnode. unfold LEACH.assignStep.
  destruct (le0 _); [by intros [= <-]|].
  destruct (isBase node) eqn:Hnb; [by intros [= <-]|].
  destruct (LEACH.includes heads (id node)) eqn:Hinc; [by intros [= <-]|].
  apply includes_false in Hinc.
  destruct (forOf _ heads _) as [[d nh]|e] eqn:Hnear; simpl; [|done].
  destruct (String.eqb nh EmptyString) eqn:Heq; [by intros [= <-]|].
  apply String.eqb_neq in Heq.
  apply nearest_in_heads in Hnear as [?|Hnh]; [done|].
  destruct (members !! nh) as [ms|] eqn:Hms; simpl; [|done].
  intros [= <-] (Hheads & Hdom & Hmem). split; [done|]. split.
  - intros h. destruct (decide (nh = h)) as [->|Hne].
    + rewrite lookup_insert_eq. split; [done | eauto].
    + by rewrite lookup_insert_ne.
  - intros h ms' m. destruct (decide (nh = h)) as [->|Hne].
    + rewrite lookup_insert_eq. intros [= <-] Hm.
      apply elem_of_app in Hm as [Hm|Hm]; [eauto|].
      apply list_elem_of_singleton in Hm as ->.
      split; [done|]. by apply nonBaseIds_elem.
    + rewrite lookup_insert_ne by done. apply Hmem.
Qed.

Lemma executeRound_topologyOK (round : Z) (E : gmap string Q) (calls calls' : nat)
    (t : LEACH.Topology) (b : Sim.Books) :
  LEACH.executeRound random nodes config round E calls = Returns (t, b, calls') →
  topologyOK nodes (LEACH.clusterHeads t) (LEACH.clusterMembers t).
Proof.
  unfold LEACH.executeRound. intros Hex.
  apply bind_Returns in Hex as ([t1 c1] & Hfb & Hex).
  apply bind_Returns in Hex as (members & Hassign & Hex).
  apply bind_Returns in Hex as (b1 & _ & Hex).
  apply bind_Returns in Hex as (b2 & _ & Hex).
  injection Hex as <- _ _. simpl.
  pose proof (electHeads_electOK E calls) as Hok0.
  destruct (LEACH.electHeads random nodes config E calls) as [t0 c0].
  apply fallbackHead_electOK in Hfb; [|done].
  destruct Hfb as (Hheads & Hdom & Hempty).
  eapply (forOf_invariant (topologyOK nodes (LEACH.clusterHeads t1)));
    [| |exact Hassign].
  - intros n m m' Hn Hm Hstep. by eapply assignStep_topologyOK.
  - split; [done|]. split; [done|]. intros h ms m Hms Hm.
    rewrite (Hempty h ms Hms) in Hm. by apply elem_of_nil in Hm.
Qed.
End Clusters.

(** X5.  In every round recorded by [simulateLEACH] the cluster heads are
    ids of non-base nodes of the list, the member map has exactly the heads
    as keys, and every member is the id of a non-base node that is not a
    head of the round. *)
Theorem leach_clusters_are_well_formed `{MathHost} (random : nat → Q)
    (nodes : list WSNNode) (config : LEACH.LEACHConfig) :
  whenReturns
    (λ res,
       Forall (λ r, topologyOK nodes (LEACH.clusterHeads (Sim.topology r))
                      (LEACH.clusterMembers (Sim.topology r)))
         (Sim.rounds res))
    (LEACH.simulateLEACH random nodes config).
Proof.
  apply simulateLEACH_run. intros st Hrun.
  apply run_recorded in Hrun. eapply Forall_impl; [exact Hrun|].
  intros r (E & x & b & x' & _ & Hex & _).
  by eapply executeRound_topologyOK.
Qed.

(** X6.  In every round recorded by either simulator, only ids of non-base
    nodes have an [energyUsage] entry: a base station whose id no other
    node shares is never charged. *)
Theorem only_non_base_nodes_are_charged `{MathHost} (random : nat → Q)
    (nodes : list WSNNode) (lconfig : LEACH.LEACHConfig)
    (pconfig : PEGASIS.PEGASISConfig) :
  whenReturns
    (λ res, Forall (λ r, ∀ k, is_Some (Sim.roundEnergyUsage r !! k) →
                              k ∈ nonBaseIds nodes)
              (Sim.rounds res))
    (LEACH.simulateLEACH random nodes lconfig) ∧
  whenReturns
    (λ res, Forall (λ r, ∀ k, is_Some (Sim.roundEnergyUsage r !! k) →
                              k ∈ nonBaseIds nodes)
              (Sim.rounds res))
    (PEGASIS.simulatePEGASIS nodes pconfig).
Proof.
  split.
  - apply simulateLEACH_run. intros st Hrun.
    apply run_recorded in Hrun. eapply Forall_impl; [exact Hrun|].
    intros r (E & x & b & x' & _ & Hex & Hu & _) k Hk. rewrite Hu in Hk.
    pose proof (executeRound_topologyOK _ _ _ _ _ _ _ _ _ Hex)
      as (Hheads & _ & Hmem).
    apply leach_executeRound_built in Hex.
    destruct (built_usage_keys _ _ _ _ _ Hex k Hk)
      as [Hc|[_ [Hh|(h & ms & Hms & Hm)]]].
    + simpl in Hc. rewrite lookup_empty in Hc. by destruct Hc.
    + auto.
    + by apply (Hmem h ms k Hms Hm).
  - apply simulatePEGASIS_run. intros chain st Hchain Hrun.
    destruct (constructGreedyChain_spec
                (List.filter (λ node, negb (isBase node)) nodes))
      as (chain' & Hchain' & Hperm).
    rewrite Hchain in Hchain'. injection Hchain' as <-.
    apply run_recorded in Hrun. eapply Forall_impl; [exact Hrun|].
    intros r (E & x & b & x' & _ & Hex & Hu & _) k Hk. rewrite Hu in Hk.
    apply pegasis_executeRound_built in Hex.
    destruct (built_usage_keys _ _ _ _ _ Hex k Hk) as [Hc|[Hin _]].
    + simpl in Hc. rewrite lookup_empty in Hc. by destruct Hc.
    + unfold nonBaseIds. by rewrite <- Hperm.
Qed.

(** ** Members go to the nearest head *)

Section Nearest.
Context `{MathHost}.
Variable nodes : list WSNNode.
Variable node : WSNNode.

Abbreviation dist head := (calculateDistance (position node) (position head)).

(** The scan, from a state in which [m] is the nearest head so far. *)
Lemma nearest_scan (l pre mid : list string) (m : string) (head : WSNNode)
    (d : option Q) (nh : string) :
  findById nodes (Some m) = Some head →
  (∀ h, h ∈ pre →
        ∃ hd, findById nodes (Some h) = Some hd ∧ (dist head < dist hd)%Q) →
  (∀ h, h ∈ mid →
        ∃ hd, findById nodes (Some h) = Some hd ∧ (dist head <= dist hd)%Q) →
  forOf (LEACH.nearestStep nodes node) l (Some (dist head), m) = Returns (d, nh) →
  firstNearest nodes node (pre ++ m :: mid ++ l) nh.
Proof.
  revert pre mid m head.
  induction l as [|x l IH]; intros pre mid m head Hm Hpre Hmid Hrun.
  - simpl in Hrun. injection Hrun as _ <-.
    exists pre, (mid ++ []), head. split; [done|]. split; [done|]. split; [done|].
    intros h Hh. rewrite app_nil_r in Hh. auto.
  - cbn [forOf] in Hrun. apply bind_Returns in Hrun as ([d1 m1] & Hstep & Hrun).
    unfold LEACH.nearestStep in Hstep.
    destruct (findById nodes (Some x)) as [hx|] eqn:Hx; simpl in Hstep; [|done].
    destruct (Qltb (dist hx) (dist head)) eqn:Hcmp.
    + injection Hstep as <- <-. apply Qltb_lt in Hcmp.
      specialize (IH (pre ++ m :: mid) [] x hx Hx).
      rewrite <- app_assoc in IH. simpl in IH. apply IH; [| |exact Hrun].
      * intros h Hh. apply elem_of_app in Hh as [Hh|Hh].
        -- destruct (Hpre h Hh) as (hd & Hhd & Hlt). exists hd. split; [done|lra].
        -- apply elem_of_cons in Hh as [->|Hh].
           ++ exists head. by split.
           ++ destruct (Hmid h Hh) as (hd & Hhd & Hle). exists hd. split; [done|lra].
      * intros h Hh. by apply elem_of_nil in Hh.
    + injection Hstep as <- <-. apply Qltb_ge in Hcmp.
      specialize (IH pre (mid ++ [x]) m head Hm Hpre).
      rewrite <- app_assoc in IH. simpl in IH. apply IH; [|exact Hrun].
      intros h Hh. apply elem_of_app in Hh as [Hh|Hh]; [by apply Hmid|].
      apply list_elem_of_singleton in Hh as ->. exists hx. by split.
Qed.

Lemma nearest_spec (heads : list string) (d : option Q) (nh : string) :
  heads ≠ [] →
  forOf (LEACH.nearestStep nodes node) heads (None, EmptyString) = Returns (d, nh) →
  firstNearest nodes node heads nh.
Proof.
  destruct heads as [|h0 rest]; [done|]. intros _ Hrun.
  cbn [forOf] in Hrun. apply bind_Returns in Hrun as ([d1 m1] & Hstep & Hrun).
  unfold LEACH.nearestStep in Hstep.
  destruct (findById nodes (Some h0)) as [head|] eqn:Hhead; simpl in Hstep; [|done].
  injection Hstep as <- <-.
  apply (nearest_scan rest [] [] h0 head d nh Hhead); [| |exact Hrun];
    intros h Hh; by apply elem_of_nil in Hh.
Qed.
End Nearest.

Section Assignment.
Context `{MathHost}.
Variable nodes : list WSNNode.
Variable E : gmap string Q.
Variable heads : list string.
Hypothesis Hheads : heads ≠ [].
Hypothesis Hnames : EmptyString ∉ heads.

(** The node is listed under one of its nearest heads. *)
Abbreviation listed node members :=
  (∃ h ms, members !! h = Some ms ∧ id node ∈ ms ∧ firstNearest nodes node heads h).

Lemma assignStep_lists (node : WSNNode) (members members' : gmap string (list string)) :
  le0 (E !! id node) = false → isBase node = false → id node ∉ heads →
  LEACH.assignStep nodes E heads node members = Returns members' →
  listed node members'.
Proof.
  intros Hlive Hnb Hnh. unfold LEACH.assignStep.
  rewrite Hlive, Hnb. apply includes_false in Hnh. rewrite Hnh.
  destruct (forOf _ heads _) as [[d nh]|e] eqn:Hnear; simpl; [|done].
  pose proof (nearest_spec nodes node heads d nh Hheads Hnear) as Hfirst.
  assert (nh ∈ heads) as Hin.
  { destruct Hfirst as (pre & post & head & -> & _).
    apply elem_of_app. right. by left. }
  destruct (String.eqb nh EmptyString) eqn:Heq.
  { apply String.eqb_eq in Heq. congruence. }
  destruct (members !! nh) as [ms|]; simpl; [|done].
  intros [= <-]. exists nh, (ms ++ [id node]). rewrite lookup_insert_eq.
  split; [done|]. split; [|done]. apply elem_of_app. right. by left.
Qed.

Lemma assignStep_keeps (node other : WSNNode)
    (members members' : gmap string (list string)) :
  LEACH.assignStep nodes E heads other members = Returns members' →
  listed node members → listed node members'.
Proof.
  unfold LEACH.assignStep.
  destruct (le0 _); [by intros [= <-]|].
  destruct (isBase other); [by intros [= <-]|].
  destruct (LEACH.includes heads (id other)); [by intros [= <-]|].
  destruct (forOf _ heads _) as [[d nh]|e]; simpl; [|done].
  destruct (String.eqb nh EmptyString); [by intros [= <-]|].
  destruct (members !! nh) as [ms0|] eqn:Hms0; simpl; [|done].
  intros [= <-] (h & ms & Hms & Hin & Hfirst).
  destruct (decide (nh = h)) as [->|Hne].
  - exists h, (ms0 ++ [id other]). rewrite lookup_insert_eq.
    split; [done|]. split; [|done]. apply elem_of_app. left. congruence.
  - exists h, ms. by rewrite lookup_insert_ne.
Qed.

Lemma assign_lists (node : WSNNode) (members members' : gmap string (list string)) :
  node ∈ nodes →
  le0 (E !! id node) = false → isBase node = false → id node ∉ heads →
  forOf (LEACH.assignStep nodes E heads) nodes members = Returns members' →
  listed node members'.
Proof.
  intros Hnode Hlive Hnb Hnh Hrun.
  apply list_elem_of_split in Hnode as (l1 & l2 & Hsplit).
  rewrite Hsplit in Hrun at 2.
  apply forOf_app_Returns in Hrun as (m1 & _ & Hrun).
  cbn [forOf] in Hrun. apply bind_Returns in Hrun as (m2 & Hstep & Hrun).
  apply (forOf_invariant (λ m, listed node m) (LEACH.assignStep nodes E heads) l2)
    in Hrun; [done| |by eapply assignStep_lists].
  intros other s s' _ Hs Hother. by eapply assignStep_keeps.
Qed.
End Assignment.

Section Coverage.
Context `{MathHost}.
Variable random : nat → Q.
Variable nodes : list WSNNode.
Variable config : LEACH.LEACHConfig.

(** A round with a head started with a node that was not dead. *)
Lemma heads_need_a_live_node (round : Z) (E : gmap string Q) (calls calls' : nat)
    (t : LEACH.Topology) (b : Sim.Books) :
  LEACH.executeRound random nodes config round E calls = Returns (t, b, calls') →
  LEACH.clusterHeads t ≠ [] →
  ∃ n, n ∈ nodes ∧ le0 (E !! id n) = false.
Proof.
  unfold LEACH.executeRound. intros Hex.
  apply bind_Returns in Hex as ([t1 c1] & Hfb & Hex).
  apply bind_Returns in Hex as (members & _ & Hex).
  apply bind_Returns in Hex as (b1 & _ & Hex).
  apply bind_Returns in Hex as (b2 & _ & Hex).
  injection Hex as <- _ _. simpl. intros Hne.
  assert (∀ l acc,
            (∀ n, n ∈ l → n ∈ nodes) →
            LEACH.clusterHeads (fold_left (LEACH.electStep random config E) l acc).1 ≠ [] →
            LEACH.clusterHeads acc.1 ≠ [] ∨ ∃ n, n ∈ nodes ∧ le0 (E !! id n) = false)
    as Hfold.
  { induction l as [|n l IH]; intros [t c] Hl Hres; simpl in *; [by left|].
    destruct (IH _ (λ m Hm, Hl m (list_elem_of_further _ _ _ Hm)) Hres)
      as [Hacc|?]; [|by right].
    destruct (le0 (E !! id n)) eqn:Hlive; [by left|].
    right. exists n. split; [apply Hl; by left | done]. }
  unfold LEACH.electHeads in Hfb.
  destruct (fold_left _ nodes _) as [t0 c0] eqn:Helect.
  destruct (decide (LEACH.clusterHeads t0 = [])) as [Hnil|Hsome].
  - unfold LEACH.fallbackHead in Hfb. rewrite Hnil in Hfb. simpl in Hfb.
    destruct (0 <? length _)%nat eqn:Hlen; [|injection Hfb as <- <-; congruence].
    destruct (arrayGet _ _) as [sel|] eqn:Hsel; simpl in Hfb; [|done].
    apply arrayGet_Some_elem in Hsel.
    apply list_elem_of_fmap in Hsel as (n & _ & Hn).
    apply list_elem_of_In, filter_In in Hn as [Hn Hcond].
    apply andb_true_iff in Hcond as [Hlive _].
    exists n. split; [by apply list_elem_of_In|].
    destruct (E !! id n) as [e|]; [|done]. simpl in *.
    apply Qltb_lt in Hlive. destruct (Qle_bool e 0) eqn:Hle; [|done].
    apply Qle_bool_iff in Hle. lra.
  - destruct (Hfold nodes ({| LEACH.clusterHeads := []; LEACH.clusterMembers := ∅ |}, calls))
      as [Hc|?]; [done| |done|done].
    by rewrite Helect.
Qed.

Lemma startLedger_all_live (initialEnergy : Q) (E : gmap string Q) :
  startLedger nodes initialEnergy E →
  (∃ n, n ∈ nodes ∧ le0 (E !! id n) = false) →
  ∀ n, n ∈ nodes → le0 (E !! id n) = false.
Proof.
  intros [Hinit|Hfull] (m & Hm & Hlive) n Hn.
  - rewrite (Hinit n Hn). by rewrite (Hinit m Hm) in Hlive.
  - apply countAlive_full with (n := n) in Hfull; [|done].
    destruct (E !! id n) as [e|]; [|done]. simpl in *.
    apply Qltb_lt in Hfull. destruct (Qle_bool e 0) eqn:Hle; [|done].
    apply Qle_bool_iff in Hle. lra.
Qed.

Lemma executeRound_lists (initialEnergy : Q) (round : Z) (E : gmap string Q)
    (calls calls' : nat) (t : LEACH.Topology) (b : Sim.Books) (n : WSNNode) :
  startLedger nodes initialEnergy E →
  LEACH.executeRound random nodes config round E calls = Returns (t, b, calls') →
  LEACH.clusterHeads t ≠ [] → EmptyString ∉ LEACH.clusterHeads t →
  n ∈ nodes → isBase n = false → id n ∉ LEACH.clusterHeads t →
  ∃ h ms, LEACH.clusterMembers t !! h = Some ms ∧ id n ∈ ms ∧
          firstNearest nodes n (LEACH.clusterHeads t) h.
Proof.
  intros Hstart Hex Hne Hnames Hn Hnb Hnh.
  pose proof (heads_need_a_live_node _ _ _ _ _ _ Hex Hne) as Hlive.
  pose proof (startLedger_all_live _ _ Hstart Hlive n Hn) as Hnlive.
  unfold LEACH.executeRound in Hex.
  apply bind_Returns in Hex as ([t1 c1] & _ & Hex).
  apply bind_Returns in Hex as (members & Hassign & Hex).
  apply bind_Returns in Hex as (b1 & _ & Hex).
  apply bind_Returns in Hex as (b2 & _ & Hex).
  injection Hex as <- _ _. simpl in *.
  by eapply assign_lists.
Qed.
End Coverage.

(** X7.  In every round recorded by [simulateLEACH] that has a head, each
    non-base node that is not a head is in the member list of the first
    head at the smallest distance from it (no head having the empty string
    as its id, which the assignment reads as "no head found"). *)
Theorem leach_members_join_nearest_head `{MathHost} (random : nat → Q)
    (nodes : list WSNNode) (config : LEACH.LEACHConfig) :
  whenReturns
    (λ res,
       Forall
         (λ r,
            let heads := LEACH.clusterHeads (Sim.topology r) in
            heads ≠ [] → EmptyString ∉ heads →
            ∀ n, n ∈ nodes → isBase n = false → id n ∉ heads →
                 ∃ h ms, LEACH.clusterMembers (Sim.topology r) !! h = Some ms ∧
                         id n ∈ ms ∧ firstNearest nodes n heads h)
         (Sim.rounds res))
    (LEACH.simulateLEACH random nodes config).
Proof.
  apply simulateLEACH_run. intros st Hrun.
  apply run_recorded in Hrun. eapply Forall_impl; [exact Hrun|].
  intros r (E & x & b & x' & Hstart & Hex & _) heads Hne Hnames n Hn Hnb Hnh.
  by eapply executeRound_lists.
Qed.

(** ** The greedy chain *)

Section Greedy.
Context `{MathHost}.

Lemma scanNearest_spec (currentNode : WSNNode) (rest pre mid : list WSNNode)
    (m : WSNNode) :
  (∀ n, n ∈ pre →
        (calculateDistance (position currentNode) (position m)
         < calculateDistance (position currentNode) (position n))%Q) →
  (∀ n, n ∈ mid →
        (calculateDistance (position currentNode) (position m)
         <= calculateDistance (position currentNode) (position n))%Q) →
  ∃ pre' next post',
    pre ++ m :: mid ++ rest = pre' ++ next :: post' ∧
    PEGASIS.scanNearest currentNode rest (length (pre ++ m :: mid)) (length pre)
      (calculateDistance (position currentNode) (position m)) = length pre' ∧
    (∀ n, n ∈ pre' →
          (calculateDistance (position currentNode) (position next)
           < calculateDistance (position currentNode) (position n))%Q) ∧
    (∀ n, n ∈ post' →
          (calculateDistance (position currentNode) (position next)
           <= calculateDistance (position currentNode) (position n))%Q).
Proof.
  revert pre mid m. induction rest as [|x rest IH]; intros pre mid m Hpre Hmid.
  - exists pre, m, mid. rewrite app_nil_r. by repeat split.
  - cbn [PEGASIS.scanNearest].
    destruct (Qltb _ _) eqn:Hcmp.
    + apply Qltb_lt in Hcmp.
      destruct (IH (pre ++ m :: mid) [] x) as (pre' & next & post' & Heq & Hidx & Hlt & Hle).
      * intros n Hn. apply elem_of_app in Hn as [Hn|Hn].
        -- specialize (Hpre n Hn). lra.
        -- apply elem_of_cons in Hn as [->|Hn]; [done|].
           specialize (Hmid n Hn). lra.
      * intros n Hn. by apply elem_of_nil in Hn.
      * exists pre', next, post'. split; [|split; [|done]].
        -- rewrite <- Heq. by rewrite <- app_assoc.
        -- rewrite <- Hidx. f_equal. rewrite !length_app. simpl. lia.
    + apply Qltb_ge in Hcmp.
      destruct (IH pre (mid ++ [x]) m) as (pre' & next & post' & Heq & Hidx & Hlt & Hle).
      * done.
      * intros n Hn. apply elem_of_app in Hn as [Hn|Hn]; [by apply Hmid|].
        apply list_elem_of_singleton in Hn as ->. done.
      * exists pre', next, post'. split; [|split; [|done]].
        -- rewrite <- Heq. by rewrite <- app_assoc.
        -- rewrite <- Hidx. f_equal. rewrite !length_app. simpl.
           rewrite length_app. simpl. lia.
Qed.

Lemma greedyLoop_tour (fuel : nat) (currentNode : WSNNode)
    (nodesCopy : list WSNNode) (chain : list string) :
  (length nodesCopy ≤ fuel)%nat →
  ∃ tl, PEGASIS.greedyLoop fuel currentNode nodesCopy chain = Returns (chain ++ tl) ∧
        greedyTour currentNode nodesCopy tl.
Proof.
  revert currentNode nodesCopy chain.
  induction fuel as [|fuel IH]; intros currentNode nodesCopy chain Hlen.
  - destruct nodesCopy; [|simpl in Hlen; lia].
    exists []. rewrite app_nil_r. split; [done|constructor].
  - destruct nodesCopy as [|n0 rest].
    + exists []. rewrite app_nil_r. split; [done|constructor].
    + cbn [PEGASIS.greedyLoop].
      destruct (scanNearest_spec currentNode rest [] [] n0)
        as (pre & next & post & Heq & Hidx & Hlt & Hle);
        [by intros n Hn; apply elem_of_nil in Hn
        |by intros n Hn; apply elem_of_nil in Hn|].
      simpl in Heq, Hidx. rewrite Hidx, Heq.
      rewrite list_lookup_middle by done. simpl.
      rewrite delete_middle.
      destruct (IH next (pre ++ post) (chain ++ [id next])) as (tl & Hrun & Htour).
      { apply (f_equal length) in Heq. rewrite length_app in *. simpl in *. lia. }
      exists (id next :: tl). split.
      * rewrite Hrun. by rewrite <- app_assoc.
      * by constructor.
Qed.
End Greedy.

(** X8.  [constructGreedyChain] starts at the first node it is given and
    then always moves to the nearest node not yet on the chain, the first
    of them in input order when several are at that distance. *)
Theorem greedy_chain_follows_nearest_neighbour `{MathHost}
    (first : WSNNode) (others : list WSNNode) :
  ∃ chain,
    PEGASIS.constructGreedyChain (first :: others) = Returns (id first :: chain) ∧
    greedyTour first others chain.
Proof.
  destruct others as [|n rest].
  - exists []. split; [done|constructor].
  - unfold PEGASIS.constructGreedyChain.
    destruct (greedyLoop_tour (length (n :: rest)) first (n :: rest) [id first])
      as (tl & Hrun & Htour); [done|].
    by exists tl.
Qed.

(** ** What a round delivers *)



Section PegasisData.
Context `{MathHostSpec}.
Variable nodes : list WSNNode.
Variable config : PEGASIS.PEGASISConfig.
Hypothesis Htransmit : (0 <= PEGASIS.transmitEnergy config)%Q.
Hypothesis Hreceive : (0 <= PEGASIS.receiveEnergy config)%Q.
Hypothesis Hsize : (0 <= PEGASIS.dataSize config)%Q.

Abbreviation data := Sim.roundDataTransmitted.
Abbreviation dataSize := (PEGASIS.dataSize config).



Section Relay.
Variable senderOf receiverOf : Z → option string.



End Relay.

Variable baseStation : option WSNNode.



Variable chain : list string.
Hypothesis Hchain : ∀ c, c ∈ chain → c ∈ map id nodes.


End PegasisData.




Section LeachData.
Context `{MathHost}.
Variable nodes : list WSNNode.
Variable config : LEACH.LEACHConfig.
Variable members : gmap string (list string).

Abbreviation data := Sim.roundDataTransmitted.
Abbreviation dataSize := (LEACH.dataSize config).
Abbreviation count headId :=
  (memberCount {| LEACH.clusterHeads := []; LEACH.clusterMembers := members |} headId).



End LeachData.


(** ** The status shown for a round *)

Lemma networkStatus_full (nodes : list WSNNode) :
  nodes ≠ [] →
  RoutingSimulator.networkStatus nodes (Some (length nodes)) = "Healthy"%string.
Proof.
  intros Hne. unfold RoutingSimulator.networkStatus.
  assert (0 < inject_Z (Z.of_nat (length nodes)))%Q as Hpos.
  { change 0%Q with (inject_Z 0). rewrite <- Zlt_Qlt.
    destruct nodes; [done | simpl; lia]. }
  destruct (Qltb _ _) eqn:Hcmp; [done|]. apply Qltb_ge in Hcmp. lra.
Qed.

Lemma status_by_lifetime {T X : Type}
    (executeRound : Z → gmap string Q → X → outcome (T * Sim.Books * X))
    (nodes : list WSNNode) (configRounds : Z) (initialEnergy : Q) (x0 : X)
    (st : Sim.RunState T X) :
  nodes ≠ [] →
  Sim.run executeRound nodes configRounds initialEnergy x0 = Returns st →
  let res := Sim.finish nodes st in
  ∀ currentRound : Z,
    ((1 ≤ currentRound < Sim.networkLifetime (Sim.metrics res))%Z →
     RoutingSimulator.statusCard nodes (Sim.rounds res) currentRound
       = "Healthy"%string) ∧
    ((Sim.networkLifetime (Sim.metrics res) < currentRound)%Z →
     RoutingSimulator.statusCard nodes (Sim.rounds res) currentRound
       = "Degraded"%string).
Proof.
  intros Hne Hrun res currentRound.
  apply logShape_run in Hrun as [_ Hshape]. subst res. simpl.
  unfold RoutingSimulator.statusCard, arrayGet.
  assert (∃ front tail,
            Sim.st_rounds st = front ++ tail ∧ Forall (fullAlive nodes) front ∧
            (Sim.st_networkLifetime st - 1 ≤ Z.of_nat (length front))%Z ∧
            (Z.of_nat (length (Sim.st_rounds st))
             ≤ Z.max 0 (Sim.st_networkLifetime st))%Z)
    as (front & tail & Hlog & Hfull & Hfront & Hlen).
  { destruct (Sim.st_networkDied st).
    - destruct Hshape as (front & last & Hlog & Hfull & _ & Hlife & _).
      exists front, [last]. split; [done|]. split; [done|].
      rewrite Hlife, Hlog, length_app. simpl. lia.
    - destruct Hshape as (Hfull & Hlife & Hlen).
      exists (Sim.st_rounds st), []. rewrite app_nil_r.
      split; [done|]. split; [done|]. lia. }
  split.
  - intros Hcr. destruct (currentRound - 1 <? 0)%Z eqn:Hneg;
      [apply Z.ltb_lt in Hneg; lia|].
    destruct (lookup_lt_is_Some_2 front (Z.to_nat (currentRound - 1)))
      as [r Hr]; [lia|].
    rewrite Hlog, (lookup_app_l_Some _ _ _ _ Hr). simpl.
    eapply Forall_lookup_1 in Hfull; [|exact Hr].
    unfold fullAlive in Hfull. rewrite Hfull. by apply networkStatus_full.
  - intros Hcr. destruct (currentRound - 1 <? 0)%Z eqn:Hneg; [done|].
    apply Z.ltb_ge in Hneg.
    rewrite lookup_ge_None_2; [done|]. lia.
Qed.

(** X11.  The status card of the simulator page, for a non-empty node
    list and the log of either simulator: it shows Healthy at every playback
    position from 1 up to but excluding [networkLifetime], and Degraded at
    every position after [networkLifetime], where the log has no entry,
    whatever the number of nodes still alive. *)
Theorem status_card_follows_network_lifetime `{MathHost} (random : nat → Q)
    (nodes : list WSNNode) (lconfig : LEACH.LEACHConfig)
    (pconfig : PEGASIS.PEGASISConfig) :
  nodes ≠ [] →
  whenReturns
    (λ res, ∀ currentRound : Z,
       ((1 ≤ currentRound < Sim.networkLifetime (Sim.metrics res))%Z →
        RoutingSimulator.statusCard nodes (Sim.rounds res) currentRound
          = "Healthy"%string) ∧
       ((Sim.networkLifetime (Sim.metrics res) < currentRound)%Z →
        RoutingSimulator.statusCard nodes (Sim.rounds res) currentRound
          = "Degraded"%string))
    (LEACH.simulateLEACH random nodes lconfig) ∧
  whenReturns
    (λ res, ∀ currentRound : Z,
       ((1 ≤ currentRound < Sim.networkLifetime (Sim.metrics res))%Z →
        RoutingSimulator.statusCard nodes (Sim.rounds res) currentRound
          = "Healthy"%string) ∧
       ((Sim.networkLifetime (Sim.metrics res) < currentRound)%Z →
        RoutingSimulator.statusCard nodes (Sim.rounds res) currentRound
          = "Degraded"%string))
    (PEGASIS.simulatePEGASIS nodes pconfig).
Proof.
  intros Hne. split.
  - apply simulateLEACH_run. intros st Hrun.
    exact (status_by_lifetime _ _ _ _ _ _ Hne Hrun).
  - apply simulatePEGASIS_run. intros chain st _ Hrun.
    exact (status_by_lifetime _ _ _ _ _ _ Hne Hrun).
Qed.

(** X11 on the sample network and the default configurations. *)
Lemma status_card_follows_network_lifetime_witness :
  whenReturns
    (λ res,
       RoutingSimulator.statusCard Sample.net3 (Sim.rounds res)
         (Sim.networkLifetime (Sim.metrics res) + 1) = "Degraded"%string)
    (PEGASIS.simulatePEGASIS (H := Sample.host) Sample.net3
       PEGASIS.DEFAULT_PEGASIS_CONFIG).
Proof.
  assert (Sample.net3 ≠ []) as Hne by done.
  destruct (status_card_follows_network_lifetime (H := Sample.host) Sample.half
              Sample.net3 LEACH.DEFAULT_LEACH_CONFIG
              PEGASIS.DEFAULT_PEGASIS_CONFIG Hne) as [_ Hp].
  apply whenReturns_intro. intros res Hres.
  refine (proj2 (whenReturns_elim _ _ _ Hp Hres _) _). lia.
Defined.

(** ** Clusters do not overlap *)

Lemma fold_left_prefix {A S : Type} (P : list A → S → Prop) (f : S → A → S)
    (l : list A) :
  (∀ l1 x l2 s, l = l1 ++ x :: l2 → P l1 s → P (l1 ++ [x]) (f s x)) →
  ∀ s, P [] s → P l (fold_left f l s).
Proof.
  intros Hstep.
  assert (∀ rest seen s, l = seen ++ rest → P seen s → P l (fold_left f rest s))
    as Hgen.
  { induction rest as [|x rest IH]; intros seen s Hl Hs; simpl.
    - by rewrite Hl, app_nil_r.
    - apply (IH (seen ++ [x])); [by rewrite <- app_assoc | by eapply Hstep]. }
  intros s Hs. by apply (Hgen l []).
Qed.

Lemma forOf_prefix {A S : Type} (P : list A → S → Prop) (body : A → S → outcome S)
    (l : list A) :
  (∀ l1 x l2 s s', l = l1 ++ x :: l2 → P l1 s → body x s = Returns s' →
                   P (l1 ++ [x]) s') →
  ∀ s s', P [] s → forOf body l s = Returns s' → P l s'.
Proof.
  intros Hstep.
  assert (∀ rest seen s s', l = seen ++ rest → P seen s →
                            forOf body rest s = Returns s' → P l s') as Hgen.
  { induction rest as [|x rest IH]; intros seen s s' Hl Hs Hrun; simpl in Hrun.
    - injection Hrun as <-. by rewrite Hl, app_nil_r.
    - apply bind_Returns in Hrun as (s1 & H1 & Hrun).
      apply (IH (seen ++ [x]) s1); [by rewrite <- app_assoc | by eapply Hstep | done]. }
  intros s s' Hs. by apply (Hgen l []).
Qed.

Lemma id_fresh (nodes l1 l2 : list WSNNode) (x : WSNNode) :
  NoDup (map id nodes) → nodes = l1 ++ x :: l2 → id x ∉ map id l1.
Proof.
  intros Hnd ->. rewrite map_app in Hnd. simpl in Hnd.
  apply NoDup_app in Hnd as (_ & Hdisj & _).
  intros Hin. apply (Hdisj _ Hin). by left.
Qed.

Section Disjoint.
Context `{MathHost}.
Variable random : nat → Q.
Variable nodes : list WSNNode.
Variable config : LEACH.LEACHConfig.
Hypothesis Hids : NoDup (map id nodes).

Lemma electHeads_NoDup (E : gmap string Q) (calls : nat) :
  NoDup (LEACH.clusterHeads (LEACH.electHeads random nodes config E calls).1).
Proof.
  unfold LEACH.electHeads.
  refine (proj1 (fold_left_prefix
            (λ l1 acc, NoDup (LEACH.clusterHeads acc.1) ∧
                       ∀ h, h ∈ LEACH.clusterHeads acc.1 → h ∈ map id l1)
            (LEACH.electStep random config E) nodes _ _ _)).
  - intros l1 x l2 [t c] Hl [Hnd Hsub].
    assert (∀ h, h ∈ LEACH.clusterHeads t → h ∈ map id (l1 ++ [x])) as Hsub'.
    { intros h Hh. rewrite map_app. apply elem_of_app. left. by apply Hsub. }
    simpl. destruct (le0 _); [done|]. destruct (isBase x); [done|].
    destruct (Qltb _ _); [|done]. simpl. split.
    + apply NoDup_app. split; [done|]. split; [|apply NoDup_singleton].
      intros h Hh Hx. apply list_elem_of_singleton in Hx as ->.
      by apply (id_fresh nodes l1 l2 x Hids Hl), Hsub.
    + intros h Hh. apply elem_of_app in Hh as [Hh|Hh]; [auto|].
      apply list_elem_of_singleton in Hh as ->.
      rewrite map_app. apply elem_of_app. right. by left.
  - simpl. split; [constructor|]. intros h Hh. by apply elem_of_nil in Hh.
Qed.

Lemma fallbackHead_NoDup (E : gmap string Q) (t0 t : LEACH.Topology)
    (calls0 calls : nat) :
  LEACH.fallbackHead random nodes E (t0, calls0) = Returns (t, calls) →
  NoDup (LEACH.clusterHeads t0) → NoDup (LEACH.clusterHeads t).
Proof.
  unfold LEACH.fallbackHead.
  destruct (LEACH.clusterHeads t0) as [|h0 hs] eqn:Hheads; simpl;
    [|by intros [= <- <-]; rewrite Hheads].
  destruct (0 <? length _)%nat; [|by intros [= <- <-]; rewrite Hheads].
  destruct (arrayGet _ _) as [sel|]; simpl; [|done].
  intros [= <- <-] _. simpl. apply NoDup_singleton.
Qed.

Abbreviation assigned l1 members :=
  ((∀ h ms, members !! h = Some ms →
            NoDup ms ∧ ∀ m, m ∈ ms → m ∈ map id l1) ∧
   (∀ h1 h2 ms1 ms2 m,
      members !! h1 = Some ms1 → members !! h2 = Some ms2 →
      m ∈ ms1 → m ∈ ms2 → h1 = h2)).

Lemma assignStep_assigned (E : gmap string Q) (heads : list string)
    (l1 l2 : list WSNNode) (x : WSNNode)
    (members members' : gmap string (list string)) :
  nodes = l1 ++ x :: l2 →
  assigned l1 members →
  LEACH.assignStep nodes E heads x members = Returns members' →
  assigned (l1 ++ [x]) members'.
Proof.
  intros Hl [Hlists Hdisj] Hstep.
  pose proof (id_fresh nodes l1 l2 x Hids Hl) as Hfresh.
  assert (assigned (l1 ++ [x]) members) as Hsame.
  { split; [|done]. intros h ms Hms. destruct (Hlists h ms Hms) as [Hnd Hsub].
    split; [done|]. intros m Hm. rewrite map_app. apply elem_of_app. left. auto. }
  revert Hstep. unfold LEACH.assignStep.
  destruct (le0 _); [by intros [= <-]|].
  destruct (isBase x); [by intros [= <-]|].
  destruct (LEACH.includes heads (id x)); [by intros [= <-]|].
  destruct (forOf _ heads _) as [[d nh]|e]; simpl; [|done].
  destruct (String.eqb nh EmptyString); [by intros [= <-]|].
  destruct (members !! nh) as [ms0|] eqn:Hms0; simpl; [|done].
  intros [= <-]. destruct (Hlists nh ms0 Hms0) as [Hnd0 Hsub0].
  assert (id x ∉ ms0) as Hx0 by (intros Hin; by apply Hfresh, Hsub0).
  split.
  - intros h ms. destruct (decide (nh = h)) as [<-|Hne].
    + rewrite lookup_insert_eq. intros [= <-]. split.
      * apply NoDup_app. split; [done|]. split; [|apply NoDup_singleton].
        intros m Hm Hmx. by apply list_elem_of_singleton in Hmx as ->.
      * intros m Hm. rewrite map_app.
        apply elem_of_app in Hm as [Hm|Hm]; apply elem_of_app;
          [left; auto | right; simpl; by apply list_elem_of_singleton in Hm as ->; left].
    + rewrite lookup_insert_ne by done. by apply (proj1 Hsame).
  - intros h1 h2 ms1 ms2 m.
    destruct (decide (nh = h1)) as [<-|Hne1], (decide (nh = h2)) as [<-|Hne2];
      [done| | |].
    + rewrite lookup_insert_eq, lookup_insert_ne by done.
      intros [= <-] Hms2 Hm1 Hm2.
      apply elem_of_app in Hm1 as [Hm1|Hm1]; [by eapply Hdisj|].
      apply list_elem_of_singleton in Hm1 as ->.
      destruct (Hlists h2 ms2 Hms2) as [_ Hsub2]. by apply Hsub2, Hfresh in Hm2.
    + rewrite lookup_insert_eq, lookup_insert_ne by done.
      intros Hms1 [= <-] Hm1 Hm2.
      apply elem_of_app in Hm2 as [Hm2|Hm2]; [by eapply Hdisj|].
      apply list_elem_of_singleton in Hm2 as ->.
      destruct (Hlists h1 ms1 Hms1) as [_ Hsub1]. by apply Hsub1, Hfresh in Hm1.
    + rewrite !lookup_insert_ne by done. apply Hdisj.
Qed.

Lemma executeRound_disjoint (round : Z) (E : gmap string Q) (calls calls' : nat)
    (t : LEACH.Topology) (b : Sim.Books) :
  LEACH.executeRound random nodes config round E calls = Returns (t, b, calls') →
  clustersDisjoint t.
Proof.
  unfold LEACH.executeRound. intros Hex.
  apply bind_Returns in Hex as ([t1 c1] & Hfb & Hex).
  apply bind_Returns in Hex as (members & Hassign & Hex).
  apply bind_Returns in Hex as (b1 & _ & Hex).
  apply bind_Returns in Hex as (b2 & _ & Hex).
  injection Hex as <- _ _.
  pose proof (electHeads_NoDup E calls) as Hnd0.
  pose proof (electHeads_electOK random nodes config E calls) as Hok0.
  destruct (LEACH.electHeads random nodes config E calls) as [t0 c0].
  pose proof (fallbackHead_NoDup _ _ _ _ _ Hfb Hnd0) as Hnd.
  pose proof (fallbackHead_electOK _ _ _ _ _ _ _ Hfb Hok0) as (_ & _ & Hempty).
  apply (forOf_prefix (λ l1 ms, assigned l1 ms)) in Hassign.
  - destruct Hassign as [Hlists Hdisj].
    split; [done|]. split; [|done]. intros h ms Hms. by apply (Hlists h ms).
  - intros l1 x l2 s s' Hl Hs Hstep. by eapply assignStep_assigned.
  - split.
    + intros h ms Hms. rewrite (Hempty h ms Hms). split; [constructor|].
      intros m Hm. by apply elem_of_nil in Hm.
    + intros h1 h2 ms1 ms2 m Hms1 _ Hm. rewrite (Hempty h1 ms1 Hms1) in Hm.
      by apply elem_of_nil in Hm.
Qed.
End Disjoint.

(** X12.  When the ids of the node list are distinct, the clusters of
    every recorded LEACH round do not overlap: no head is listed twice, no
    member list names a node twice, and no node is a member of two
    heads. *)
Theorem leach_clusters_do_not_overlap `{MathHost} (random : nat → Q)
    (nodes : list WSNNode) (config : LEACH.LEACHConfig) :
  NoDup (map id nodes) →
  whenReturns
    (λ res, Forall (λ r, clustersDisjoint (Sim.topology r)) (Sim.rounds res))
    (LEACH.simulateLEACH random nodes config).
Proof.
  intros Hids. apply simulateLEACH_run. intros st Hrun.
  apply run_recorded in Hrun. eapply Forall_impl; [exact Hrun|].
  intros r (E & x & b & x' & _ & Hex & _). by eapply executeRound_disjoint.
Qed.

(** X12 on the sample network. *)
Lemma leach_clusters_do_not_overlap_witness :
  whenReturns
    (λ res, Forall (λ r, NoDup (LEACH.clusterHeads (Sim.topology r))) (Sim.rounds res))
    (LEACH.simulateLEACH (H := Sample.host) Sample.half Sample.net3
       LEACH.DEFAULT_LEACH_CONFIG).
Proof.
  assert (NoDup (map id Sample.net3)) as Hids
    by (apply (bool_decide_unpack _); vm_compute; exact I).
  pose proof (leach_clusters_do_not_overlap (H := Sample.host) Sample.half
                Sample.net3 LEACH.DEFAULT_LEACH_CONFIG Hids) as Hthm.
  apply whenReturns_intro. intros res Hres.
  pose proof (whenReturns_elim _ _ _ Hthm Hres) as Hall.
  eapply Forall_impl; [exact Hall|]. by intros r [Hnd _].
Defined.

(** ** The energy metric on binary64 numbers *)

Section DoubleDriver.
Context {T X : Type}.
Variable executeRound :
  Z → Double.NumberRecord → X → outcome (T * Double.Sim.Books * X).
Variable nodes : list Double.WSNNode.
Variable configRounds : Z.
Variable initialEnergy : float.

Lemma double_roundLoop_invariant (P : Double.Sim.RunState T X → Prop) :
  (∀ round st st',
     P st → Double.Sim.iteration executeRound nodes round st = Returns st' → P st') →
  ∀ n round st st',
    P st → Double.Sim.roundLoop executeRound nodes n round st = Returns st' → P st'.
Proof.
  intros Hstep. induction n as [|n IH]; intros round st st' Hst Hrun; simpl in Hrun.
  - by injection Hrun as <-.
  - apply bind_Returns in Hrun as (st1 & H1 & Hrun).
    eapply IH; [|exact Hrun]. by eapply Hstep.
Qed.

Lemma double_sumValues (record : Double.NumberRecord) (acc : float) :
  Double.Sim.sumValues record acc
  = fold_left PrimFloat.add (Double.values record) acc.
Proof.
  unfold Double.Sim.sumValues, Double.values. revert acc.
  induction record as [|entry record IH]; intros acc; simpl; [done|]. apply IH.
Qed.

Lemma double_recordedValues_snoc (log : list (Double.Sim.Round T))
    (r : Double.Sim.Round T) :
  Double.recordedValues (log ++ [r])
  = Double.recordedValues log ++ Double.values (Double.Sim.roundEnergyUsage r).
Proof.
  unfold Double.recordedValues. rewrite map_app, concat_app. simpl.
  by rewrite app_nil_r.
Qed.

Lemma double_run_running_total (x0 : X) (st : Double.Sim.RunState T X) :
  Double.Sim.run executeRound nodes configRounds initialEnergy x0 = Returns st →
  Double.Sim.st_totalEnergyConsumption st
  = fold_left PrimFloat.add (Double.recordedValues (Double.Sim.st_rounds st)) 0%float.
Proof.
  unfold Double.Sim.run.
  apply (double_roundLoop_invariant
           (λ s, Double.Sim.st_totalEnergyConsumption s
                 = fold_left PrimFloat.add
                     (Double.recordedValues (Double.Sim.st_rounds s)) 0%float));
    [|done].
  intros round s s' Hs. unfold Double.Sim.iteration.
  destruct (Double.Sim.st_networkDied s); [by intros [= <-]|].
  destruct (executeRound _ _ _) as [[[topo b] x]|e]; simpl; [|done].
  intros [= <-]. simpl.
  by rewrite double_recordedValues_snoc, fold_left_app, <- Hs, double_sumValues.
Qed.
End DoubleDriver.

(** C9.  On the binary64 numbers the code computes with, the total-energy
    metric of either simulator is the running total of the recorded
    [energyUsage] values: starting from 0, every value of every round of the
    returned log is added once, round by round and within a round in
    [for ... in] order. *)
Theorem energy_consumption_is_the_running_total `{Double.MathHost}
    (random : nat → float) (nodes : list Double.WSNNode)
    (lconfig : Double.LEACH.LEACHConfig)
    (pconfig : Double.PEGASIS.PEGASISConfig) :
  whenReturns
    (λ res, Double.Sim.energyConsumption (Double.Sim.metrics res)
            = fold_left PrimFloat.add
                (Double.recordedValues (Double.Sim.rounds res)) 0%float)
    (Double.LEACH.simulateLEACH random nodes lconfig) ∧
  whenReturns
    (λ res, Double.Sim.energyConsumption (Double.Sim.metrics res)
            = fold_left PrimFloat.add
                (Double.recordedValues (Double.Sim.rounds res)) 0%float)
    (Double.PEGASIS.simulatePEGASIS nodes pconfig).
Proof.
  split; apply whenReturns_intro; intros res Hres.
  - unfold Double.LEACH.simulateLEACH, Double.Sim.simulate in Hres.
    apply bind_Returns in Hres as (st & Hrun & [= <-]).
    by apply double_run_running_total in Hrun.
  - unfold Double.PEGASIS.simulatePEGASIS, Double.Sim.simulate in Hres.
    apply bind_Returns in Hres as (chain & _ & Hres).
    apply bind_Returns in Hres as (st & Hrun & [= <-]).
    by apply double_run_running_total in Hrun.
Qed.

(** The running total is not the sum of the per-round sums: on the sample
    network with the default configurations (every draw of [Math.random]
    being 0.5 for LEACH) the two differ in the last digits, because the
    additions are grouped differently. *)
Example energy_consumption_differs_from_sum_of_round_sums :
  (∃ res,
     Double.PEGASIS.simulatePEGASIS (H := Double.Sample.host) Double.Sample.net3
       Double.PEGASIS.DEFAULT_PEGASIS_CONFIG = Returns res ∧
     Double.Sim.energyConsumption (Double.Sim.metrics res)
       = 3.999680000000164%float ∧
     Double.sumOfRoundSums (Double.Sim.rounds res) = 3.9996800000001635%float ∧
     (Double.Sim.energyConsumption (Double.Sim.metrics res)
      =? Double.sumOfRoundSums (Double.Sim.rounds res))%float = false) ∧
  (∃ res,
     Double.LEACH.simulateLEACH (H := Double.Sample.host) Double.Sample.half
       Double.Sample.net3 Double.LEACH.DEFAULT_LEACH_CONFIG = Returns res ∧
     Double.Sim.energyConsumption (Double.Sim.metrics res)
       = 3.3996000000002056%float ∧
     Double.sumOfRoundSums (Double.Sim.rounds res) = 3.3996000000002047%float ∧
     (Double.Sim.energyConsumption (Double.Sim.metrics res)
      =? Double.sumOfRoundSums (Double.Sim.rounds res))%float = false).
Proof.
  split; eexists; (split; [vm_compute; reflexivity|]);
    repeat split; vm_compute; reflexivity.
Qed.
